(** * autofile.model: locator-indexed directory series over a POSIX file tree

    A shallow embedding of [autofile/model.py]: the classes [DataFile],
    [DataSeries] and [DataSeriesFile] and the path helpers at the end of the
    module, over a model of the part of [os], [os.path], [glob] and [shutil]
    that the module calls. *)

From Stdlib Require Import ZArith String Ascii.
From stdpp Require Import gmap strings list fin_maps sorting pretty.


(** ** Exceptions and results *)

Inductive exn : Type :=
  | AssertionError
  | ValueError (msg : string)
  | FileNotFoundError
  | FileExistsError
  | NotADirectoryError
  | IsADirectoryError
  | AttributeError
  | OSError (errno : Z)
  | RecursionError      (* the call stack (fuel) is exhausted *)
  | Unmodelled.         (* a call outside the modelled fragment *)

Inductive Res (A : Type) : Type :=
  | Ok (a : A)
  | Raise (e : exn).
Arguments Ok {A} a.
Arguments Raise {A} e.

Global Instance Res_ret : MRet Res := λ A a, Ok a.
Global Instance Res_bind : MBind Res := λ A B f m,
  match m with Ok a => f a | Raise e => Raise e end.

Definition assert (b : bool) : Res unit :=
  if b then Ok tt else Raise AssertionError.

Definition is_ok {A} (r : Res A) : bool :=
  match r with Ok _ => true | Raise _ => false end.

(** ** [posixpath]: the string functions of [os.path] on POSIX *)

Module posixpath.

Definition sep : ascii := "/"%char.

Definition is_sep (c : ascii) : bool := Ascii.eqb c sep.

Definition is_empty (s : string) : bool :=
  match s with EmptyString => true | String _ _ => false end.

(** [s.startswith('/')] *)
Definition startswith_sep (s : string) : bool :=
  match s with String c _ => is_sep c | EmptyString => false end.

(** [s.endswith('/')] *)
Fixpoint endswith_sep (s : string) : bool :=
  match s with
  | EmptyString => false
  | String c EmptyString => is_sep c
  | String _ r => endswith_sep r
  end.

(** [s.split('/')] *)
Fixpoint split_str (s : string) : list string :=
  match s with
  | EmptyString => [EmptyString]
  | String c r =>
      if is_sep c then EmptyString :: split_str r
      else match split_str r with
           | [] => [String c EmptyString]
           | h :: t => String c h :: t
           end
  end.

(** ['/'.join(comps)] *)
Definition join_str (comps : list string) : string := String.concat "/" comps.

(** One step of the loop of [os.path.join]. *)
Definition join2 (path b : string) : string :=
  if startswith_sep b then b
  else if is_empty path || endswith_sep path then (path +:+ b)
  else (path +:+ "/" +:+ b).

(** [os.path.join(a, *p)] *)
Definition join (a : string) (p : list string) : string := fold_left join2 p a.

(** [(p[:i], p[i:])] for [i = p.rfind('/') + 1] *)
Fixpoint cut_last_sep (p : string) : string * string :=
  match p with
  | EmptyString => (EmptyString, EmptyString)
  | String c r =>
      match cut_last_sep r with
      | (EmptyString, t) =>
          if is_sep c then (String c EmptyString, t) else (EmptyString, String c t)
      | (h, t) => (String c h, t)
      end
  end.

(** [s == '/' * len(s)] *)
Fixpoint all_sep (s : string) : bool :=
  match s with
  | EmptyString => true
  | String c r => is_sep c && all_sep r
  end.

(** [s.rstrip('/')] *)
Fixpoint rstrip_sep (s : string) : string :=
  match s with
  | EmptyString => EmptyString
  | String c r =>
      match rstrip_sep r with
      | EmptyString => if is_sep c then EmptyString else String c EmptyString
      | r' => String c r'
      end
  end.

(** [os.path.split(p)] *)
Definition split (p : string) : string * string :=
  let '(head, tail) := cut_last_sep p in
  let head := if negb (is_empty head) && negb (all_sep head)
              then rstrip_sep head else head in
  (head, tail).

(** [os.path.isabs(p)] *)
Definition isabs (p : string) : bool := startswith_sep p.

(** The loop body of [os.path.normpath]: one component against the
    components kept so far ([new_comps], held in reverse). *)
Definition norm_step (initial_slashes : bool) (rev_comps : list string)
    (comp : string) : list string :=
  if bool_decide (comp = "" ∨ comp = ".") then rev_comps
  else if bool_decide (comp ≠ "..")
          || (negb initial_slashes && bool_decide (rev_comps = []))
          || match rev_comps with
             | last :: _ => bool_decide (last = "..")
             | [] => false
             end
       then comp :: rev_comps
       else match rev_comps with
            | _ :: rest => rest
            | [] => rev_comps
            end.

(** The number of leading slashes that [normpath] keeps: two when the
    path starts with exactly two, one when it starts with one or with
    three or more, none otherwise. *)
Definition initial_slashes (path : string) : nat :=
  match path with
  | String c1 (String c2 (String c3 _)) =>
      if is_sep c1 then if is_sep c2 then if is_sep c3 then 1 else 2 else 1
      else 0
  | String c1 (String c2 EmptyString) =>
      if is_sep c1 then if is_sep c2 then 2 else 1 else 0
  | String c1 EmptyString => if is_sep c1 then 1 else 0
  | EmptyString => 0
  end.

Fixpoint repeat_str (n : nat) (s : string) : string :=
  match n with O => EmptyString | S n => (s +:+ repeat_str n s) end.

(** [os.path.normpath(path)] *)
Definition normpath (path : string) : string :=
  if is_empty path then "."
  else
    let n := initial_slashes path in
    let comps := rev (fold_left (norm_step (bool_decide (n ≠ 0%nat))) (split_str path) []) in
    let path := (repeat_str n "/" +:+ join_str comps) in
    if is_empty path then "." else path.

(** [os.getcwd()] for a working directory given by its components. *)
Definition getcwd (cwd : list string) : string := ("/" +:+ join_str cwd).

(** [os.path.abspath(path)] *)
Definition abspath (cwd : list string) (path : string) : string :=
  normpath (if isabs path then path else join (getcwd cwd) [path]).

(** [len(os.path.commonprefix([l1, l2]))] on two lists of components. *)
Fixpoint common_prefix_len (l1 l2 : list string) : nat :=
  match l1, l2 with
  | x :: l1, y :: l2 => if bool_decide (x = y) then S (common_prefix_len l1 l2) else O
  | _, _ => O
  end.

(** [[x for x in s.split('/') if x]] *)
Definition nonempty_comps (s : string) : list string :=
  filter (λ x, x ≠ "") (split_str s).

(** [os.path.relpath(path)] with the default [start=os.curdir] *)
Definition relpath (cwd : list string) (path : string) : Res string :=
  if is_empty path then Raise (ValueError "no path specified")
  else
    let start_list := nonempty_comps (abspath cwd ".") in
    let path_list := nonempty_comps (abspath cwd path) in
    let i := common_prefix_len start_list path_list in
    let rel_list := replicate (length start_list - i) ".." ++ drop i path_list in
    match rel_list with
    | [] => Ok "."
    | a :: p => Ok (join a p)
    end.

End posixpath.

(** ** The file tree

    A tree without links: every entry is keyed by the list of its
    components from the root; the root itself is always a directory and is
    not stored.  The working directory is part of the state because
    [os.path.abspath] and [os.path.relpath] read it. *)

Inductive node : Type :=
  | Dir
  | File (content : string).

Global Instance node_eq_dec : EqDecision node.
Proof. solve_decision. Defined.

Record FS : Type := mkFS {
  tree : gmap (list string) node;
  cwd : list string
}.

Definition node_at (t : gmap (list string) node) (k : list string) : option node :=
  match k with
  | [] => Some Dir
  | _ => t !! k
  end.

Definition is_dir_node (o : option node) : bool :=
  match o with Some Dir => true | _ => false end.

Definition is_file_node (o : option node) : bool :=
  match o with Some (File _) => true | _ => false end.

(** [strip_prefix d k = Some r] when [k = d ++ r]. *)
Fixpoint strip_prefix (d k : list string) : option (list string) :=
  match d, k with
  | [], _ => Some k
  | x :: d, y :: k => if bool_decide (x = y) then strip_prefix d k else None
  | _ :: _, [] => None
  end.

(** The name of entry [k] if it is an immediate child of [d]. *)
Definition child_name (d k : list string) : option string :=
  match strip_prefix d k with
  | Some [n] => Some n
  | _ => None
  end.

Module os.

Import posixpath.

(** Path resolution: walk the components of a path from directory [cur].
    Every component is looked up in a directory, so the entry reached so
    far must be one; the entry reached last may be missing. *)
Fixpoint walk (t : gmap (list string) node) (cur comps : list string)
    : Res (list string) :=
  match comps with
  | [] => Ok cur
  | c :: rest =>
      match node_at t cur with
      | Some Dir =>
          if bool_decide (c = "" ∨ c = ".") then walk t cur rest
          else if bool_decide (c = "..") then walk t (removelast cur) rest
          else walk t (cur ++ [c]) rest
      | Some (File _) => Raise NotADirectoryError
      | None => Raise FileNotFoundError
      end
  end.

Definition start_dir (fs : FS) (p : string) : list string :=
  if startswith_sep p then [] else cwd fs.

(** The key a path names, when all but its last entry exist. *)
Definition locate (fs : FS) (p : string) : Res (list string) :=
  if is_empty p then Raise FileNotFoundError
  else walk (tree fs) (start_dir fs p) (split_str p).

Definition stat (fs : FS) (p : string) : option node :=
  match locate fs p with
  | Ok k => node_at (tree fs) k
  | Raise _ => None
  end.

(** [os.path.isdir], [os.path.isfile], [os.path.exists] *)
Definition isdir (fs : FS) (p : string) : bool := is_dir_node (stat fs p).
Definition isfile (fs : FS) (p : string) : bool := is_file_node (stat fs p).
Definition exists_ (fs : FS) (p : string) : bool :=
  match stat fs p with Some _ => true | None => false end.

(** [os.makedirs(name)] with [exist_ok=False]: the path is walked as by
    [walk], and every missing directory along it is created; [fresh]
    records whether the directory the path ends at was created by this
    call, and the call raises [FileExistsError] when it was there already.
    Directories created before a failure stay. *)
Fixpoint makedirs_walk (t : gmap (list string) node) (cur comps : list string)
    (fresh : bool) : gmap (list string) node * Res unit :=
  match comps with
  | [] => (t, if fresh then Ok tt else Raise FileExistsError)
  | c :: rest =>
      match node_at t cur with
      | Some Dir =>
          if bool_decide (c = "" ∨ c = ".") then makedirs_walk t cur rest fresh
          else if bool_decide (c = "..") then makedirs_walk t (removelast cur) rest false
          else
            let next := cur ++ [c] in
            match node_at t next with
            | None => makedirs_walk (<[next := Dir]> t) next rest true
            | Some Dir => makedirs_walk t next rest false
            | Some (File _) =>
                (t, Raise (if bool_decide (rest = []) then FileExistsError
                           else NotADirectoryError))
            end
      | Some (File _) => (t, Raise NotADirectoryError)
      | None => (t, Raise FileNotFoundError)
      end
  end.

Definition makedirs (name : string) (fs : FS) : FS * Res unit :=
  if is_empty name then (fs, Raise FileNotFoundError)
  else
    let '(t, r) := makedirs_walk (tree fs) (start_dir fs name) (split_str name) false in
    (mkFS t (cwd fs), r).

(** [os.remove(path)] *)
Definition remove (path : string) (fs : FS) : FS * Res unit :=
  match locate fs path with
  | Raise e => (fs, Raise e)
  | Ok k =>
      match node_at (tree fs) k with
      | Some (File _) => (mkFS (delete k (tree fs)) (cwd fs), Ok tt)
      | Some Dir => (fs, Raise IsADirectoryError)
      | None => (fs, Raise FileNotFoundError)
      end
  end.

(** The names in directory [d], in the order the tree lists them;
    directories only when [dironly]. *)
Definition listdir (t : gmap (list string) node) (d : list string)
    (dironly : bool) : list string :=
  omap (λ kn : list string * node,
          match child_name d kn.1 with
          | Some n => if dironly && negb (is_dir_node (Some kn.2)) then None else Some n
          | None => None
          end)
       (map_to_list t).

End os.

Module shutil.

(** The last component of a path that is not empty. *)
Definition last_component (path : string) : option string :=
  last (filter (λ c, c ≠ "") (posixpath.split_str path)).

(** [shutil.rmtree(path)], as CPython runs it on POSIX: the entries beneath
    the directory are removed through a descriptor of the directory, then
    [os.rmdir(path)] removes the directory itself.  That last call fails on
    a path whose last component is [.] ([OSError], errno 22) and on one
    whose last component is [..] (the directory that the path went through
    is gone by then: [FileNotFoundError]); the entries beneath have been
    removed and the directory stays.  Removing the root of the tree is
    outside the model. *)
Definition rmtree (path : string) (fs : FS) : FS * Res unit :=
  match os.locate fs path with
  | Raise e => (fs, Raise e)
  | Ok k =>
      match node_at (tree fs) k with
      | Some Dir =>
          if bool_decide (k = []) then (fs, Raise Unmodelled)
          else
            let emptied :=
              filter (λ kn : list string * node,
                        kn.1 = k ∨ strip_prefix k kn.1 = None) (tree fs) in
            if bool_decide (last_component path = Some ".")
            then (mkFS emptied (cwd fs), Raise (OSError 22))
            else if bool_decide (last_component path = Some "..")
            then (mkFS emptied (cwd fs), Raise FileNotFoundError)
            else
              (mkFS (filter (λ kn : list string * node,
                               strip_prefix k kn.1 = None) (tree fs)) (cwd fs),
               Ok tt)
      | Some (File _) => (fs, Raise NotADirectoryError)
      | None => (fs, Raise FileNotFoundError)
      end
  end.

End shutil.

Module io_.

(** Modelled from the spec: [autofile.io_.write_file], whose module is not
    part of the sources; the value's text is written to the path,
    overwriting any existing content. *)
Definition write_file (pth val_str : string) (fs : FS) : FS * Res unit :=
  match os.locate fs pth with
  | Raise e => (fs, Raise e)
  | Ok k =>
      match node_at (tree fs) k with
      | Some Dir => (fs, Raise IsADirectoryError)
      | _ => (mkFS (<[k := File val_str]> (tree fs)) (cwd fs), Ok tt)
      end
  end.

(** Modelled from the spec: [autofile.io_.read_file], whose module is not
    part of the sources; the text of the file at the path. *)
Definition read_file (pth : string) (fs : FS) : Res string :=
  match os.locate fs pth with
  | Raise e => Raise e
  | Ok k =>
      match node_at (tree fs) k with
      | Some (File s) => Ok s
      | Some Dir => Raise IsADirectoryError
      | None => Raise FileNotFoundError
      end
  end.

End io_.

Module glob.

Import posixpath.

Definition is_magic_char (c : ascii) : bool :=
  Ascii.eqb c "*"%char || Ascii.eqb c "?"%char || Ascii.eqb c "["%char.

(** [glob.has_magic(s)]: does [s] contain one of [*], [?], [[]? *)
Fixpoint has_magic (s : string) : bool :=
  match s with
  | EmptyString => false
  | String c r => is_magic_char c || has_magic r
  end.

(** [glob._ishidden(name)] *)
Definition ishidden (name : string) : bool :=
  match name with String c _ => Ascii.eqb c "."%char | EmptyString => false end.

(** [glob._listdir(dirname, dironly)]: the names in a directory, none
    when it cannot be listed; the empty name is the working directory. *)
Definition scandir (fs : FS) (dirname : string) (dironly : bool) : list string :=
  match (if is_empty dirname then Ok (cwd fs) else os.locate fs dirname) with
  | Ok k =>
      if is_dir_node (node_at (tree fs) k) then os.listdir (tree fs) k dironly
      else []
  | Raise _ => []
  end.

(** [glob._glob1(dirname, pattern, dironly)].  Of [fnmatch] only the
    pattern [*] is modelled, which matches every name; the names that
    start with a dot are dropped because the pattern does not. *)
Definition glob1 (fs : FS) (dirname pattern : string) (dironly : bool)
    : Res (list string) :=
  if bool_decide (pattern = "*")
  then Ok (filter (λ x, ishidden x = false) (scandir fs dirname dironly))
  else Raise Unmodelled.

(** [glob._glob0(dirname, basename, dironly)] *)
Definition glob0 (fs : FS) (dirname basename : string) : list string :=
  if is_empty basename
  then (if os.isdir fs dirname then [basename] else [])
  else if os.exists_ fs (if is_empty dirname then basename else join dirname [basename])
       then [basename] else [].

(** [glob._iglob(pathname, dironly)], non-recursive mode. *)
Fixpoint iglob (fuel : nat) (fs : FS) (pathname : string) (dironly : bool)
    : Res (list string) :=
  match fuel with
  | O => Raise RecursionError
  | S fuel =>
      let '(dirname, basename) := split pathname in
      if negb (has_magic pathname) then
        if negb (is_empty basename)
        then Ok (if os.exists_ fs pathname then [pathname] else [])
        else Ok (if os.isdir fs dirname then [pathname] else [])
      else if is_empty dirname then glob1 fs "" basename dironly
      else
        dirs ← (if bool_decide (dirname ≠ pathname) && has_magic dirname
                then iglob fuel fs dirname true
                else Ok [dirname]);
        found ← mapM (λ d,
                   names ← (if has_magic basename
                            then glob1 fs d basename dironly
                            else Ok (glob0 fs d basename));
                   Ok (map (λ n, join d [n]) names)) dirs;
        Ok (concat found)
  end.

(** [glob.glob(pathname)] *)
Definition glob (fs : FS) (pathname : string) : Res (list string) :=
  iglob (S (String.length pathname)) fs pathname false.

End glob.

(** [sorted] on strings: by code point, lexicographically. *)
Definition str_le (s1 s2 : string) : Prop := String.leb s1 s2 = true.

Global Instance str_le_dec : RelDecision str_le.
Proof. intros s1 s2. unfold str_le. apply _. Defined.

Definition sorted (l : list string) : list string := merge_sort str_le l.

(** ** Commands: functions that change the file tree *)

Record M (A : Type) : Type := mkM { run : FS → FS * Res A }.
Arguments mkM {A} _.
Arguments run {A} _ _.

Global Instance M_ret : MRet M := λ A a, mkM (λ fs, (fs, Ok a)).
Global Instance M_bind : MBind M := λ A B f m,
  mkM (λ fs, match run m fs with
             | (fs', Ok a) => run (f a) fs'
             | (fs', Raise e) => (fs', Raise e)
             end).

(** A computation that only inspects the tree. *)
Definition inspect {A} (f : FS → Res A) : M A := mkM (λ fs, (fs, f fs)).

Definition raise {A} (e : exn) : M A := mkM (λ fs, (fs, Raise e)).

Definition not_removable : exn := ValueError "This data series is not removable".

(** ** [class DataFile] *)

Module DataFile.

Record t (V : Type) : Type := mk {
  name : string;
  writer_ : V → string;
  reader_ : string → V;
  removable : bool
}.
Arguments mk {V} _ _ _ _.
Arguments name {V} _.
Arguments writer_ {V} _ _.
Arguments reader_ {V} _ _.
Arguments removable {V} _.

Section methods.
Context {V : Type}.

(** [DataFile(name, writer_, reader_)]: there is no [removable]
    parameter, the attribute is set to [False]. *)
Definition __init__ (name : string) (writer_ : V → string)
    (reader_ : string → V) : t V :=
  mk name writer_ reader_ false.

(** Assignment to the attribute [removable] of an existing object. *)
Definition set_removable (b : bool) (self : t V) : t V :=
  mk (name self) (writer_ self) (reader_ self) b.

Definition path (self : t V) (dir_pth : string) : string :=
  posixpath.join dir_pth [name self].

Definition exists_ (self : t V) (dir_pth : string) (fs : FS) : bool :=
  let pth := path self dir_pth in
  os.isfile fs pth.

Definition write (self : t V) (val : V) (dir_pth : string) : M unit :=
  _ ← inspect (λ fs, assert (os.exists_ fs dir_pth));
  let pth := path self dir_pth in
  let val_str := writer_ self val in
  mkM (io_.write_file pth val_str).

Definition read (self : t V) (dir_pth : string) (fs : FS) : Res V :=
  _ ← assert (exists_ self dir_pth fs);
  let pth := path self dir_pth in
  val_str ← io_.read_file pth fs;
  let val := reader_ self val_str in
  Ok val.

Definition remove (self : t V) (dir_pth : string) : M unit :=
  if removable self then
    let pth := path self dir_pth in
    mkM (os.remove pth)
  else raise not_removable.

End methods.

End DataFile.

(** ** Path helpers of the module *)

(** The loop of [_os_path_split_all]; [fuel] bounds its iterations. *)
Fixpoint split_all_loop (fuel : nat) (pth : string) (allparts : list string)
    : Res (list string) :=
  match fuel with
  | O => Raise RecursionError
  | S fuel =>
      let parts := posixpath.split pth in
      if bool_decide (parts.1 = pth) then Ok (parts.1 :: allparts)
      else if bool_decide (parts.2 = pth) then Ok (parts.2 :: allparts)
      else split_all_loop fuel parts.1 (parts.2 :: allparts)
  end.

Definition _os_path_split_all (pth : string) : Res (list string) :=
  split_all_loop (S (String.length pth)) pth [].

Definition _path_is_relative (fs : FS) (pth : string) : Res bool :=
  rel ← posixpath.relpath (cwd fs) pth;
  Ok (bool_decide (rel = pth)).

Definition _path_has_depth (pth : string) (depth : Z) : Res bool :=
  parts ← _os_path_split_all pth;
  Ok (bool_decide (Z.of_nat (length parts) = depth)).

(** [len(locs)] *)
Definition len {A} (l : list A) : Z := Z.of_nat (length l).

(** ** [class DataSeries] *)

Module DataSeries.

#[warnings="-register-all"]
Inductive t (Loc : Type) : Type := mk {
  prefix : string;
  map_ : list Loc → string;
  nlocs : Z;
  depth : Z;
  loc_dfile : option (DataFile.t (list Loc));
  root : option (t Loc);
  removable : bool
}.
Arguments mk {Loc} _ _ _ _ _ _ _.
Arguments prefix {Loc} _.
Arguments map_ {Loc} _ _.
Arguments nlocs {Loc} _.
Arguments depth {Loc} _.
Arguments loc_dfile {Loc} _.
Arguments root {Loc} _.
Arguments removable {Loc} _.

Section methods.
Context {Loc : Type}.

Definition __init__ (prefix : string) (map_ : list Loc → string)
    (nlocs depth : Z) (loc_dfile : option (DataFile.t (list Loc)))
    (root_ds : option (t Loc)) (removable : bool) (fs : FS) : Res (t Loc) :=
  _ ← assert (os.isdir fs prefix);
  Ok (mk (posixpath.abspath (cwd fs) prefix) map_ nlocs depth loc_dfile
         root_ds removable).

Definition _self_locators (self : t Loc) (locs : list Loc) : Res (list Loc) :=
  let nlocs_ := len locs in
  _ ← assert (bool_decide (nlocs_ >= nlocs self)%Z);
  let root_nlocs := (nlocs_ - nlocs self)%Z in
  Ok (drop (Z.to_nat root_nlocs) locs).

Definition _root_locators (self : t Loc) (locs : list Loc) : Res (list Loc) :=
  let nlocs_ := len locs in
  _ ← assert (bool_decide (nlocs_ >= nlocs self)%Z);
  let root_nlocs := (nlocs_ - nlocs self)%Z in
  Ok (take (Z.to_nat root_nlocs) locs).

Fixpoint root_locator_count (self : t Loc) : Z :=
  match self with
  | mk _ _ _ _ _ None _ => 0
  | mk _ _ _ _ _ (Some r) _ => nlocs r + root_locator_count r
  end.

Fixpoint path (self : t Loc) (locs : list Loc) (fs : FS) : Res string :=
  '(prefix_, locs) ←
    match self with
    | mk prefix_ _ _ _ _ None _ => Ok (prefix_, locs)
    | mk _ _ _ _ _ (Some r) _ =>
        root_locs ← _root_locators self locs;
        locs ← _self_locators self locs;
        prefix_ ← path r root_locs fs;
        Ok (prefix_, locs)
    end;
  _ ← assert (bool_decide (len locs = nlocs self));
  let pth := map_ self locs in
  rel ← _path_is_relative fs pth;
  _ ← assert rel;
  dep ← _path_has_depth pth (depth self);
  _ ← assert dep;
  Ok (posixpath.join prefix_ [pth]).

Definition exists_ (self : t Loc) (locs : list Loc) (fs : FS) : Res bool :=
  pth ← path self locs fs;
  Ok (os.isdir fs pth).

Definition remove (self : t Loc) (locs : list Loc) : M unit :=
  if removable self then
    pth ← inspect (path self locs);
    ex ← inspect (exists_ self locs);
    if ex : bool then mkM (shutil.rmtree pth) else mret tt
  else raise not_removable.

Fixpoint create (self : t Loc) (locs : list Loc) : M unit :=
  _ ← match self with
      | mk _ _ _ _ _ None _ => mret tt
      | mk _ _ _ _ _ (Some r) _ =>
          root_locs ← inspect (λ _, _root_locators self locs);
          create r root_locs
      end;
  ex ← inspect (exists_ self locs);
  if negb ex then
    pth ← inspect (path self locs);
    _ ← mkM (os.makedirs pth);
    match loc_dfile self with
    | Some df =>
        locs ← inspect (λ _, _self_locators self locs);
        DataFile.write df locs pth
    | None => mret tt
    end
  else mret tt.

Definition _existing_paths (self : t Loc) (root_locs : list Loc) (fs : FS)
    : Res (list string) :=
  prefix_ ← match root self with
            | None => Ok (prefix self)
            | Some r => path r root_locs fs
            end;
  let pth_pattern :=
    posixpath.join prefix_ (replicate (Z.to_nat (depth self)) "*") in
  found ← glob.glob fs pth_pattern;
  let pths := filter (λ p, os.isdir fs p = true) found in
  Ok (sorted (map (λ pth, posixpath.join prefix_ [pth]) pths)).

(** [existing(root_locs, relative)].  The method calls itself and its
    root; [fuel] bounds the depth of these calls. *)
Fixpoint existing (fuel : nat) (self : t Loc) (root_locs : list Loc)
    (relative : bool) (fs : FS) : Res (list (list Loc)) :=
  if bool_decide (nlocs self = 0%Z) then
    ex ← exists_ self [] fs;
    Ok (if ex : bool then [[]] else [])
  else
    _ ← assert (bool_decide (nlocs self > 0)%Z);
    match loc_dfile self with
    | None => Raise (ValueError "This function does not work without a locator DataFile")
    | Some df =>
        let root_nlocs := root_locator_count self in
        if bool_decide (len root_locs < root_nlocs)%Z then
          match fuel with
          | O => Raise RecursionError
          | S fuel =>
              match root self with
              | None => Raise AttributeError
              | Some r =>
                  roots ← existing fuel r root_locs false fs;
                  found ← mapM (λ root_locs_, existing fuel self root_locs_ false fs) roots;
                  Ok (concat found)
              end
          end
        else
          _ ← assert (bool_decide (root_nlocs = len root_locs));
          pths ← _existing_paths self root_locs fs;
          locs_lst ← mapM (λ pth, DataFile.read df pth fs)
                          (filter (λ pth, DataFile.exists_ df pth fs = true) pths);
          Ok (if relative then locs_lst else map (app root_locs) locs_lst)
    end.

End methods.

End DataSeries.

(** ** [class DataSeriesFile] *)

Module DataSeriesFile.

Record t (Loc V : Type) : Type := mk {
  dir : DataSeries.t Loc;
  file : DataFile.t V;
  removable : bool
}.
Arguments mk {Loc V} _ _ _.
Arguments dir {Loc V} _.
Arguments file {Loc V} _.
Arguments removable {Loc V} _.

Section methods.
Context {Loc V : Type}.

Definition __init__ (ds : DataSeries.t Loc) (dfile : DataFile.t V) : t Loc V :=
  mk ds dfile false.

Definition path (self : t Loc V) (locs : list Loc) (fs : FS) : Res string :=
  dir_pth ← DataSeries.path (dir self) locs fs;
  Ok (DataFile.path (file self) dir_pth).

Definition exists_ (self : t Loc V) (locs : list Loc) (fs : FS) : Res bool :=
  dir_pth ← DataSeries.path (dir self) locs fs;
  Ok (DataFile.exists_ (file self) dir_pth fs).

Definition write (self : t Loc V) (val : V) (locs : list Loc) : M unit :=
  dir_pth ← inspect (DataSeries.path (dir self) locs);
  DataFile.write (file self) val dir_pth.

Definition read (self : t Loc V) (locs : list Loc) (fs : FS) : Res V :=
  dir_pth ← DataSeries.path (dir self) locs fs;
  DataFile.read (file self) dir_pth fs.

Definition remove (self : t Loc V) (locs : list Loc) : M unit :=
  if removable self then
    pth ← inspect (path self locs);
    mkM (os.remove pth)
  else raise not_removable.

End methods.

End DataSeriesFile.

(** ** Names and directories as the series lays them out *)

(** No slash occurs in [s]. *)
Fixpoint no_sep (s : string) : bool :=
  match s with
  | EmptyString => true
  | String c r => negb (posixpath.is_sep c) && no_sep r
  end.

(** A name that an entry of a directory can have. *)
Definition is_name (s : string) : bool :=
  negb (posixpath.is_empty s) && no_sep s
  && negb (bool_decide (s = "." ∨ s = "..")).

(** A name that the pattern [*] of [glob] matches: it does not start with
    a dot. *)
Definition visible (s : string) : bool :=
  negb (posixpath.is_empty s) && no_sep s && negb (glob.ishidden s).

(** A relative path of exactly [d] visible names joined by slashes. *)
Definition visible_path (pth : string) (d : Z) : bool :=
  bool_decide (len (posixpath.split_str pth) = d)
  && forallb visible (posixpath.split_str pth).

(** A relative path of exactly [d] names joined by slashes, none of them
    [.] or [..]. *)
Definition names_path (pth : string) (d : Z) : bool :=
  bool_decide (len (posixpath.split_str pth) = d)
  && forallb is_name (posixpath.split_str pth).

(** A path to a directory in the form that [os.path.abspath] and
    [os.path.join] return: not empty, and without a slash at its end unless
    it consists of slashes. *)
Definition good_dir (p : string) : bool :=
  negb (posixpath.is_empty p)
  && (posixpath.all_sep p || negb (posixpath.endswith_sep p)).

(** No entry of the tree lies strictly beneath [d]. *)
Definition nothing_below (t : gmap (list string) node) (d : list string) : Prop :=
  map_Forall (λ k _, match strip_prefix d k with
                     | Some (_ :: _) => False
                     | _ => True
                     end) t.

Global Instance nothing_below_dec t d : Decision (nothing_below t d).
Proof.
  unfold nothing_below. apply map_Forall_dec. intros k _.
  destruct (strip_prefix d k) as [[|? ?]|]; apply _.
Defined.

(** A directory fit to hold a series: named by an absolute path in the
    form of [good_dir], without a character that [glob] reads as a pattern,
    present in the tree, and with nothing beneath it. *)
Definition fresh_dir (fs : FS) (p : string) : Prop :=
  good_dir p = true ∧ posixpath.isabs p = true ∧ glob.has_magic p = false ∧
  ∃ K, os.locate fs p = Ok K ∧ node_at (tree fs) K = Some Dir ∧
       nothing_below (tree fs) K.

(** Directories are never lost from [t] to [t']. *)
Definition dirs_kept (t t' : gmap (list string) node) : Prop :=
  ∀ k, node_at t k = Some Dir → node_at t' k = Some Dir.

(** ** The path as the specification words it

    The root's path on [locators[: len(locators) - nlocs]], the map on
    [locators[len(locators) - nlocs :]] with its two checks, and the join;
    the series' own prefix when there is no root. *)
Definition path_spec {Loc} (self : DataSeries.t Loc) (locs : list Loc) (fs : FS)
    : Res string :=
  let root_nlocs := Z.to_nat (len locs - DataSeries.nlocs self) in
  prefix_ ← match DataSeries.root self with
            | None => Ok (DataSeries.prefix self)
            | Some r => DataSeries.path r (take root_nlocs locs) fs
            end;
  let pth := DataSeries.map_ self (drop root_nlocs locs) in
  rel ← _path_is_relative fs pth;
  _ ← assert rel;
  dep ← _path_has_depth pth (DataSeries.depth self);
  _ ← assert dep;
  Ok (posixpath.join prefix_ [pth]).

(** The series that the constructor builds, over roots built the same way. *)
Inductive built {Loc} : DataSeries.t Loc → Prop :=
  | built_init prefix map_ nlocs depth loc_dfile root_ds removable fs ds :
      (∀ r, root_ds = Some r → built r) →
      DataSeries.__init__ prefix map_ nlocs depth loc_dfile root_ds removable fs = Ok ds →
      built ds.

(** ** A locator tuple along the root chain *)

Section chain.
Context {Loc : Type}.

(** [locators[len(locators) - nlocs :]]: the locators of the series' own. *)
Definition own_locs (a : DataSeries.t Loc) (R : list Loc) : list Loc :=
  drop (Z.to_nat (len R - DataSeries.nlocs a)) R.

(** [locators[: len(locators) - nlocs]]: the locators of the root chain. *)
Definition root_locs (a : DataSeries.t Loc) (R : list Loc) : list Loc :=
  take (Z.to_nat (len R - DataSeries.nlocs a)) R.

(** The names of the series' own directories for a tuple. *)
Definition own_segs (a : DataSeries.t Loc) (R : list Loc) : list string :=
  posixpath.split_str (DataSeries.map_ a (own_locs a R)).

(** The prefix of the outermost series of the chain. *)
Fixpoint chain_prefix (a : DataSeries.t Loc) : string :=
  match DataSeries.root a with
  | None => DataSeries.prefix a
  | Some r => chain_prefix r
  end.

(** The number of series in the chain above [a]. *)
Fixpoint chain_height (a : DataSeries.t Loc) : nat :=
  match DataSeries.root a with
  | None => O
  | Some r => S (chain_height r)
  end.

(** The depth of the chain in directories. *)
Fixpoint chain_depth (a : DataSeries.t Loc) : nat :=
  match DataSeries.root a with
  | None => O
  | Some r => chain_depth r
  end + Z.to_nat (DataSeries.depth a).

(** The names of all directories from the outermost prefix down to the
    directory of the tuple. *)
Fixpoint chain_segs (a : DataSeries.t Loc) (R : list Loc) : list string :=
  match DataSeries.root a with
  | None => []
  | Some r => chain_segs r (root_locs a R)
  end ++ own_segs a R.

(** The path of the tuple, as [path] joins it. *)
Fixpoint chain_path (a : DataSeries.t Loc) (R : list Loc) : string :=
  posixpath.join2
    match DataSeries.root a with
    | None => DataSeries.prefix a
    | Some r => chain_path r (root_locs a R)
    end
    (DataSeries.map_ a (own_locs a R)).

(** The locator files along the chain of the tuple: where each lies
    beneath the outermost prefix, and what it holds. *)
Fixpoint chain_files (a : DataSeries.t Loc) (R : list Loc)
    : list (list string * string) :=
  match DataSeries.root a with
  | None => []
  | Some r => chain_files r (root_locs a R)
  end ++
  match DataSeries.loc_dfile a with
  | Some df => [(chain_segs a R ++ [DataFile.name df],
                 DataFile.writer_ df (own_locs a R))]
  | None => []
  end.

(** The locator file of the series itself for a tuple, if the series keeps
    one: where it lies beneath the outermost prefix, and what it holds. *)
Definition own_file (a : DataSeries.t Loc) (R : list Loc)
    : list (list string * string) :=
  match DataSeries.loc_dfile a with
  | Some df => [(chain_segs a R ++ [DataFile.name df],
                 DataFile.writer_ df (own_locs a R))]
  | None => []
  end.

(** Every series of the chain lays out directories; one that takes
    locators keeps a locator file, and a locator file has a plain name; the
    series that take no locators are the outermost ones of the chain, and
    the map of each sends the empty tuple to [depth] names without a pattern
    character of [glob]. *)
Fixpoint chain_ok (a : DataSeries.t Loc) : Prop :=
  (0 ≤ DataSeries.nlocs a)%Z ∧ (DataSeries.depth a > 0)%Z ∧
  match DataSeries.loc_dfile a with
  | Some df => is_name (DataFile.name df) = true
  | None => DataSeries.nlocs a = 0%Z
  end ∧
  (DataSeries.nlocs a = 0%Z →
   DataSeries.root_locator_count a = 0%Z ∧
   names_path (DataSeries.map_ a []) (DataSeries.depth a) = true ∧
   glob.has_magic (DataSeries.map_ a []) = false) ∧
  match DataSeries.root a with
  | None => True
  | Some r => chain_ok r
  end.

(** A tuple that the chain lays out well: it has a locator for every
    locator slot of the chain; at every level the map sends the level's own
    locators to [depth] names, which are visible where the level takes
    locators, and the reader of the locator file of such a level decodes
    what its writer encodes for them; the names above the innermost level
    hold no character that [glob] reads as a pattern. *)
Fixpoint laid_out (a : DataSeries.t Loc) (R : list Loc) : Prop :=
  len R = (DataSeries.nlocs a + DataSeries.root_locator_count a)%Z ∧
  (if bool_decide (DataSeries.nlocs a = 0%Z) then names_path else visible_path)
    (DataSeries.map_ a (own_locs a R)) (DataSeries.depth a) = true ∧
  match DataSeries.loc_dfile a with
  | Some df =>
      DataSeries.nlocs a = 0%Z ∨
      DataFile.reader_ df (DataFile.writer_ df (own_locs a R)) = own_locs a R
  | None => True
  end ∧
  match DataSeries.root a with
  | None => True
  | Some r =>
      glob.has_magic (DataSeries.map_ r (own_locs r (root_locs a R))) = false ∧
      laid_out r (root_locs a R)
  end.

(** At every level of the chain, the two tuples lie in different
    directories unless they are the same down to that level. *)
Fixpoint apart (a : DataSeries.t Loc) (R R' : list Loc) : Prop :=
  (chain_segs a R = chain_segs a R' → R = R') ∧
  match DataSeries.root a with
  | None => True
  | Some r => apart r (root_locs a R) (root_locs a R')
  end.

End chain.

(** ** The scenario of the specification

    A tree holding the directories [/tmp/x] and [/home/u], a process
    working in [/home/u], and series over it. *)

Module Scenario.

Definition fs0 : FS :=
  mkFS (list_to_map [(["tmp"], Dir); (["tmp"; "x"], Dir);
                     (["home"], Dir); (["home"; "u"], Dir)])
       ["home"; "u"].

(** [map_((a, b)) = "{a}/{b}"] on integers. *)
Definition map_ab (locs : list Z) : string :=
  match locs with
  | [a; b] => pretty a +:+ "/" +:+ pretty b
  | _ => ""
  end.

(** The series of the scenario: [prefix=/tmp/x], [nlocs=2], [depth=2]. *)
Definition series : DataSeries.t Z :=
  DataSeries.mk "/tmp/x" map_ab 2 2 None None false.

Definition info : DataFile.t string :=
  DataFile.__init__ "info.txt" (λ s, s) (λ s, s).

(** Locators that are strings; the locator file holds them joined by
    slashes. *)
Definition loc_writer (locs : list string) : string := posixpath.join_str locs.
Definition loc_reader (s : string) : list string := posixpath.split_str s.

Definition loc_dfile : DataFile.t (list string) :=
  DataFile.__init__ "loc.txt" loc_writer loc_reader.

(** [map_((a,)) = "{a}"] *)
Definition map_a (locs : list string) : string :=
  match locs with
  | [a] => a
  | _ => ""
  end.

(** A two-level chain: root and child with one locator each. *)
Definition parent : DataSeries.t string :=
  DataSeries.mk "/tmp/x" map_a 1 1 (Some loc_dfile) None false.
Definition child : DataSeries.t string :=
  DataSeries.mk "/tmp/x" map_a 1 1 (Some loc_dfile) (Some parent) false.

(** A series that takes no locators and lays out the one directory [run],
    and a series with one locator above which it stands. *)
Definition trunk : DataSeries.t string :=
  DataSeries.mk "/tmp/x" (λ _, "run") 0 1 None None false.
Definition leaf : DataSeries.t string :=
  DataSeries.mk "/tmp/x" map_a 1 1 (Some loc_dfile) (Some trunk) false.

(** A series whose map sends every locator tuple to the same directory. *)
Definition constant : DataSeries.t string :=
  DataSeries.mk "/tmp/x" (λ _, "all") 1 1 (Some loc_dfile) None false.

End Scenario.

(** The tree after [create] for each of the given locator tuples in turn,
    with the outcome of the last call that ran. *)
Fixpoint create_all {Loc} (ds : DataSeries.t Loc) (l : list (list Loc)) : M unit :=
  match l with
  | [] => mret tt
  | locs :: l => _ ← DataSeries.create ds locs; create_all ds l
  end.

(** * Notions for the properties

    Parts of the methods taken on their own, and what a file tree holds for
    the tuples of a series. *)

(** The part of [path] after the prefix has been resolved. *)
Definition path_own {Loc} (self : DataSeries.t Loc) (prefix_ : string)
    (locs : list Loc) (fs : FS) : Res string :=
  _ ← assert (bool_decide (len locs = DataSeries.nlocs self));
  let pth := DataSeries.map_ self locs in
  rel ← _path_is_relative fs pth;
  _ ← assert rel;
  dep ← _path_has_depth pth (DataSeries.depth self);
  _ ← assert dep;
  Ok (posixpath.join prefix_ [pth]).

(** The part of [create] after the root chain has been created. *)
Definition create_own {Loc} (self : DataSeries.t Loc) (locs : list Loc) : M unit :=
  ex ← inspect (DataSeries.exists_ self locs);
  if negb ex then
    pth ← inspect (DataSeries.path self locs);
    _ ← mkM (os.makedirs pth);
    match DataSeries.loc_dfile self with
    | Some df =>
        locs ← inspect (λ _, DataSeries._self_locators self locs);
        DataFile.write df locs pth
    | None => mret tt
    end
  else mret tt.

(** The directory of a locator tuple and those of its roots all exist. *)
Fixpoint chain_exists {Loc} (self : DataSeries.t Loc) (locs : list Loc) (fs : FS)
    : Prop :=
  DataSeries.exists_ self locs fs = Ok true ∧
  match self with
  | DataSeries.mk _ _ _ _ _ None _ => True
  | DataSeries.mk _ _ _ _ _ (Some r) _ =>
      ∃ root_locs, DataSeries._root_locators self locs = Ok root_locs ∧
                   chain_exists r root_locs fs
  end.

(** The chains of [d] names beneath [K] that [glob] follows for [d] stars:
    no name starts with a dot, every name but the last is a directory, and
    so is the last when only directories are asked for. *)
Fixpoint levels (t : gmap (list string) node) (K : list string) (d : nat)
    (dironly : bool) : list (list string) :=
  match d with
  | O => [[]]
  | S d' =>
      names ← levels t K d' true;
      (λ n, names ++ [n]) <$>
        filter (λ x, glob.ishidden x = false) (os.listdir t (K ++ names) dironly)
  end.

(** Every entry beneath [K] is reached through names. *)
Definition names_ok (t : gmap (list string) node) (K : list string) : Prop :=
  ∀ r, is_Some (t !! (K ++ r)) → Forall (λ s, is_name s = true) r.

(** The value that [read] yields, when it yields one. *)
Definition read_value {V} (df : DataFile.t V) (fs : FS) (pth : string) : V :=
  match DataFile.read df pth fs with
  | Ok v => v
  | Raise _ => DataFile.reader_ df ""
  end.

(** ** The tree beneath the outermost prefix [K] of a chain *)

Section tree_of_chain.
Context {Loc : Type} (K : list string).
Implicit Types (a : DataSeries.t Loc) (R : list Loc) (Rs Ts : list (list Loc)).
Implicit Types (t : gmap (list string) node).

(** The directories of a tuple are there. *)
Definition dirs_to a R t : Prop :=
  ∀ i, (0 < i ≤ length (chain_segs a R))%nat →
       node_at t (K ++ take i (chain_segs a R)) = Some Dir.

(** The locator files of a tuple are there. *)
Definition files_at a R t : Prop :=
  ∀ r c, (r, c) ∈ chain_files a R → t !! (K ++ r) = Some (File c).

(** Where a directory of the tuple is there, at any level of the chain, it
    is there with all above it and with the locator files. *)
Fixpoint complete a R t : Prop :=
  (node_at t (K ++ chain_segs a R) = Some Dir → dirs_to a R t ∧ files_at a R t) ∧
  match DataSeries.root a with
  | None => True
  | Some r => complete r (root_locs a R) t
  end.

(** What the scan of [existing] relies on: the tuples of [Rs] are laid out
    in the tree with their locator files, no two of them share a directory
    at any level without being the same down to that level, and every
    directory down to the depth of the chain belongs to one of them. *)
Definition view a Rs (fs : FS) : Prop :=
  (∀ R, R ∈ Rs →
        laid_out a R ∧ dirs_to a R (tree fs) ∧ files_at a R (tree fs) ∧
        DataSeries.path a R fs = Ok (chain_path a R)) ∧
  (∀ R R', R ∈ Rs → R' ∈ Rs → apart a R R') ∧
  (∀ x, x ≠ [] → (length x ≤ chain_depth a)%nat →
        node_at (tree fs) (K ++ x) = Some Dir →
        ∃ R, R ∈ Rs ∧ x = take (length x) (chain_segs a R)).

(** The tree after [create] for the tuples of [Ts]. *)
Definition made a Ts (fs : FS) : Prop :=
  os.locate fs (chain_prefix a) = Ok K ∧ node_at (tree fs) K = Some Dir ∧
  names_ok (tree fs) K ∧ view a Ts fs.

End tree_of_chain.


(** ** Notions for the further properties *)

(** A component of a path: not empty, without a slash. *)
Definition part (s : string) : bool := negb (posixpath.is_empty s) && no_sep s.

(** A tuple that [path] accepts: it has a locator for every series of the
    chain and, at every level, the map sends the level's own locators to
    [depth] names. *)
Fixpoint well_mapped {Loc} (a : DataSeries.t Loc) (R : list Loc) : Prop :=
  (0 ≤ DataSeries.nlocs a)%Z ∧
  len R = (DataSeries.nlocs a + DataSeries.root_locator_count a)%Z ∧
  names_path (DataSeries.map_ a (own_locs a R)) (DataSeries.depth a) = true ∧
  match DataSeries.root a with
  | None => True
  | Some r => well_mapped r (root_locs a R)
  end.

(** Every entry of the tree lies in a directory of the tree. *)
Definition parent_closed (t : gmap (list string) node) : Prop :=
  map_Forall (λ k _, node_at t (removelast k) = Some Dir) t.

Global Instance parent_closed_dec t : Decision (parent_closed t).
Proof. unfold parent_closed. apply map_Forall_dec. intros k _. apply _. Defined.

(** Every locator file of the chain has a plain name. *)
Fixpoint plain_locator_files {Loc} (a : DataSeries.t Loc) : Prop :=
  match DataSeries.loc_dfile a with
  | Some df => is_name (DataFile.name df) = true
  | None => True
  end ∧
  match DataSeries.root a with
  | None => True
  | Some r => plain_locator_files r
  end.

(** No directory of the tuple is named like the locator file of the
    directory it lies in: at every level below the outermost, the first name
    that the map yields differs from the name of the root's locator file. *)
Fixpoint no_clash {Loc} (a : DataSeries.t Loc) (R : list Loc) : Prop :=
  match DataSeries.root a with
  | None => True
  | Some r =>
      match DataSeries.loc_dfile r with
      | Some df => hd "" (own_segs a R) ≠ DataFile.name df
      | None => True
      end ∧ no_clash r (root_locs a R)
  end.

(** Every entry beneath [K] is a directory or a locator file of one of the
    tuples. *)
Definition known {Loc} (K : list string) (a : DataSeries.t Loc)
    (Ts : list (list Loc)) (t : gmap (list string) node) : Prop :=
  ∀ x nd, x ≠ [] → t !! (K ++ x) = Some nd →
    ∃ R, R ∈ Ts ∧
         ((nd = Dir ∧ (length x ≤ chain_depth a)%nat ∧
           x = take (length x) (chain_segs a R)) ∨
          (∃ c, nd = File c ∧ (x, c) ∈ chain_files a R)).
(** * Properties *)

(** ** Removal guards *)

(** C9: the constructor of [DataFile] takes a name, a writer and a reader,
    and sets [removable] to [False]; [remove] on a freshly constructed
    [DataFile] raises the guard error for every directory and leaves the
    tree as it is.  Only after the attribute has been set to [True] does
    [remove] reach [os.remove]. *)
Theorem DataFile_fresh_not_removable {V} (name : string) (writer_ : V → string)
    (reader_ : string → V) :
  let df := DataFile.__init__ name writer_ reader_ in
  DataFile.removable df = false ∧
  (∀ dir_pth fs, run (DataFile.remove df dir_pth) fs = (fs, Raise not_removable)) ∧
  (∀ dir_pth fs, run (DataFile.remove (DataFile.set_removable true df) dir_pth) fs
                 = os.remove (DataFile.path df dir_pth) fs).
Proof. by split_and!. Qed.

(** C6: [remove] on a [DataFile], a [DataSeries] or a [DataSeriesFile] whose
    [removable] flag is [False] raises the guard error, whatever the
    directory or the locators, and the file tree after the call is the tree
    before it. *)
Theorem remove_guard {Loc V} (df : DataFile.t V) (ds : DataSeries.t Loc)
    (dsf : DataSeriesFile.t Loc V) (dir_pth : string) (locs : list Loc) (fs : FS) :
  (DataFile.removable df = false →
     run (DataFile.remove df dir_pth) fs = (fs, Raise not_removable)) ∧
  (DataSeries.removable ds = false →
     run (DataSeries.remove ds locs) fs = (fs, Raise not_removable)) ∧
  (DataSeriesFile.removable dsf = false →
     run (DataSeriesFile.remove dsf locs) fs = (fs, Raise not_removable)).
Proof.
  split_and!; intros Hflag.
  - unfold DataFile.remove. by rewrite Hflag.
  - unfold DataSeries.remove. by rewrite Hflag.
  - unfold DataSeriesFile.remove. by rewrite Hflag.
Qed.

Lemma remove_guard_witness :
  run (DataFile.remove Scenario.info "/tmp/x") Scenario.fs0
    = (Scenario.fs0, Raise not_removable) ∧
  run (DataSeries.remove Scenario.series [1; 2]%Z) Scenario.fs0
    = (Scenario.fs0, Raise not_removable) ∧
  run (DataSeriesFile.remove
         (DataSeriesFile.__init__ Scenario.series Scenario.info) [1; 2]%Z)
      Scenario.fs0
    = (Scenario.fs0, Raise not_removable).
Proof.
  destruct (remove_guard Scenario.info Scenario.series
              (DataSeriesFile.__init__ Scenario.series Scenario.info)
              "/tmp/x" [1; 2]%Z Scenario.fs0) as (H1 & H2 & H3).
  split_and!; [apply H1 | apply H2 | apply H3]; reflexivity.
Defined.

(** C7: on a series with [nlocs > 0] and no locator file, [existing] raises
    the [ValueError] of the missing locator [DataFile], for every root
    locator prefix, either value of [relative], every file tree and every
    call depth: the outcome does not depend on the tree. *)
Theorem existing_without_loc_dfile {Loc} (fuel : nat) (self : DataSeries.t Loc)
    (root_locs : list Loc) (relative : bool) (fs : FS) :
  (DataSeries.nlocs self > 0)%Z →
  DataSeries.loc_dfile self = None →
  DataSeries.existing fuel self root_locs relative fs
  = Raise (ValueError "This function does not work without a locator DataFile").
Proof.
  intros Hpos Hnone.
  destruct fuel; simpl; rewrite Hnone;
    rewrite bool_decide_eq_false_2 by lia;
    by rewrite bool_decide_eq_true_2 by lia.
Qed.

Lemma existing_without_loc_dfile_witness :
  DataSeries.existing 0
    Scenario.series [] true Scenario.fs0
  = Raise (ValueError "This function does not work without a locator DataFile").
Proof.
  apply (existing_without_loc_dfile 0 Scenario.series [] true Scenario.fs0);
    reflexivity.
Defined.

(** C8 fails as stated: a [DataFile] whose [removable] attribute has been
    set to [True] is paired into a [DataSeriesFile] whose own flag is
    [False]. *)
Lemma DataSeriesFile_flag_differs :
  let dfile := DataFile.set_removable true Scenario.info in
  DataSeriesFile.removable (DataSeriesFile.__init__ Scenario.series dfile)
  ≠ DataFile.removable dfile.
Proof. simpl. discriminate. Qed.

(** C8, amended: a [DataSeriesFile] has a [removable] flag of its own, which
    its constructor sets to [False] whatever the flag of the [DataFile] is;
    [remove] consults this flag only, so on a constructed pairing it raises
    the guard error and leaves the tree as it is; the two flags agree
    exactly when the flag of the [DataFile] is [False]. *)
Theorem DataSeriesFile_own_flag {Loc V} (ds : DataSeries.t Loc) (dfile : DataFile.t V) :
  let dsf := DataSeriesFile.__init__ ds dfile in
  DataSeriesFile.removable dsf = false ∧
  (∀ locs fs, run (DataSeriesFile.remove dsf locs) fs = (fs, Raise not_removable)) ∧
  (DataSeriesFile.removable dsf = DataFile.removable dfile
   ↔ DataFile.removable dfile = false).
Proof. simpl. split_and!; [done | done | split; congruence]. Qed.

(** ** Path resolution *)

Lemma len_drop_tail {A} (l : list A) (n : Z) :
  (0 ≤ n ≤ len l)%Z → len (drop (Z.to_nat (len l - n)) l) = n.
Proof. unfold len. rewrite length_drop. lia. Qed.

(** C2 fails as stated: the series of the scenario has no root and takes two
    locators; on a tuple of three, which is long enough for the claim, the
    code fails its length assertion, where the claim has the map applied to
    the last two. *)
Lemma path_rejects_long_tuple :
  (len [0; 1; 2]%Z >= DataSeries.nlocs Scenario.series
                     + DataSeries.root_locator_count Scenario.series)%Z ∧
  DataSeries.path Scenario.series [0; 1; 2]%Z Scenario.fs0 = Raise AssertionError ∧
  path_spec Scenario.series [0; 1; 2]%Z Scenario.fs0 = Ok "/tmp/x/1/2".
Proof. split_and!; [by vm_compute | by vm_compute | by vm_compute]. Qed.

(** C2, amended: on a series with a root and a tuple of at least [nlocs]
    locators, [path] is the root's path on the leading
    [len(locators) - nlocs] locators joined with the checked map of the
    trailing [nlocs]; on a series without a root the tuple must have exactly
    [nlocs] locators, the prefix is the series' own and the map is applied
    to the whole tuple; any other length fails the length assertion.  In the
    scenario, [path((1, 2))] is [/tmp/x/1/2]. *)
Theorem path_resolution {Loc} (self : DataSeries.t Loc) (locs : list Loc) (fs : FS) :
  (is_Some (DataSeries.root self) →
   (0 ≤ DataSeries.nlocs self ≤ len locs)%Z →
   DataSeries.path self locs fs = path_spec self locs fs) ∧
  (DataSeries.root self = None →
   len locs = DataSeries.nlocs self →
   DataSeries.path self locs fs = path_spec self locs fs) ∧
  (DataSeries.root self = None →
   len locs ≠ DataSeries.nlocs self →
   DataSeries.path self locs fs = Raise AssertionError) ∧
  DataSeries.path Scenario.series [1; 2]%Z Scenario.fs0 = Ok "/tmp/x/1/2".
Proof.
  destruct self as [prefix_ map_ n d ldf [r|] rm]; split_and!;
    try (by intros [? [=]]); try (by intros [=]); try by vm_compute.
  - intros _ Hn. unfold path_spec. simpl in *.
    unfold DataSeries._root_locators, DataSeries._self_locators. simpl.
    rewrite bool_decide_eq_true_2 by lia. simpl.
    destruct (DataSeries.path r _ fs) as [pre|e]; [simpl|done].
    rewrite len_drop_tail by done.
    by rewrite bool_decide_eq_true_2.
  - intros _ Hn. unfold path_spec. simpl in *.
    rewrite bool_decide_eq_true_2 by done. simpl.
    by replace (len locs - n)%Z with 0%Z by lia.
  - intros _ Hn. simpl in *. by rewrite bool_decide_eq_false_2.
Qed.

Lemma path_resolution_witness :
  DataSeries.path Scenario.child ["1"; "a"] Scenario.fs0
    = path_spec Scenario.child ["1"; "a"] Scenario.fs0 ∧
  DataSeries.path Scenario.parent ["1"] Scenario.fs0
    = path_spec Scenario.parent ["1"] Scenario.fs0 ∧
  DataSeries.path Scenario.parent ["1"; "a"] Scenario.fs0 = Raise AssertionError.
Proof.
  split_and!.
  - destruct (path_resolution Scenario.child ["1"; "a"] Scenario.fs0) as (H & _).
    apply H; [by eexists | by vm_compute].
  - destruct (path_resolution Scenario.parent ["1"] Scenario.fs0) as (_ & H & _).
    apply H; reflexivity.
  - destruct (path_resolution Scenario.parent ["1"; "a"] Scenario.fs0) as (_ & _ & H & _).
    apply H; [reflexivity | by vm_compute].
Defined.

(** ** Absolute prefixes *)

Section absolute.
Import posixpath.

Lemma isabs_app (a b : string) : isabs a = true → isabs (a +:+ b) = true.
Proof. by destruct a. Qed.

Lemma isabs_join2 (a b : string) : isabs a = true → isabs (join2 a b) = true.
Proof.
  intros Ha. unfold join2.
  destruct (startswith_sep b) eqn:Hb; [done|].
  destruct (is_empty a || endswith_sep a); by apply isabs_app.
Qed.

Lemma isabs_join (a : string) (p : list string) :
  isabs a = true → isabs (join a p) = true.
Proof.
  revert a. induction p as [|b p IH]; intros a Ha; [done|].
  apply IH. by apply isabs_join2.
Qed.

Lemma initial_slashes_abs (p : string) : isabs p = true → initial_slashes p ≠ 0.
Proof.
  destruct p as [|c1 [|c2 [|c3 p]]]; simpl; intros H; try done;
    unfold isabs, startswith_sep in H; rewrite H; repeat case_match; done.
Qed.

Lemma isabs_normpath (p : string) : isabs p = true → isabs (normpath p) = true.
Proof.
  intros Hp. unfold normpath.
  destruct p as [|c p]; [done|]. cbn [is_empty]. cbv zeta.
  generalize (initial_slashes_abs _ Hp).
  generalize (initial_slashes (String c p)). intros [|n] Hn; [done|].
  set (X := join_str _). by clearbody X.
Qed.

Lemma isabs_abspath (cwd_ : list string) (p : string) :
  isabs (abspath cwd_ p) = true.
Proof.
  unfold abspath. apply isabs_normpath.
  destruct (isabs p) eqn:Hp; [done|].
  by apply isabs_join.
Qed.

End absolute.

Lemma bind_Ok {A B} (m : Res A) (f : A → Res B) (b : B) :
  m ≫= f = Ok b → ∃ a, m = Ok a ∧ f a = Ok b.
Proof. destruct m as [a|e]; [by exists a | done]. Qed.

Lemma built_path_isabs {Loc} (ds : DataSeries.t Loc) :
  built ds → ∀ locs fs p, DataSeries.path ds locs fs = Ok p → posixpath.isabs p = true.
Proof.
  induction 1 as [prefix_ map_ n d ldf root_ds rm fs0 ds Hroot IH Hinit].
  intros locs fs p Hp.
  unfold DataSeries.__init__ in Hinit.
  destruct (os.isdir fs0 prefix_); [|done]. simpl in Hinit.
  injection Hinit as Hds. subst ds.
  destruct root_ds as [r|]; simpl in Hp.
  - apply bind_Ok in Hp as ([pre locs'] & Hpre & Hp).
    apply bind_Ok in Hpre as (rl & _ & Hpre).
    apply bind_Ok in Hpre as (sl & _ & Hpre).
    apply bind_Ok in Hpre as (pre' & Hpre' & Heq).
    apply bind_Ok in Hp as (? & _ & Hp).
    apply bind_Ok in Hp as (? & _ & Hp).
    apply bind_Ok in Hp as (? & _ & Hp).
    apply bind_Ok in Hp as (? & _ & Hp).
    apply bind_Ok in Hp as (? & _ & Hp).
    simplify_eq. apply (isabs_join _ [_]). by eapply IH.
  - repeat (apply bind_Ok in Hp as (? & _ & Hp)).
    simplify_eq. apply (isabs_join _ [_]), isabs_abspath.
Qed.

(** C10: the constructor of [DataSeries] fails its assertion when the prefix
    is not an existing directory of the tree; when it succeeds, the stored
    prefix is [os.path.abspath] of the given one and is absolute; and every
    path that a series built by the constructor (over roots built by it)
    later yields, in whatever state, is absolute. *)
Theorem DataSeries_init_prefix {Loc} (prefix_ : string) (map_ : list Loc → string)
    (nlocs depth : Z) (loc_dfile : option (DataFile.t (list Loc)))
    (root_ds : option (DataSeries.t Loc)) (removable : bool) (fs : FS) :
  (os.isdir fs prefix_ = false →
   DataSeries.__init__ prefix_ map_ nlocs depth loc_dfile root_ds removable fs
   = Raise AssertionError) ∧
  (∀ ds, DataSeries.__init__ prefix_ map_ nlocs depth loc_dfile root_ds removable fs
         = Ok ds →
         os.isdir fs prefix_ = true ∧
         DataSeries.prefix ds = posixpath.abspath (cwd fs) prefix_ ∧
         posixpath.isabs (DataSeries.prefix ds) = true) ∧
  (∀ ds, DataSeries.__init__ prefix_ map_ nlocs depth loc_dfile root_ds removable fs
         = Ok ds →
         (∀ r, root_ds = Some r → built r) →
         ∀ locs fs' p, DataSeries.path ds locs fs' = Ok p → posixpath.isabs p = true).
Proof.
  split_and!.
  - intros Hdir. unfold DataSeries.__init__. by rewrite Hdir.
  - intros ds. unfold DataSeries.__init__.
    destruct (os.isdir fs prefix_); [|done]. simpl. intros [= <-]. simpl.
    split_and!; [done | done | apply isabs_abspath].
  - intros ds Hinit Hroot. apply built_path_isabs.
    by eapply built_init.
Qed.

Lemma DataSeries_init_prefix_witness :
  DataSeries.__init__ "nowhere" Scenario.map_ab 2 2 None None false Scenario.fs0
    = Raise AssertionError ∧
  (os.isdir Scenario.fs0 "../../tmp/x" = true ∧
   DataSeries.prefix Scenario.series
     = posixpath.abspath (cwd Scenario.fs0) "../../tmp/x" ∧
   posixpath.isabs (DataSeries.prefix Scenario.series) = true) ∧
  posixpath.isabs "/tmp/x/1/2" = true.
Proof.
  split; [|split].
  - destruct (DataSeries_init_prefix "nowhere" Scenario.map_ab 2 2 None None false
                Scenario.fs0) as (H & _).
    apply H. reflexivity.
  - destruct (DataSeries_init_prefix "../../tmp/x" Scenario.map_ab 2 2 None None false
                Scenario.fs0) as (_ & H & _).
    apply (H Scenario.series). reflexivity.
  - destruct (DataSeries_init_prefix "../../tmp/x" Scenario.map_ab 2 2 None None false
                Scenario.fs0) as (_ & _ & H).
    apply (H Scenario.series) with (locs := [1; 2]%Z) (fs' := Scenario.fs0).
    + reflexivity.
    + intros r [=].
    + reflexivity.
Defined.

(** ** The file tree under the operations *)

Lemma dirs_kept_refl t : dirs_kept t t.
Proof. by intros k. Qed.

Lemma dirs_kept_trans t1 t2 t3 : dirs_kept t1 t2 → dirs_kept t2 t3 → dirs_kept t1 t3.
Proof. intros H12 H23 k Hk. by apply H23, H12. Qed.

Lemma node_at_insert_ne t k k' n :
  k ≠ k' → node_at (<[k := n]> t) k' = node_at t k'.
Proof. intros Hne. destruct k'; [done|]. simpl. by rewrite lookup_insert_ne. Qed.

Lemma node_at_insert_eq t k n :
  k ≠ [] → node_at (<[k := n]> t) k = Some n.
Proof. destruct k; [done|]. intros _. simpl. by rewrite lookup_insert_eq. Qed.

Lemma dirs_kept_insert t k n :
  node_at t k ≠ Some Dir → dirs_kept t (<[k := n]> t).
Proof.
  intros Hk k' Hk'. rewrite node_at_insert_ne; [done|]. by intros ->.
Qed.

Lemma walk_dirs_kept t t' cur comps k :
  dirs_kept t t' → os.walk t cur comps = Ok k → os.walk t' cur comps = Ok k.
Proof.
  intros Hkept. revert cur. induction comps as [|c rest IH]; intros cur; [done|].
  simpl. destruct (node_at t cur) as [[|s]|] eqn:Hcur; try done.
  rewrite (Hkept _ Hcur).
  repeat case_bool_decide; apply IH.
Qed.

Lemma stat_dirs_kept fs fs' p :
  dirs_kept (tree fs) (tree fs') → cwd fs' = cwd fs →
  os.isdir fs p = true → os.isdir fs' p = true.
Proof.
  intros Hkept Hcwd. unfold os.isdir, os.stat, os.locate, os.start_dir.
  rewrite Hcwd.
  destruct (posixpath.is_empty p); [done|].
  destruct (os.walk (tree fs) _ _) as [k|e] eqn:Hw; [|done].
  rewrite (walk_dirs_kept _ _ _ _ _ Hkept Hw).
  destruct (node_at (tree fs) k) as [[|s]|] eqn:Hk; try done.
  by rewrite (Hkept _ Hk).
Qed.

Lemma makedirs_walk_kept t cur comps fresh t' r :
  os.makedirs_walk t cur comps fresh = (t', r) → dirs_kept t t'.
Proof.
  revert t cur fresh.
  induction comps as [|c rest IH]; intros t cur fresh; simpl.
  - intros [= <- _]. apply dirs_kept_refl.
  - destruct (node_at t cur) as [[|s]|]; try (intros [= <- _]; apply dirs_kept_refl).
    do 2 (case_bool_decide; [apply IH|]).
    destruct (node_at t (cur ++ [c])) as [[|s]|] eqn:Hnext.
    + apply IH.
    + intros [= <- _]. apply dirs_kept_refl.
    + intros Hw. apply IH in Hw.
      eapply dirs_kept_trans; [|done].
      apply dirs_kept_insert. by rewrite Hnext.
Qed.

Lemma makedirs_walk_ok t cur comps fresh t' :
  (fresh = true → node_at t cur = Some Dir) →
  os.makedirs_walk t cur comps fresh = (t', Ok tt) →
  ∃ k, os.walk t' cur comps = Ok k ∧ node_at t' k = Some Dir.
Proof.
  revert t cur fresh.
  induction comps as [|c rest IH]; intros t cur fresh Hfresh; simpl.
  - destruct fresh; [|done]. intros [= <-]. exists cur. auto.
  - destruct (node_at t cur) as [[|s]|] eqn:Hcur; try done.
    intros Hw.
    assert (node_at t' cur = Some Dir) as ->.
    { revert Hw.
      do 2 (case_bool_decide;
            [intros Hw; by apply (makedirs_walk_kept _ _ _ _ _ _ Hw)|]).
      destruct (node_at t (cur ++ [c])) as [[|s]|] eqn:Hnext; try done.
      - intros Hw. by apply (makedirs_walk_kept _ _ _ _ _ _ Hw).
      - intros Hw. apply (makedirs_walk_kept _ _ _ _ _ _ Hw).
        rewrite node_at_insert_ne; [done|]. intros Heq. rewrite Heq in Hnext.
        congruence. }
    revert Hw. do 2 (case_bool_decide; [by apply IH|]).
    destruct (node_at t (cur ++ [c])) as [[|s]|] eqn:Hnext; try done.
    + by apply IH.
    + apply IH. intros _. apply node_at_insert_eq. by destruct cur.
Qed.

Lemma makedirs_kept name fs fs' r :
  os.makedirs name fs = (fs', r) →
  dirs_kept (tree fs) (tree fs') ∧ cwd fs' = cwd fs.
Proof.
  unfold os.makedirs. destruct (posixpath.is_empty name).
  - intros [= <- _]. split; [apply dirs_kept_refl | done].
  - destruct (os.makedirs_walk _ _ _ _) as [t r'] eqn:Hw.
    intros [= <- _]. simpl. split; [|done].
    by eapply makedirs_walk_kept.
Qed.

Lemma makedirs_ok_isdir name fs fs' :
  os.makedirs name fs = (fs', Ok tt) → os.isdir fs' name = true.
Proof.
  unfold os.makedirs, os.isdir, os.stat, os.locate.
  destruct (posixpath.is_empty name); [done|].
  destruct (os.makedirs_walk _ _ _ _) as [t r'] eqn:Hw.
  intros [= <- ->]. unfold os.start_dir in *. simpl.
  apply makedirs_walk_ok in Hw as (k & -> & ->); done.
Qed.

Lemma write_file_inv pth s fs fs' :
  io_.write_file pth s fs = (fs', Ok tt) →
  ∃ k, os.locate fs pth = Ok k ∧ node_at (tree fs) k ≠ Some Dir ∧
       fs' = mkFS (<[k := File s]> (tree fs)) (cwd fs).
Proof.
  unfold io_.write_file.
  destruct (os.locate fs pth) as [k|e]; [|done].
  destruct (node_at (tree fs) k) as [[|s']|] eqn:Hk; [done| |];
    intros [= <-]; exists k; by rewrite Hk.
Qed.

Lemma write_file_kept pth s fs fs' r :
  io_.write_file pth s fs = (fs', r) →
  dirs_kept (tree fs) (tree fs') ∧ cwd fs' = cwd fs.
Proof.
  unfold io_.write_file.
  destruct (os.locate fs pth) as [k|e];
    [|intros [= <- _]; split; [apply dirs_kept_refl | done]].
  destruct (node_at (tree fs) k) as [[|s']|] eqn:Hk;
    intros [= <- _]; simpl; (split; [|done]);
    try apply dirs_kept_refl; apply dirs_kept_insert; by rewrite Hk.
Qed.

(** ** Reading back what was written *)

Lemma write_file_read_file pth s fs fs' :
  io_.write_file pth s fs = (fs', Ok tt) →
  os.isfile fs' pth = true ∧ io_.read_file pth fs' = Ok s.
Proof.
  intros Hw. pose proof (write_file_kept _ _ _ _ _ Hw) as [Hkept Hcwd].
  apply write_file_inv in Hw as (k & Hloc & Hk & ->).
  assert (k ≠ []) as Hne by (by intros ->).
  assert (os.locate (mkFS (<[k := File s]> (tree fs)) (cwd fs)) pth = Ok k) as Hloc'.
  { revert Hloc. unfold os.locate, os.start_dir. simpl.
    destruct (posixpath.is_empty pth); [done|].
    by apply walk_dirs_kept. }
  unfold os.isfile, os.stat, io_.read_file. rewrite Hloc'. simpl.
  by rewrite node_at_insert_eq.
Qed.

Lemma DataFile_write_inv {V} (df : DataFile.t V) v dir_pth fs fs' :
  run (DataFile.write df v dir_pth) fs = (fs', Ok tt) →
  os.exists_ fs dir_pth = true ∧
  io_.write_file (DataFile.path df dir_pth) (DataFile.writer_ df v) fs = (fs', Ok tt).
Proof.
  unfold DataFile.write. simpl.
  destruct (os.exists_ fs dir_pth); [|done]. simpl.
  by destruct (io_.write_file _ _ fs) as [fs1 [[]|e]]; intros [= <-].
Qed.

(** C4: when [write(v, dir)] has written the file (the call returned), and
    the reader decodes what the writer encodes for [v], a [read(dir)] in the
    resulting state returns [v]. *)
Theorem read_after_write {V} (df : DataFile.t V) (v : V) (dir_pth : string)
    (fs fs' : FS) :
  DataFile.reader_ df (DataFile.writer_ df v) = v →
  run (DataFile.write df v dir_pth) fs = (fs', Ok tt) →
  DataFile.read df dir_pth fs' = Ok v.
Proof.
  intros Hcodec Hwrite.
  apply DataFile_write_inv in Hwrite as [_ Hw].
  apply write_file_read_file in Hw as [Hfile Hread].
  unfold DataFile.read, DataFile.exists_.
  rewrite Hfile. simpl. rewrite Hread. simpl. by rewrite Hcodec.
Qed.

Lemma read_after_write_witness :
  DataFile.read Scenario.info "/tmp/x"
    (run (DataFile.write Scenario.info "hello" "/tmp/x") Scenario.fs0).1
  = Ok "hello".
Proof.
  apply (read_after_write Scenario.info "hello" "/tmp/x" Scenario.fs0); reflexivity.
Defined.

(** ** Creation *)

(** Induction along the root chain of a series. *)
Lemma DataSeries_chain_ind {Loc} (P : DataSeries.t Loc → Prop) :
  (∀ p m n d l rm, P (DataSeries.mk p m n d l None rm)) →
  (∀ p m n d l r rm, P r → P (DataSeries.mk p m n d l (Some r) rm)) →
  ∀ ds, P ds.
Proof.
  intros Hnone Hsome. fix IH 1.
  intros [p m n d l [r|] rm]; [apply Hsome, IH | apply Hnone].
Qed.

Lemma path_unfold {Loc} (self : DataSeries.t Loc) locs fs :
  DataSeries.path self locs fs =
  match DataSeries.root self with
  | None => path_own self (DataSeries.prefix self) locs fs
  | Some r =>
      root_locs ← DataSeries._root_locators self locs;
      self_locs ← DataSeries._self_locators self locs;
      prefix_ ← DataSeries.path r root_locs fs;
      path_own self prefix_ self_locs fs
  end.
Proof.
  destruct self as [p m n d l [r|] rm]; [|done]. simpl.
  destruct (DataSeries._root_locators _ locs); [simpl|done].
  destruct (DataSeries._self_locators _ locs); [simpl|done].
  by destruct (DataSeries.path r _ fs).
Qed.

Lemma run_bind {A B} (m : M A) (f : A → M B) fs :
  run (m ≫= f) fs =
  match run m fs with
  | (fs', Ok a) => run (f a) fs'
  | (fs', Raise e) => (fs', Raise e)
  end.
Proof. done. Qed.

Lemma create_unfold {Loc} (self : DataSeries.t Loc) locs fs :
  run (DataSeries.create self locs) fs =
  match DataSeries.root self with
  | None => run (create_own self locs) fs
  | Some r =>
      match DataSeries._root_locators self locs with
      | Ok root_locs =>
          match run (DataSeries.create r root_locs) fs with
          | (fs1, Ok _) => run (create_own self locs) fs1
          | (fs1, Raise e) => (fs1, Raise e)
          end
      | Raise e => (fs, Raise e)
      end
  end.
Proof.
  destruct self as [p m n d l [r|] rm]; [|done].
  set (self := DataSeries.mk p m n d l (Some r) rm).
  change (run (DataSeries.create self locs) fs) with
    (run (_ ← (root_locs ← inspect (λ _, DataSeries._root_locators self locs);
               DataSeries.create r root_locs);
          create_own self locs) fs).
  change (DataSeries.root self) with (Some r). cbv beta iota.
  rewrite !run_bind. cbn [run inspect].
  destruct (DataSeries._root_locators self locs) as [rl|e]; [|done].
  by destruct (run (DataSeries.create r rl) fs) as [fs1 [[]|e]].
Qed.

#[local] Arguments DataSeries.path : simpl never.
#[local] Arguments DataSeries.create : simpl never.
#[local] Arguments DataSeries.exists_ : simpl never.

(** A path depends on the state through the working directory only. *)
Lemma path_own_cwd {Loc} (self : DataSeries.t Loc) pre locs fs fs' :
  cwd fs' = cwd fs → path_own self pre locs fs' = path_own self pre locs fs.
Proof. intros Hcwd. unfold path_own, _path_is_relative. by rewrite Hcwd. Qed.

Lemma path_cwd {Loc} (self : DataSeries.t Loc) locs fs fs' :
  cwd fs' = cwd fs → DataSeries.path self locs fs' = DataSeries.path self locs fs.
Proof.
  intros Hcwd. revert locs.
  induction self as [p m n d l rm|p m n d l r rm IH] using DataSeries_chain_ind;
    intros locs; rewrite !path_unfold; simpl.
  - by apply path_own_cwd.
  - destruct (DataSeries._root_locators _ locs); [simpl|done].
    destruct (DataSeries._self_locators _ locs); [simpl|done].
    rewrite IH. destruct (DataSeries.path r _ fs); [simpl|done].
    by apply path_own_cwd.
Qed.

Lemma exists_kept {Loc} (self : DataSeries.t Loc) locs fs fs' :
  dirs_kept (tree fs) (tree fs') → cwd fs' = cwd fs →
  DataSeries.exists_ self locs fs = Ok true →
  DataSeries.exists_ self locs fs' = Ok true.
Proof.
  intros Hkept Hcwd. unfold DataSeries.exists_. rewrite (path_cwd _ _ _ _ Hcwd).
  destruct (DataSeries.path self locs fs) as [pth|e]; [simpl|done].
  intros [= Hdir]. by rewrite (stat_dirs_kept _ _ _ Hkept Hcwd Hdir).
Qed.

Lemma chain_exists_kept {Loc} (self : DataSeries.t Loc) locs fs fs' :
  dirs_kept (tree fs) (tree fs') → cwd fs' = cwd fs →
  chain_exists self locs fs → chain_exists self locs fs'.
Proof.
  intros Hkept Hcwd. revert locs.
  induction self as [p m n d l rm|p m n d l r rm IH] using DataSeries_chain_ind;
    intros locs [Hex Hroot]; (split; [by eapply exists_kept|]); [done|].
  destruct Hroot as (rl & Hrl & Hroot). exists rl. split; [done|]. by apply IH.
Qed.

Lemma create_own_noop {Loc} (self : DataSeries.t Loc) locs fs :
  DataSeries.exists_ self locs fs = Ok true →
  run (create_own self locs) fs = (fs, Ok tt).
Proof. intros Hex. unfold create_own. simpl. by rewrite Hex. Qed.

Lemma create_noop {Loc} (self : DataSeries.t Loc) locs fs :
  chain_exists self locs fs → run (DataSeries.create self locs) fs = (fs, Ok tt).
Proof.
  revert locs.
  induction self as [p m n d l rm|p m n d l r rm IH] using DataSeries_chain_ind;
    intros locs [Hex Hroot]; rewrite create_unfold; cbn [DataSeries.root].
  - by apply create_own_noop.
  - destruct Hroot as (rl & -> & Hroot).
    rewrite (IH _ Hroot). by apply create_own_noop.
Qed.

Lemma create_own_kept {Loc} (self : DataSeries.t Loc) locs fs fs' r :
  run (create_own self locs) fs = (fs', r) →
  dirs_kept (tree fs) (tree fs') ∧ cwd fs' = cwd fs.
Proof.
  unfold create_own. simpl.
  destruct (DataSeries.exists_ self locs fs) as [[]|e]; simpl;
    try (intros [= <- _]; split; [apply dirs_kept_refl | done]).
  destruct (DataSeries.path self locs fs) as [pth|e]; simpl;
    try (intros [= <- _]; split; [apply dirs_kept_refl | done]).
  destruct (os.makedirs pth fs) as [fs2 r2] eqn:Hmk.
  apply makedirs_kept in Hmk as [Hk2 Hc2].
  destruct r2 as [[]|e]; [|by intros [= <- _]].
  destruct (DataSeries.loc_dfile self) as [df|]; [|by intros [= <- _]].
  simpl. destruct (DataSeries._self_locators self locs) as [sl|e]; simpl;
    [|by intros [= <- _]].
  destruct (os.exists_ fs2 pth); simpl; [|by intros [= <- _]].
  destruct (io_.write_file _ _ fs2) as [fs3 r3] eqn:Hw.
  apply write_file_kept in Hw as [Hk3 Hc3].
  destruct r3 as [[]|e]; intros [= <- _];
    (split; [by eapply dirs_kept_trans | congruence]).
Qed.

Lemma create_kept {Loc} (self : DataSeries.t Loc) locs fs fs' r :
  run (DataSeries.create self locs) fs = (fs', r) →
  dirs_kept (tree fs) (tree fs') ∧ cwd fs' = cwd fs.
Proof.
  revert locs fs fs' r.
  induction self as [p m n d l rm|p m n d l r0 rm IH] using DataSeries_chain_ind;
    intros locs fs fs' r; rewrite create_unfold; cbn [DataSeries.root].
  - apply create_own_kept.
  - destruct (DataSeries._root_locators _ locs) as [rl|e].
    2:{ intros [= <- _]. split; [apply dirs_kept_refl | done]. }
    destruct (run (DataSeries.create r0 rl) fs) as [fs1 r1] eqn:Hroot.
    apply IH in Hroot as [Hk1 Hc1].
    destruct r1 as [[]|e]; [|by intros [= <- _]].
    intros [Hk2 Hc2]%create_own_kept.
    split; [by eapply dirs_kept_trans | congruence].
Qed.

Lemma create_own_ok_exists {Loc} (self : DataSeries.t Loc) locs fs fs' :
  run (create_own self locs) fs = (fs', Ok tt) →
  DataSeries.exists_ self locs fs' = Ok true.
Proof.
  intros Hrun. pose proof (create_own_kept _ _ _ _ _ Hrun) as [Hkept Hcwd].
  revert Hrun. unfold create_own. simpl.
  destruct (DataSeries.exists_ self locs fs) as [[]|e] eqn:Hex; simpl; [|..|done].
  { by intros [= <-]. }
  unfold DataSeries.exists_. rewrite (path_cwd _ _ _ _ Hcwd).
  destruct (DataSeries.path self locs fs) as [pth|e]; simpl; [|done].
  destruct (os.makedirs pth fs) as [fs2 r2] eqn:Hmk.
  destruct r2 as [[]|e]; [|done].
  pose proof (makedirs_ok_isdir _ _ _ Hmk) as Hdir.
  destruct (DataSeries.loc_dfile self) as [df|]; [|by intros [= <-]; rewrite Hdir].
  simpl. destruct (DataSeries._self_locators self locs) as [sl|e]; simpl; [|done].
  destruct (os.exists_ fs2 pth); simpl; [|done].
  destruct (io_.write_file _ _ fs2) as [fs3 r3] eqn:Hw.
  apply write_file_kept in Hw as [Hk3 Hc3].
  destruct r3 as [[]|e]; intros [= <-].
  by rewrite (stat_dirs_kept _ _ _ Hk3 Hc3 Hdir).
Qed.

Lemma create_ok_chain_exists {Loc} (self : DataSeries.t Loc) locs fs fs' :
  run (DataSeries.create self locs) fs = (fs', Ok tt) → chain_exists self locs fs'.
Proof.
  revert locs fs fs'.
  induction self as [p m n d l rm|p m n d l r0 rm IH] using DataSeries_chain_ind;
    intros locs fs fs'; rewrite create_unfold; cbn [DataSeries.root].
  - intros Hown. split; [by eapply create_own_ok_exists | done].
  - destruct (DataSeries._root_locators _ locs) as [rl|e] eqn:Hrl; [|done].
    destruct (run (DataSeries.create r0 rl) fs) as [fs1 r1] eqn:Hroot.
    destruct r1 as [[]|e]; [|done].
    intros Hown. split; [by eapply create_own_ok_exists|].
    exists rl. split; [done|].
    apply create_own_kept in Hown as [Hk Hc].
    eapply chain_exists_kept; [done..|]. by eapply IH.
Qed.

(** C3: when [create(locs)] has returned, a second [create(locs)] returns
    without an error and leaves the state exactly as the first call left
    it: the same directories, no locator file written again. *)
Theorem create_idempotent {Loc} (self : DataSeries.t Loc) (locs : list Loc)
    (fs fs' : FS) :
  run (DataSeries.create self locs) fs = (fs', Ok tt) →
  run (DataSeries.create self locs) fs' = (fs', Ok tt).
Proof. intros Hrun. by apply create_noop, (create_ok_chain_exists _ _ fs). Qed.

Lemma create_idempotent_witness :
  let fs1 := (run (DataSeries.create Scenario.child ["1"; "a"]) Scenario.fs0).1 in
  run (DataSeries.create Scenario.child ["1"; "a"]) fs1 = (fs1, Ok tt).
Proof.
  apply (create_idempotent Scenario.child ["1"; "a"] Scenario.fs0). reflexivity.
Defined.

(** ** Strings, names and paths *)

Section names.
Import posixpath.

#[local] Arguments String.append !_ _ / : simpl nomatch.

Lemma append_assoc (a b c : string) : (a +:+ b) +:+ c = a +:+ (b +:+ c).
Proof. induction a as [|x a IH]; simpl; [done | by rewrite IH]. Qed.

Lemma is_empty_append (a b : string) :
  is_empty (a +:+ b) = is_empty a && is_empty b.
Proof. by destruct a. Qed.

Lemma startswith_sep_append (a b : string) :
  is_empty a = false → startswith_sep (a +:+ b) = startswith_sep a.
Proof. by destruct a. Qed.

Lemma split_str_nonempty (s : string) : split_str s ≠ [].
Proof.
  destruct s as [|c s]; simpl; [done|].
  destruct (is_sep c); [done|]. by destruct (split_str s).
Qed.

Lemma split_str_no_sep (s : string) : no_sep s = true → split_str s = [s].
Proof.
  induction s as [|c s IH]; simpl; [done|].
  destruct (is_sep c); [done|]. simpl. intros Hs. by rewrite IH.
Qed.

Lemma split_str_app_sep (a b : string) :
  split_str (a +:+ "/" +:+ b) = split_str a ++ split_str b.
Proof.
  induction a as [|c a IH]; simpl in *; [done|].
  destruct (is_sep c); [by rewrite IH|].
  rewrite IH. pose proof (split_str_nonempty a).
  by destruct (split_str a).
Qed.

Lemma join_str_cons (x : string) (segs : list string) :
  segs ≠ [] → join_str (x :: segs) = x +:+ "/" +:+ join_str segs.
Proof. by destruct segs. Qed.

Lemma split_str_join_str (segs : list string) :
  segs ≠ [] → Forall (λ s, no_sep s = true) segs → split_str (join_str segs) = segs.
Proof.
  induction segs as [|x segs IH]; [done|]. intros _ Hsegs.
  apply Forall_cons in Hsegs as [Hx Hsegs].
  destruct segs as [|y segs].
  - simpl. by apply split_str_no_sep.
  - rewrite join_str_cons by done. rewrite split_str_app_sep.
    rewrite split_str_no_sep by done. simpl. f_equal. by apply IH.
Qed.

Lemma join_str_cons_char (c : ascii) (h : string) (t : list string) :
  join_str (String c h :: t) = String c (join_str (h :: t)).
Proof. by destruct t. Qed.

Lemma join_str_split_str (s : string) : join_str (split_str s) = s.
Proof.
  induction s as [|c s IH]; [done|]. simpl.
  destruct (is_sep c) eqn:Hc.
  - apply Ascii.eqb_eq in Hc as ->.
    rewrite join_str_cons by apply split_str_nonempty. by rewrite IH.
  - pose proof (split_str_nonempty s).
    destruct (split_str s) as [|h t]; [done|].
    by rewrite join_str_cons_char, IH.
Qed.

Lemma endswith_sep_inv (a : string) :
  endswith_sep a = true → ∃ a', a = a' +:+ "/".
Proof.
  induction a as [|c a IH]; [done|]. simpl.
  destruct a as [|c' a].
  - intros ->%Ascii.eqb_eq. by exists "".
  - intros (a' & ->)%IH. by exists (String c a').
Qed.

Lemma endswith_sep_append (a b : string) :
  is_empty b = false → endswith_sep (a +:+ b) = endswith_sep b.
Proof.
  intros Hb. induction a as [|c a IH]; [done|]. simpl.
  destruct (a +:+ b) eqn:Hab; [|done].
  destruct a; [|done]. simpl in Hab. by subst b.
Qed.

Lemma no_sep_endswith (x : string) : no_sep x = true → endswith_sep x = false.
Proof.
  induction x as [|c x IH]; [done|]. simpl.
  intros [Hc Hx]%andb_true_iff. destruct x; [by apply negb_true_iff|by apply IH].
Qed.

Lemma no_sep_startswith (x : string) : no_sep x = true → startswith_sep x = false.
Proof.
  destruct x as [|c x]; [done|]. simpl.
  intros [Hc _]%andb_true_iff. by apply negb_true_iff.
Qed.

Lemma visible_is_name (s : string) : visible s = true → is_name s = true.
Proof.
  unfold visible, is_name.
  intros [[Hne Hsep]%andb_true_iff Hhid]%andb_true_iff.
  rewrite Hne, Hsep. simpl. apply negb_true_iff, bool_decide_eq_false.
  intros [-> | ->]; done.
Qed.

Lemma is_name_no_sep (s : string) : is_name s = true → no_sep s = true.
Proof. unfold is_name. by intros [[_ ?]%andb_true_iff _]%andb_true_iff. Qed.

Lemma is_name_nonempty (s : string) : is_name s = true → is_empty s = false.
Proof.
  unfold is_name. intros [[?%negb_true_iff _]%andb_true_iff _]%andb_true_iff. done.
Qed.

Lemma is_name_plain (s : string) :
  is_name s = true → s ≠ "" ∧ s ≠ "." ∧ s ≠ "..".
Proof.
  unfold is_name.
  intros [[Hne%negb_true_iff _]%andb_true_iff Hd%negb_true_iff]%andb_true_iff.
  apply bool_decide_eq_false in Hd.
  split_and!; [by intros -> | naive_solver | naive_solver].
Qed.

(** The first name of a joined list of names starts the string. *)
Lemma join_str_startswith (segs : list string) :
  Forall (λ s, is_name s = true) segs →
  startswith_sep (join_str segs) = false.
Proof.
  destruct segs as [|x segs]; [done|]. intros [Hx _]%Forall_cons.
  assert (startswith_sep x = false) as Hs by by apply no_sep_startswith, is_name_no_sep.
  apply is_name_nonempty in Hx.
  destruct segs; [done|]. rewrite join_str_cons by done.
  by rewrite startswith_sep_append.
Qed.

Lemma join_str_nonempty (segs : list string) :
  segs ≠ [] → Forall (λ s, is_name s = true) segs → is_empty (join_str segs) = false.
Proof.
  destruct segs as [|x segs]; [done|]. intros _ [Hx%is_name_nonempty _]%Forall_cons.
  destruct segs; [done|]. rewrite join_str_cons by done.
  rewrite is_empty_append, Hx. done.
Qed.

Lemma join_str_endswith (segs : list string) :
  segs ≠ [] → Forall (λ s, is_name s = true) segs →
  endswith_sep (join_str segs) = false.
Proof.
  induction segs as [|x segs IH]; [done|]. intros _ [Hx Hsegs]%Forall_cons.
  destruct segs as [|y segs].
  - by apply no_sep_endswith, is_name_no_sep.
  - rewrite join_str_cons by done.
    rewrite endswith_sep_append.
    + rewrite endswith_sep_append; [by apply IH|].
      by apply join_str_nonempty.
    + done.
Qed.

End names.

(** ** Resolving joined paths *)

Section resolve.
Import posixpath.

#[local] Arguments String.append !_ _ / : simpl nomatch.

Lemma walk_app t cur l1 l2 :
  os.walk t cur (l1 ++ l2) = os.walk t cur l1 ≫= λ k, os.walk t k l2.
Proof.
  revert cur. induction l1 as [|c l1 IH]; intros cur; [done|]. simpl.
  destruct (node_at t cur) as [[|s]|]; try done.
  repeat case_bool_decide; apply IH.
Qed.

(** Walking down names: each directory on the way must exist. *)
Lemma walk_names t K segs :
  Forall (λ s, is_name s = true) segs →
  (∀ i, (i < length segs)%nat → node_at t (K ++ take i segs) = Some Dir) →
  os.walk t K segs = Ok (K ++ segs).
Proof.
  revert K. induction segs as [|x segs IH]; intros K Hnames Hdirs.
  - by rewrite app_nil_r.
  - apply Forall_cons in Hnames as [Hx Hnames]. simpl.
    assert (node_at t K = Some Dir) as ->.
    { specialize (Hdirs 0%nat). simpl in Hdirs. rewrite app_nil_r in Hdirs.
      apply Hdirs. lia. }
    destruct (is_name_plain _ Hx) as (? & ? & ?).
    rewrite bool_decide_eq_false_2 by (by intros [?|?]).
    rewrite bool_decide_eq_false_2 by done.
    rewrite IH; [by rewrite <- app_assoc | done |].
    intros i Hi. specialize (Hdirs (S i)). simpl in Hdirs.
    rewrite <- app_assoc. apply Hdirs. lia.
Qed.

Lemma walk_names_inv t K segs k :
  Forall (λ s, is_name s = true) segs →
  os.walk t K segs = Ok k →
  k = K ++ segs ∧ ∀ i, (i < length segs)%nat → node_at t (K ++ take i segs) = Some Dir.
Proof.
  revert K. induction segs as [|x segs IH]; intros K Hnames.
  - simpl. intros [= <-]. split; [by rewrite app_nil_r | intros; lia].
  - apply Forall_cons in Hnames as [Hx Hnames]. simpl.
    destruct (node_at t K) as [[|s]|] eqn:HK; try done.
    destruct (is_name_plain _ Hx) as (? & ? & ?).
    rewrite bool_decide_eq_false_2 by (by intros [?|?]).
    rewrite bool_decide_eq_false_2 by done.
    intros (-> & Hdirs)%IH; [|done].
    split; [by rewrite <- app_assoc|].
    intros [|i] Hi; simpl; [by rewrite app_nil_r|].
    replace (K ++ x :: take i segs) with ((K ++ [x]) ++ take i segs)
      by (by rewrite <- app_assoc).
    apply Hdirs. lia.
Qed.

(** Walking to a directory, with or without a closing empty component. *)
Lemma walk_trailing_empty t cur comps K :
  os.walk t cur (comps ++ [""]) = Ok K ↔
  os.walk t cur comps = Ok K ∧ node_at t K = Some Dir.
Proof.
  rewrite walk_app.
  destruct (os.walk t cur comps) as [k|e]; simpl.
  - destruct (node_at t k) as [[|s]|] eqn:Hk; simpl.
    + split; [by intros [= <-] | by intros [[= <-] _]].
    + split; [done | intros [[= <-] ?]; congruence].
    + split; [done | intros [[= <-] ?]; congruence].
  - split; [done | by intros [? _]].
Qed.

Lemma split_str_sep_end (a : string) :
  split_str (a +:+ "/") = split_str a ++ [""].
Proof.
  pose proof (split_str_app_sep a "") as H. simpl in H. by rewrite H.
Qed.

(** Where [join2 p pth] leads, for a path [pth] of names under the
    directory that [p] names. *)
Lemma locate_join2 fs p segs K :
  good_dir p = true →
  os.locate fs p = Ok K → node_at (tree fs) K = Some Dir →
  segs ≠ [] → Forall (λ s, is_name s = true) segs →
  os.locate fs (join2 p (join_str segs)) = os.walk (tree fs) K segs.
Proof.
  intros [Hne Hend]%andb_true_iff Hloc HK Hsegs Hnames.
  apply negb_true_iff in Hne.
  assert (Forall (λ s, no_sep s = true) segs) as Hns
    by (eapply Forall_impl; [done|]; apply is_name_no_sep).
  unfold join2. rewrite (join_str_startswith _ Hnames), Hne. cbn [orb].
  revert Hloc. unfold os.locate, os.start_dir. rewrite Hne.
  destruct (endswith_sep p) eqn:Hp.
  - destruct (endswith_sep_inv _ Hp) as (p' & ->).
    rewrite is_empty_append, Hne. cbn [andb].
    rewrite (startswith_sep_append (p' +:+ "/")) by done.
    rewrite split_str_sep_end. intros [Hw _]%walk_trailing_empty.
    rewrite append_assoc. rewrite split_str_app_sep, walk_app, Hw.
    cbn [mbind Res_bind]. by rewrite split_str_join_str by done.
  - intros Hw. rewrite is_empty_append, Hne. cbn [andb].
    rewrite (startswith_sep_append p) by done.
    rewrite split_str_app_sep, walk_app, Hw.
    cbn [mbind Res_bind]. by rewrite split_str_join_str by done.
Qed.

Lemma locate_join_name fs p x K :
  good_dir p = true →
  os.locate fs p = Ok K → node_at (tree fs) K = Some Dir →
  is_name x = true →
  os.locate fs (join p [x]) = Ok (K ++ [x]).
Proof.
  intros Hp Hloc HK Hx.
  change (join p [x]) with (join2 p (join_str [x])).
  rewrite (locate_join2 fs p [x] K) by (done || by constructor).
  apply walk_names; [by constructor|].
  intros i Hi. simpl in Hi. replace i with 0%nat by lia. simpl.
  by rewrite app_nil_r.
Qed.

Lemma good_dir_join2 p x :
  good_dir p = true → is_name x = true → good_dir (join2 p x) = true.
Proof.
  intros [Hne Hend]%andb_true_iff Hx. apply negb_true_iff in Hne.
  pose proof (is_name_nonempty _ Hx) as Hxne.
  pose proof (no_sep_endswith _ (is_name_no_sep _ Hx)) as Hxend.
  unfold join2. rewrite (no_sep_startswith _ (is_name_no_sep _ Hx)), Hne.
  cbn [orb]. unfold good_dir.
  destruct (endswith_sep p).
  - rewrite is_empty_append, Hne, (endswith_sep_append p x), Hxend by done.
    cbn [andb negb]. by rewrite orb_true_r.
  - rewrite is_empty_append, Hne. cbn [andb negb].
    rewrite (endswith_sep_append p) by done.
    rewrite (endswith_sep_append "/" x), Hxend by done.
    cbn [negb]. by rewrite orb_true_r.
Qed.

End resolve.

(** ** Creating directories along names *)

Section makedirs.
Import posixpath.

(** The part of the path that exists is walked without a change. *)
Lemma makedirs_walk_app t cur l1 l2 K :
  os.walk t cur l1 = Ok K → node_at t K = Some Dir →
  os.makedirs_walk t cur (l1 ++ l2) false = os.makedirs_walk t K l2 false.
Proof.
  revert cur. induction l1 as [|c l1 IH]; intros cur; simpl.
  - by intros [= ->].
  - destruct (node_at t cur) as [[|s]|] eqn:Hcur; try done.
    do 2 (case_bool_decide; [by apply IH|]).
    intros Hw HK. rewrite <- (IH _ Hw HK).
    destruct (node_at t (cur ++ [c])) as [[|s]|] eqn:Hnext; [done|..];
      (destruct l1 as [|c' l1]; simpl in Hw;
       [injection Hw as <-; congruence | by rewrite Hnext in Hw]).
Qed.

(** What [makedirs_walk] does along names: the directories [K ++ take i
    segs] exist afterwards, and nothing else has changed. *)
Lemma makedirs_walk_names t K segs fresh t' :
  Forall (λ s, is_name s = true) segs →
  os.makedirs_walk t K segs fresh = (t', Ok tt) →
  (∀ i, (0 < i ≤ length segs)%nat → node_at t' (K ++ take i segs) = Some Dir) ∧
  (∀ k, (∀ i, (0 < i ≤ length segs)%nat → k ≠ K ++ take i segs) →
        node_at t' k = node_at t k).
Proof.
  revert t K fresh. induction segs as [|x segs IH]; intros t K fresh Hnames; simpl.
  - destruct fresh; [|done]. intros [= <-]. split; [intros; lia | done].
  - apply Forall_cons in Hnames as [Hx Hnames].
    destruct (node_at t K) as [[|s]|] eqn:HK; try done.
    destruct (is_name_plain _ Hx) as (? & ? & ?).
    rewrite bool_decide_eq_false_2 by (by intros [?|?]).
    rewrite bool_decide_eq_false_2 by done.
    assert (K ++ [x] ≠ []) as Hne by (by destruct K).
    assert (∀ i l, (K ++ [x]) ++ take i l = K ++ take (S i) (x :: l)) as Hshift
      by (intros; by rewrite <- app_assoc).
    assert (K ++ take 1 (x :: segs) = K ++ [x]) as Hone by done.
    destruct (node_at t (K ++ [x])) as [[|s]|] eqn:Hnext; try done.
    + intros Hw. pose proof (makedirs_walk_kept _ _ _ _ _ _ Hw) as Hkept.
      apply IH in Hw as [Hdirs Hrest]; [|done]. split.
      * intros [|[|i]] Hi; [lia|by rewrite Hone; apply Hkept|].
        rewrite <- Hshift. apply Hdirs. simpl in Hi. lia.
      * intros k Hk. apply Hrest. intros i Hi. rewrite Hshift. apply Hk.
        simpl. lia.
    + intros Hw. pose proof (makedirs_walk_kept _ _ _ _ _ _ Hw) as Hkept.
      apply IH in Hw as [Hdirs Hrest]; [|done]. split.
      * intros [|[|i]] Hi; [lia| |].
        -- rewrite Hone. apply Hkept. by apply node_at_insert_eq.
        -- rewrite <- Hshift. apply Hdirs. simpl in Hi. lia.
      * intros k Hk. rewrite Hrest.
        -- apply node_at_insert_ne. rewrite <- Hone. intros Heq.
           apply (Hk 1%nat); [simpl; lia | done].
        -- intros i Hi. rewrite Hshift. apply Hk. simpl. lia.
Qed.

(** [makedirs_walk] succeeds only where no file lies on the way. *)
Lemma makedirs_walk_no_file t K segs fresh t' :
  Forall (λ s, is_name s = true) segs →
  os.makedirs_walk t K segs fresh = (t', Ok tt) →
  ∀ i c, (0 < i ≤ length segs)%nat → node_at t (K ++ take i segs) ≠ Some (File c).
Proof.
  revert t K fresh. induction segs as [|x segs IH]; intros t K fresh Hnames; simpl.
  - intros _ i c Hi. lia.
  - apply Forall_cons in Hnames as [Hx Hnames].
    destruct (node_at t K) as [[|s]|] eqn:HK; try done.
    destruct (is_name_plain _ Hx) as (? & ? & ?).
    rewrite bool_decide_eq_false_2 by (by intros [?|?]).
    rewrite bool_decide_eq_false_2 by done.
    destruct (node_at t (K ++ [x])) as [[|s]|] eqn:Hnext; try done;
      intros Hw [|[|i]] c Hi; try lia; simpl;
      try (rewrite take_0, Hnext; done).
    + replace (K ++ x :: take (S i) segs) with ((K ++ [x]) ++ take (S i) segs)
        by (by rewrite <- app_assoc).
      apply (IH _ _ _ Hnames Hw). simpl in Hi. lia.
    + replace (K ++ x :: take (S i) segs) with ((K ++ [x]) ++ take (S i) segs)
        by (by rewrite <- app_assoc).
      rewrite <- (node_at_insert_ne t (K ++ [x]) _ Dir).
      * apply (IH _ _ _ Hnames Hw). simpl in Hi. lia.
      * intros Heq. apply (f_equal length) in Heq.
        rewrite !length_app, length_take in Heq. cbn [length] in Heq, Hi. lia.
Qed.

(** [makedirs] on a path of names joined to an existing directory. *)
Lemma makedirs_join2 fs p segs K :
  good_dir p = true →
  os.locate fs p = Ok K → node_at (tree fs) K = Some Dir →
  segs ≠ [] → Forall (λ s, is_name s = true) segs →
  os.makedirs (join2 p (join_str segs)) fs =
  (let '(t, r) := os.makedirs_walk (tree fs) K segs false in (mkFS t (cwd fs), r)).
Proof.
  intros Hgood Hloc HK Hsegs Hnames.
  pose proof Hgood as [Hne Hend]%andb_true_iff.
  apply negb_true_iff in Hne.
  assert (Forall (λ s, no_sep s = true) segs) as Hns
    by (eapply Forall_impl; [done|]; apply is_name_no_sep).
  unfold os.makedirs.
  assert (is_empty (join2 p (join_str segs)) = false) as ->.
  { pose proof (good_dir_join2 p (join_str segs)) as H. unfold join2.
    rewrite (join_str_startswith _ Hnames).
    destruct (is_empty p || endswith_sep p); rewrite !is_empty_append, Hne; done. }
  revert Hloc. unfold os.locate, os.start_dir, join2.
  rewrite (join_str_startswith _ Hnames), Hne. cbn [orb].
  destruct (endswith_sep p) eqn:Hp.
  - destruct (endswith_sep_inv _ Hp) as (p' & ->).
    rewrite (startswith_sep_append (p' +:+ "/")) by done.
    rewrite split_str_sep_end. intros [Hw _]%walk_trailing_empty.
    rewrite append_assoc, split_str_app_sep.
    rewrite (makedirs_walk_app _ _ _ _ K) by done.
    by rewrite split_str_join_str by done.
  - intros Hw. rewrite (startswith_sep_append p) by done.
    rewrite split_str_app_sep.
    rewrite (makedirs_walk_app _ _ _ _ K) by done.
    by rewrite split_str_join_str by done.
Qed.

End makedirs.

(** ** Splitting joined paths *)

Section split.
Import posixpath.

#[local] Arguments String.append !_ _ / : simpl nomatch.

Lemma cut_last_sep_no_sep (x : string) :
  no_sep x = true → cut_last_sep x = ("", x).
Proof.
  induction x as [|c x IH]; [done|]. simpl.
  intros [Hc%negb_true_iff Hx]%andb_true_iff. by rewrite IH, Hc.
Qed.

Lemma cut_last_sep_app (a x : string) :
  no_sep x = true → cut_last_sep (a +:+ "/" +:+ x) = (a +:+ "/", x).
Proof.
  intros Hx. induction a as [|c a IH]; simpl in *.
  - by rewrite cut_last_sep_no_sep.
  - rewrite IH. by destruct a.
Qed.

Lemma all_sep_endswith (q : string) :
  all_sep q = true → is_empty q = false → endswith_sep q = true.
Proof.
  induction q as [|c q IH]; [done|]. simpl.
  intros [Hc Hq]%andb_true_iff _. destruct q; [done|]. by apply IH.
Qed.

Lemma all_sep_app (a b : string) : all_sep (a +:+ b) = all_sep a && all_sep b.
Proof.
  induction a as [|c a IH]; simpl; [done|]. by rewrite IH, andb_assoc.
Qed.

Lemma rstrip_sep_id (q : string) : endswith_sep q = false → rstrip_sep q = q.
Proof.
  induction q as [|c q IH]; [done|]. simpl.
  destruct q as [|c' q]; [by intros ->|].
  intros Hq. rewrite (IH Hq). done.
Qed.

Lemma rstrip_sep_app_sep (q : string) : rstrip_sep (q +:+ "/") = rstrip_sep q.
Proof.
  induction q as [|c q IH]; [done|]. simpl in *. by rewrite IH.
Qed.

Lemma split_join2 (q x : string) :
  good_dir q = true → is_name x = true → split (join2 q x) = (q, x).
Proof.
  intros [Hne Hend]%andb_true_iff Hx. apply negb_true_iff in Hne.
  pose proof (is_name_no_sep _ Hx) as Hns.
  unfold join2. rewrite (no_sep_startswith _ Hns), Hne. cbn [orb].
  unfold split.
  destruct (endswith_sep q) eqn:Hq.
  - destruct (endswith_sep_inv _ Hq) as (q' & ->).
    rewrite append_assoc, cut_last_sep_app by done.
    rewrite orb_false_r in Hend. by rewrite Hend, andb_false_r.
  - rewrite cut_last_sep_app by done.
    rewrite is_empty_append, Hne, all_sep_app. cbn [andb negb].
    destruct (all_sep q) eqn:Hall.
    { by rewrite (all_sep_endswith _ Hall Hne) in Hq. }
    cbn [andb negb]. by rewrite rstrip_sep_app_sep, rstrip_sep_id.
Qed.

Lemma has_magic_app (a b : string) :
  glob.has_magic (a +:+ b) = glob.has_magic a || glob.has_magic b.
Proof.
  induction a as [|c a IH]; simpl; [done|]. by rewrite IH, orb_assoc.
Qed.

Lemma has_magic_join2_star (q : string) :
  glob.has_magic (join2 q "*") = true.
Proof.
  unfold join2. cbn [startswith_sep is_sep]. simpl.
  destruct (is_empty q || endswith_sep q); rewrite !has_magic_app; simpl;
    by rewrite ?orb_true_r.
Qed.

Lemma join_snoc (p : string) (names : list string) (x : string) :
  join p (names ++ [x]) = join2 (join p names) x.
Proof. unfold join. by rewrite fold_left_app. Qed.

Lemma length_append (a b : string) :
  String.length (a +:+ b) = (String.length a + String.length b)%nat.
Proof. induction a as [|c a IH]; simpl; [done | by rewrite IH]. Qed.

Lemma join2_ne (q x : string) :
  is_name x = true → is_empty q = false → join2 q x ≠ q.
Proof.
  intros Hx Hq Heq. apply (f_equal String.length) in Heq. revert Heq.
  unfold join2. rewrite (no_sep_startswith _ (is_name_no_sep _ Hx)).
  apply is_name_nonempty in Hx.
  destruct (is_empty q || endswith_sep q);
    rewrite !length_append; destruct x; simpl in *; try done; lia.
Qed.

Lemma good_dir_nonempty (q : string) : good_dir q = true → is_empty q = false.
Proof. by intros [Hne%negb_true_iff _]%andb_true_iff. Qed.

Lemma join2_isabs (q x : string) :
  is_name x = true → is_empty q = false → isabs (join2 q x) = isabs q.
Proof.
  intros Hx Hq. unfold join2, isabs.
  rewrite (no_sep_startswith _ (is_name_no_sep _ Hx)).
  by destruct (is_empty q || endswith_sep q); rewrite !startswith_sep_append.
Qed.

Lemma join2_abs (q p : string) : isabs p = true → join2 q p = p.
Proof. unfold join2, isabs. by intros ->. Qed.

(** Joined names: where they lead, and the form of the result. *)
Lemma join_names fs p names K :
  good_dir p = true → os.locate fs p = Ok K →
  Forall (λ s, is_name s = true) names →
  (∀ i, (i < length names)%nat → node_at (tree fs) (K ++ take i names) = Some Dir) →
  os.locate fs (join p names) = Ok (K ++ names) ∧
  good_dir (join p names) = true ∧
  isabs (join p names) = isabs p.
Proof.
  intros Hp Hloc. induction names as [|x names IH] using rev_ind; intros Hnames Hdirs.
  - by rewrite app_nil_r.
  - apply Forall_app in Hnames as [Hnames [Hx _]%Forall_cons].
    destruct IH as (Hloc' & Hgood & Habs); [done|..].
    { intros i Hi. rewrite <- (take_app_le _ [x]) by lia. apply Hdirs.
      rewrite length_app. lia. }
    rewrite join_snoc. split_and!.
    + rewrite app_assoc. apply (locate_join_name fs _ x); try done.
      specialize (Hdirs (length names)). rewrite take_app_length in Hdirs.
      apply Hdirs. rewrite length_app. simpl. lia.
    + by apply good_dir_join2.
    + rewrite join2_isabs; [done..|]. by apply good_dir_nonempty.
Qed.

End split.

(** ** Listing directories *)

Lemma strip_prefix_Some d k r : strip_prefix d k = Some r ↔ k = d ++ r.
Proof.
  revert k. induction d as [|x d IH]; intros k; simpl.
  - split; [by intros [= ->] | by intros ->].
  - destruct k as [|y k]; [done|].
    case_bool_decide as Hxy.
    + subst y. rewrite IH. split; [by intros -> | by intros [= ->]].
    + split; [done | intros [= ? _]; done].
Qed.

Lemma child_name_Some d k n : child_name d k = Some n ↔ k = d ++ [n].
Proof.
  unfold child_name.
  destruct (strip_prefix d k) as [r|] eqn:Hr.
  - apply strip_prefix_Some in Hr as ->.
    destruct r as [|x [|y r]]; (split; [try done; by intros [= ->]|]);
      intros Heq%app_inv_head; by simplify_eq.
  - split; [done|]. intros ->.
    by rewrite (proj2 (strip_prefix_Some d (d ++ [n]) [n])) in Hr.
Qed.

Lemma NoDup_omap_inj {A B} (f : A → option B) (l : list A) :
  (∀ x y z, x ∈ l → y ∈ l → f x = Some z → f y = Some z → x = y) →
  NoDup l → NoDup (omap f l).
Proof.
  induction l as [|a l IH]; intros Hinj; [constructor|].
  intros [Ha Hl]%NoDup_cons. simpl.
  assert (NoDup (omap f l)) as Hrec.
  { apply IH; [|done]. intros x y z Hx Hy. apply Hinj; by right. }
  destruct (f a) as [b|] eqn:Hfa; [|done].
  apply NoDup_cons. split; [|done].
  intros (x & Hx & Hfx)%list_elem_of_omap.
  apply Ha. rewrite (Hinj a x b); [done|by left|by right|done..].
Qed.

Lemma elem_of_listdir t d dironly n :
  n ∈ os.listdir t d dironly ↔
  ∃ nd, t !! (d ++ [n]) = Some nd ∧ (dironly = true → nd = Dir).
Proof.
  unfold os.listdir. rewrite list_elem_of_omap. split.
  - intros ([k nd] & Hin%elem_of_map_to_list & Hf). simpl in Hf.
    destruct (child_name d k) as [n'|] eqn:Hk; [|done].
    apply child_name_Some in Hk as ->.
    exists nd. destruct dironly, nd; simpl in Hf; by simplify_eq.
  - intros (nd & Hnd & Hdir). exists (d ++ [n], nd).
    split; [by apply elem_of_map_to_list|]. simpl.
    rewrite (proj2 (child_name_Some d (d ++ [n]) n)) by done.
    destruct dironly; [|done]. by rewrite Hdir.
Qed.

Lemma NoDup_listdir t d dironly : NoDup (os.listdir t d dironly).
Proof.
  apply NoDup_omap_inj; [|apply NoDup_map_to_list].
  intros [k1 n1] [k2 n2] n Hin1%elem_of_map_to_list Hin2%elem_of_map_to_list.
  simpl. intros H1 H2.
  destruct (child_name d k1) as [m1|] eqn:Hk1; [|done].
  destruct (child_name d k2) as [m2|] eqn:Hk2; [|done].
  apply child_name_Some in Hk1 as ->. apply child_name_Some in Hk2 as ->.
  assert (m1 = n) as -> by (by repeat case_match; simplify_eq).
  assert (m2 = n) as -> by (by repeat case_match; simplify_eq).
  by simplify_eq.
Qed.

Lemma elem_of_levels t K d dironly names :
  names ∈ levels t K d dironly ↔
  length names = d ∧
  Forall (λ x, glob.ishidden x = false) names ∧
  ∀ i, (0 < i ≤ d)%nat →
       ∃ nd, t !! (K ++ take i names) = Some nd ∧
             ((i < d)%nat ∨ dironly = true → nd = Dir).
Proof.
  revert dironly names. induction d as [|d IH]; intros dironly names; simpl.
  - rewrite list_elem_of_singleton. split.
    + intros ->. split_and!; [done | constructor | intros; lia].
    + intros (Hlen & _). by apply nil_length_inv.
  - rewrite list_elem_of_bind. split.
    + intros (ns & (n & -> & Hn)%list_elem_of_fmap & Hns).
      apply list_elem_of_filter in Hn as [Hvis Hn].
      apply elem_of_listdir in Hn as (nd & Hnd & Hdir).
      apply IH in Hns as (Hlen & Hall & Hdirs).
      split_and!.
      * rewrite length_app. simpl. lia.
      * apply Forall_app. split; [done | by constructor].
      * intros i Hi. destruct (decide (i = S d)) as [->|Hne].
        -- rewrite take_ge by (rewrite length_app; simpl; lia).
           exists nd. split; [by rewrite app_assoc|].
           intros [?|?]; [lia | by apply Hdir].
        -- rewrite take_app_le by lia.
           destruct (Hdirs i) as (nd' & Hnd' & Hd'); [lia|].
           exists nd'. split; [done|]. intros _. apply Hd'. by right.
    + intros (Hlen & Hall & Hdirs).
      destruct names as [|n ns _] using rev_ind; [done|].
      rewrite length_app in Hlen. simpl in Hlen.
      apply Forall_app in Hall as [Hall [Hn _]%Forall_cons].
      exists ns. split.
      * apply list_elem_of_fmap. exists n. split; [done|].
        apply list_elem_of_filter. split; [done|].
        apply elem_of_listdir.
        destruct (Hdirs (S d)) as (nd & Hnd & Hd); [lia|].
        rewrite take_ge in Hnd by (rewrite length_app; simpl; lia).
        exists nd. split; [by rewrite <- app_assoc|]. intros ?. apply Hd. by right.
      * apply IH. split_and!; [lia | done |].
        intros i Hi. destruct (Hdirs i) as (nd & Hnd & Hd); [lia|].
        rewrite take_app_le in Hnd by lia.
        exists nd. split; [done|]. intros _. apply Hd. left. lia.
Qed.

Lemma NoDup_levels t K d dironly : NoDup (levels t K d dironly).
Proof.
  revert dironly. induction d as [|d IH]; intros dironly; simpl.
  - apply NoDup_singleton.
  - apply NoDup_bind; [| |apply IH].
    + intros ns1 ns2 names _ _ (n1 & -> & _)%list_elem_of_fmap
        (n2 & Heq & _)%list_elem_of_fmap.
      by apply app_inj_tail in Heq as [-> _].
    + intros ns _. apply NoDup_fmap_2; [|apply NoDup_filter, NoDup_listdir].
      intros n1 n2 Heq. by apply app_inj_tail in Heq as [_ ->].
Qed.

(** ** [glob] on a directory followed by stars *)

Lemma node_at_lookup t k nd : k ≠ [] → t !! k = Some nd → node_at t k = Some nd.
Proof. by destruct k. Qed.

Lemma mapM_Res_ok {A B} (f : A → Res B) (g : A → B) (l : list A) :
  (∀ x, x ∈ l → f x = Ok (g x)) → mapM f l = Ok (g <$> l).
Proof.
  induction l as [|a l IH]; intros Hf; [done|]. simpl.
  rewrite (Hf a) by by left. simpl.
  rewrite IH; [done|]. intros x Hx. apply Hf. by right.
Qed.

Section glob_stars.
Import posixpath.

Context (fs : FS) (p : string) (K : list string).
Context (Hgood : good_dir p = true) (Hloc : os.locate fs p = Ok K).
Context (HK : node_at (tree fs) K = Some Dir) (Hnames : names_ok (tree fs) K).

(** What a chain of [levels] is in the tree. *)
Lemma levels_dirs d ns :
  ns ∈ levels (tree fs) K d true →
  Forall (λ s, is_name s = true) ns ∧
  ∀ i, (i ≤ length ns)%nat → node_at (tree fs) (K ++ take i ns) = Some Dir.
Proof.
  intros (Hlen & _ & Hdirs)%elem_of_levels. split.
  - destruct d as [|d]; [by apply nil_length_inv in Hlen as ->|].
    apply Hnames. destruct (Hdirs (S d)) as (nd & Hnd & _); [lia|].
    rewrite take_ge in Hnd by lia. by eexists.
  - intros [|i] Hi; [by rewrite take_0, app_nil_r|].
    destruct (Hdirs (S i)) as (nd & Hnd & Hd); [lia|].
    rewrite Hd in Hnd by by right.
    apply node_at_lookup; [|done].
    destruct ns; [simpl in Hi; lia | by destruct K].
Qed.

Lemma levels_locate d ns :
  ns ∈ levels (tree fs) K d true →
  os.locate fs (join p ns) = Ok (K ++ ns) ∧
  node_at (tree fs) (K ++ ns) = Some Dir ∧
  good_dir (join p ns) = true.
Proof.
  intros [Hns Hdirs]%levels_dirs.
  destruct (join_names fs p ns K) as (Hl & Hg & _); try done.
  { intros i Hi. apply Hdirs. lia. }
  split_and!; [done| |done].
  specialize (Hdirs (length ns)). rewrite take_ge in Hdirs by lia. by apply Hdirs.
Qed.

Lemma scandir_levels d ns dironly :
  ns ∈ levels (tree fs) K d true →
  glob.scandir fs (join p ns) dironly = os.listdir (tree fs) (K ++ ns) dironly.
Proof.
  intros (Hl & Hd & Hg)%levels_locate. unfold glob.scandir.
  by rewrite (good_dir_nonempty _ Hg), Hl, Hd.
Qed.

Lemma good_dir_stars d : good_dir (join p (replicate d "*")) = true.
Proof.
  induction d as [|d IH]; [done|].
  rewrite replicate_S_end, join_snoc. by apply good_dir_join2.
Qed.

Lemma has_magic_stars d : glob.has_magic (join p (replicate (S d) "*")) = true.
Proof. rewrite replicate_S_end, join_snoc. apply has_magic_join2_star. Qed.

Lemma concat_levels (d : nat) (dironly : bool) :
  concat ((λ ns, (λ n, join (join p ns) [n]) <$>
                 filter (λ x, glob.ishidden x = false)
                        (os.listdir (tree fs) (K ++ ns) dironly))
          <$> levels (tree fs) K d true)
  = join p <$> levels (tree fs) K (S d) dironly.
Proof.
  simpl. induction (levels (tree fs) K d true) as [|ns l IH]; [done|].
  rewrite fmap_cons, bind_cons, fmap_app. simpl. rewrite IH. f_equal.
  rewrite <- list_fmap_compose. apply list_fmap_ext. intros i n _. simpl.
  by rewrite join_snoc.
Qed.

Lemma iglob_stars (Hmagic : glob.has_magic p = false) d fuel dironly :
  (d < fuel)%nat →
  glob.iglob fuel fs (join p (replicate (S d) "*")) dironly
  = Ok (join p <$> levels (tree fs) K (S d) dironly).
Proof.
  revert fuel dironly. induction d as [|d IH]; intros [|fuel] dironly Hfuel; try lia.
  - cbn [glob.iglob]. change (join p (replicate 1 "*")) with (join2 p "*").
    rewrite split_join2 by done.
    rewrite has_magic_join2_star, (good_dir_nonempty _ Hgood), Hmagic.
    rewrite andb_false_r. cbn [negb mbind Res_bind mapM].
    change (glob.has_magic "*") with true. cbv iota.
    unfold glob.glob1. rewrite bool_decide_eq_true_2 by done.
    cbn [mbind Res_bind mret Res_ret].
    unfold glob.scandir. rewrite (good_dir_nonempty _ Hgood), Hloc, HK.
    cbn [is_dir_node]. simpl. rewrite !app_nil_r.
    by rewrite <- list_fmap_compose.
  - cbn [glob.iglob].
    rewrite (replicate_S_end (S d)), join_snoc.
    pose proof (good_dir_stars (S d)) as Hq.
    rewrite split_join2 by done.
    rewrite has_magic_join2_star, (good_dir_nonempty _ Hq), has_magic_stars.
    assert (join p (replicate (S d) "*") ≠ join2 (join p (replicate (S d) "*")) "*")
      as Hne by (apply not_eq_sym, join2_ne; [done | by apply good_dir_nonempty]).
    rewrite bool_decide_eq_true_2 by done.
    cbn [negb andb]. rewrite IH by lia. cbn [mbind Res_bind].
    change (glob.has_magic "*") with true. cbv iota.
    rewrite (mapM_Res_ok _
      (λ q, (λ n, join q [n]) <$>
            filter (λ x, glob.ishidden x = false) (glob.scandir fs q dironly))).
    2:{ intros q _. unfold glob.glob1. by rewrite bool_decide_eq_true_2. }
    cbn [mbind Res_bind]. f_equal.
    rewrite <- (concat_levels (S d) dironly). f_equal.
    rewrite <- list_fmap_compose. apply list_fmap_ext.
    intros i ns Hns%list_elem_of_lookup_2.
    simpl. by rewrite (scandir_levels (S d)).
Qed.

Lemma length_join_stars d : (d ≤ String.length (join p (replicate d "*")))%nat.
Proof.
  induction d as [|d IH]; [lia|].
  rewrite replicate_S_end, join_snoc. unfold join2.
  change (startswith_sep "*") with false. cbv iota.
  destruct (is_empty _ || endswith_sep _); rewrite !length_append; simpl; lia.
Qed.

Lemma glob_stars (Hmagic : glob.has_magic p = false) d :
  glob.glob fs (join p (replicate (S d) "*"))
  = Ok (join p <$> levels (tree fs) K (S d) false).
Proof.
  unfold glob.glob. apply iglob_stars; [done|].
  pose proof (length_join_stars (S d)). lia.
Qed.

End glob_stars.

(** ** One scan of [existing] *)

Lemma list_filter_fmap_pre {A B} (f : A → B) (P : B → Prop)
    `{∀ x, Decision (P x)} (l : list A) :
  filter P (f <$> l) = f <$> filter (P ∘ f) l.
Proof.
  induction l as [|a l IH]; [done|].
  rewrite fmap_cons, !filter_cons. unfold compose at 1.
  destruct (decide (P (f a))); by rewrite ?fmap_cons, IH.
Qed.

Lemma read_of_exists {V} (df : DataFile.t V) fs pth :
  DataFile.exists_ df pth fs = true →
  DataFile.read df pth fs = Ok (read_value df fs pth).
Proof.
  intros Hex. unfold read_value, DataFile.read. rewrite Hex. simpl.
  revert Hex. unfold DataFile.exists_, os.isfile, os.stat, io_.read_file.
  destruct (os.locate fs _) as [k|e]; [|done].
  by destruct (node_at (tree fs) k) as [[|s]|].
Qed.

Section scan.
Import posixpath.

Context {Loc : Type} (fs : FS) (p : string) (K : list string).
Context (Hgood : good_dir p = true) (Habs : isabs p = true).
Context (Hmagic : glob.has_magic p = false).
Context (Hloc : os.locate fs p = Ok K).
Context (HK : node_at (tree fs) K = Some Dir) (Hnames : names_ok (tree fs) K).

Lemma levels_false_locate d dironly ns :
  ns ∈ levels (tree fs) K (S d) dironly →
  os.locate fs (join p ns) = Ok (K ++ ns) ∧ isabs (join p ns) = true ∧
  K ++ ns ≠ [] ∧ good_dir (join p ns) = true.
Proof.
  intros (Hlen & _ & Hdirs)%elem_of_levels.
  assert (Forall (λ s, is_name s = true) ns) as Hns.
  { apply Hnames. destruct (Hdirs (S d)) as (nd & Hnd & _); [lia|].
    rewrite take_ge in Hnd by lia. by eexists. }
  destruct (join_names fs p ns K) as (Hl & Hg & Ha); try done.
  - intros [|i] Hi; [by rewrite take_0, app_nil_r|].
    destruct (Hdirs (S i)) as (nd & Hnd & Hd); [lia|].
    rewrite Hd in Hnd by (left; lia).
    apply node_at_lookup; [|done]. destruct ns; [simpl in Hi; lia | by destruct K].
  - split_and!; [done | congruence | | done].
    destruct ns; [done | by destruct K].
Qed.

Lemma levels_dirs_only d :
  filter (λ ns, os.isdir fs (join p ns) = true) (levels (tree fs) K (S d) false)
  ≡ₚ levels (tree fs) K (S d) true.
Proof.
  apply NoDup_Permutation; [apply NoDup_filter|..]; try apply NoDup_levels.
  intros ns. rewrite list_elem_of_filter. split.
  - intros [Hdir Hns].
    destruct (levels_false_locate _ _ _ Hns) as (Hl & _ & Hne & _).
    apply elem_of_levels in Hns as (Hlen & Hvis & Hdirs).
    apply elem_of_levels. split_and!; [done..|].
    intros i Hi. destruct (Hdirs i Hi) as (nd & Hnd & Hd).
    exists nd. split; [done|]. intros _.
    destruct (decide (i = S d)) as [->|]; [|apply Hd; left; lia].
    rewrite take_ge in Hnd by lia.
    revert Hdir. unfold os.isdir, os.stat. rewrite Hl.
    rewrite (node_at_lookup _ _ _ Hne Hnd). by destruct nd.
  - intros Hns. pose proof (levels_false_locate _ _ _ Hns) as (Hl & _ & Hne & _).
    apply elem_of_levels in Hns as (Hlen & Hvis & Hdirs). split.
    + unfold os.isdir, os.stat. rewrite Hl.
      destruct (Hdirs (S d)) as (nd & Hnd & Hd); [lia|].
      rewrite take_ge in Hnd by lia. rewrite Hd in Hnd by by right.
      by rewrite (node_at_lookup _ _ _ Hne Hnd).
    + apply elem_of_levels. split_and!; [done..|].
      intros i Hi. destruct (Hdirs i Hi) as (nd & Hnd & Hd).
      exists nd. split; [done|]. intros [?|?]; [|done]. apply Hd. by left.
Qed.

(** The directories that [_existing_paths] returns for prefix [p]. *)
Lemma existing_paths_scan d :
  ∃ pths,
    (found ← glob.glob fs (join p (replicate (S d) "*"));
     let pths := filter (λ q, os.isdir fs q = true) found in
     Ok (sorted (map (λ pth, join p [pth]) pths))) = Ok pths ∧
    pths ≡ₚ join p <$> levels (tree fs) K (S d) true.
Proof.
  rewrite (glob_stars fs p K) by done. cbn [mbind Res_bind].
  eexists. split; [done|].
  unfold sorted. rewrite merge_sort_Permutation.
  rewrite list_filter_fmap_pre.
  change (map ?f ?l) with (f <$> l).
  rewrite <- list_fmap_compose.
  rewrite <- levels_dirs_only.
  apply reflexive_eq, list_fmap_ext.
  intros i ns [_ Hns]%list_elem_of_lookup_2%list_elem_of_filter. simpl.
  destruct (levels_false_locate _ _ _ Hns) as (_ & Ha & _).
  by apply join2_abs.
Qed.

End scan.

#[local] Arguments DataSeries._existing_paths : simpl never.

Lemma existing_full_prefix {Loc} fuel (self : DataSeries.t Loc) root_locs relative
    df fs :
  (DataSeries.nlocs self > 0)%Z →
  DataSeries.loc_dfile self = Some df →
  DataSeries.root_locator_count self = len root_locs →
  DataSeries.existing fuel self root_locs relative fs =
  (pths ← DataSeries._existing_paths self root_locs fs;
   locs_lst ← mapM (λ pth, DataFile.read df pth fs)
                   (filter (λ pth, DataFile.exists_ df pth fs = true) pths);
   Ok (if relative then locs_lst else map (app root_locs) locs_lst)).
Proof.
  intros Hn Hdf Hcount.
  destruct fuel; simpl; rewrite Hdf;
    rewrite (bool_decide_eq_false_2 (DataSeries.nlocs self = 0%Z)) by lia;
    rewrite (bool_decide_eq_true_2 (DataSeries.nlocs self > 0)%Z) by done;
    rewrite bool_decide_eq_false_2 by lia;
    by rewrite bool_decide_eq_true_2 by done.
Qed.

Section scan_existing.
Import posixpath.

Context {Loc : Type} (fs : FS) (p : string) (K : list string).
Context (Hgood : good_dir p = true) (Habs : isabs p = true).
Context (Hmagic : glob.has_magic p = false).
Context (Hloc : os.locate fs p = Ok K).
Context (HK : node_at (tree fs) K = Some Dir) (Hnames : names_ok (tree fs) K).

(** [existing] with a full root prefix: the locators read from the locator
    files of the directories [d] levels beneath the resolved prefix. *)
Lemma existing_scan fuel (self : DataSeries.t Loc) root_locs relative df d :
  (DataSeries.nlocs self > 0)%Z →
  DataSeries.loc_dfile self = Some df →
  DataSeries.root_locator_count self = len root_locs →
  DataSeries.depth self = Z.of_nat (S d) →
  match DataSeries.root self with
  | None => Ok (DataSeries.prefix self)
  | Some r => DataSeries.path r root_locs fs
  end = Ok p →
  ∃ res,
    DataSeries.existing fuel self root_locs relative fs
    = Ok (if relative then res else app root_locs <$> res) ∧
    res ≡ₚ (read_value df fs ∘ join p) <$>
           filter (λ ns, DataFile.exists_ df (join p ns) fs = true)
                  (levels (tree fs) K (S d) true).
Proof.
  intros Hn Hdf Hcount Hdepth Hprefix.
  rewrite (existing_full_prefix _ _ _ _ df) by done.
  destruct (existing_paths_scan fs p K Hgood Habs Hmagic Hloc HK Hnames d)
    as (pths & Hpths & Hperm).
  assert (DataSeries._existing_paths self root_locs fs = Ok pths) as ->.
  { unfold DataSeries._existing_paths. rewrite Hprefix, Hdepth, Nat2Z.id.
    exact Hpths. }
  cbn [mbind Res_bind].
  rewrite (mapM_Res_ok _ (read_value df fs)).
  2:{ intros pth [Hex _]%list_elem_of_filter. by apply read_of_exists. }
  cbn [mbind Res_bind]. eexists. split; [done|].
  rewrite Hperm, list_filter_fmap_pre. by rewrite <- list_fmap_compose.
Qed.

End scan_existing.

(** ** One directory created *)

Section create_effect.
Import posixpath.

Lemma good_dir_join2_path p segs :
  good_dir p = true → segs ≠ [] → Forall (λ s, is_name s = true) segs →
  good_dir (join2 p (join_str segs)) = true.
Proof.
  intros [Hne Hend]%andb_true_iff Hsegs Hnames. apply negb_true_iff in Hne.
  pose proof (join_str_nonempty _ Hsegs Hnames) as Hxne.
  pose proof (join_str_endswith _ Hsegs Hnames) as Hxend.
  unfold join2. rewrite (join_str_startswith _ Hnames), Hne.
  cbn [orb]. unfold good_dir.
  destruct (endswith_sep p).
  - rewrite is_empty_append, Hne, (endswith_sep_append p), Hxend by done.
    cbn [andb negb]. by rewrite orb_true_r.
  - rewrite is_empty_append, Hne. cbn [andb negb].
    rewrite (endswith_sep_append p) by done.
    rewrite (endswith_sep_append "/"), Hxend by done.
    cbn [negb]. by rewrite orb_true_r.
Qed.

Context {Loc : Type} (fs : FS) (p : string) (K : list string).
Context (Hgood : good_dir p = true).
Context (Hloc : os.locate fs p = Ok K).
Context (HK : node_at (tree fs) K = Some Dir).

Lemma locate_kept fs' q k :
  dirs_kept (tree fs) (tree fs') → cwd fs' = cwd fs →
  os.locate fs q = Ok k → os.locate fs' q = Ok k.
Proof.
  intros Hkept Hcwd. unfold os.locate, os.start_dir. rewrite Hcwd.
  destruct (is_empty q); [done|]. by apply walk_dirs_kept.
Qed.

Lemma create_own_effect (self : DataSeries.t Loc) locs sl df segs fs' :
  DataSeries.path self locs fs = Ok (join2 p (join_str segs)) →
  DataSeries._self_locators self locs = Ok sl →
  DataSeries.loc_dfile self = Some df → is_name (DataFile.name df) = true →
  segs ≠ [] → Forall (λ s, is_name s = true) segs →
  run (create_own self locs) fs = (fs', Ok tt) →
  cwd fs' = cwd fs ∧
  ((node_at (tree fs) (K ++ segs) = Some Dir ∧ fs' = fs) ∨
   ((∀ i, (0 < i ≤ length segs)%nat →
          node_at (tree fs') (K ++ take i segs) = Some Dir) ∧
    tree fs' !! (K ++ segs ++ [DataFile.name df])
      = Some (File (DataFile.writer_ df sl)) ∧
    (∀ k, (∀ i, (0 < i ≤ length segs)%nat → k ≠ K ++ take i segs) →
          k ≠ K ++ segs ++ [DataFile.name df] →
          node_at (tree fs') k = node_at (tree fs) k) ∧
    (∀ i c, (0 < i ≤ length segs)%nat →
            node_at (tree fs) (K ++ take i segs) ≠ Some (File c)))).
Proof.
  intros Hpath Hsl Hdf Hname Hsegs Hnames Hrun.
  pose proof (create_own_kept _ _ _ _ _ Hrun) as [_ Hcwd]. split; [done|].
  revert Hrun. unfold create_own. rewrite !run_bind. cbn [run inspect].
  unfold DataSeries.exists_. rewrite Hpath. cbn [mbind Res_bind].
  destruct (os.isdir fs _) eqn:Hdir; cbn [negb].
  { intros [= <-]. left. split; [|done].
    revert Hdir. unfold os.isdir, os.stat.
    rewrite (locate_join2 fs p segs K) by done.
    destruct (os.walk (tree fs) K segs) as [k|e] eqn:Hw; [|done].
    apply walk_names_inv in Hw as [-> _]; [|done].
    by destruct (node_at (tree fs) (K ++ segs)) as [[|s]|]. }
  rewrite run_bind. cbn [run inspect]. rewrite Hpath. cbv beta iota.
  rewrite run_bind. cbn [run].
  rewrite (makedirs_join2 fs p segs K) by done.
  destruct (os.makedirs_walk (tree fs) K segs false) as [t1 r1] eqn:Hmk.
  destruct r1 as [[]|e]; [|done].
  pose proof (makedirs_walk_kept _ _ _ _ _ _ Hmk) as Hkept1.
  pose proof (makedirs_walk_no_file _ _ _ _ _ Hnames Hmk) as Hnofile.
  apply makedirs_walk_names in Hmk as [Hdirs1 Hrest1]; [|done].
  rewrite Hdf, run_bind. cbn [run inspect]. rewrite Hsl. cbv beta iota.
  set (fs1 := mkFS t1 (cwd fs)). set (pth := join2 p (join_str segs)).
  assert (os.locate fs1 pth = Ok (K ++ segs)) as Hpth.
  { unfold pth. rewrite (locate_join2 fs1 p segs K); try done.
    - apply walk_names; [done|]. intros [|i] Hi.
      + rewrite take_0, app_nil_r. by apply Hkept1.
      + apply Hdirs1. lia.
    - by apply (locate_kept fs1) in Hloc.
    - by apply Hkept1. }
  assert (node_at t1 (K ++ segs) = Some Dir) as Hleaf.
  { specialize (Hdirs1 (length segs)). rewrite take_ge in Hdirs1 by lia.
    apply Hdirs1. destruct segs; [done | simpl; lia]. }
  intros Hw%DataFile_write_inv. destruct Hw as [_ Hw].
  apply write_file_inv in Hw as (k & Hk & Hnd & ->).
  unfold DataFile.path in Hk.
  rewrite (locate_join_name fs1 pth _ (K ++ segs)) in Hk; try done.
  2:{ by apply good_dir_join2_path. }
  injection Hk as <-. simpl. right.
  assert (∀ i, (K ++ segs) ++ [DataFile.name df] ≠ K ++ take i segs) as Hfresh.
  { intros i Heq. apply (f_equal length) in Heq.
    rewrite !length_app, length_take in Heq. simpl in Heq. lia. }
  split_and!.
  - intros i Hi. rewrite node_at_insert_ne by apply Hfresh. by apply Hdirs1.
  - rewrite <- app_assoc. rewrite app_assoc. by rewrite lookup_insert_eq.
  - intros k Hk1 Hk2. rewrite node_at_insert_ne.
    + by apply Hrest1.
    + rewrite <- app_assoc. by apply not_eq_sym.
  - intros i c Hi. by apply Hnofile.
Qed.

End create_effect.

(** ** Paths of visible names *)

Lemma visible_path_inv (pth : string) (d : Z) :
  visible_path pth d = true →
  pth = posixpath.join_str (posixpath.split_str pth) ∧
  len (posixpath.split_str pth) = d ∧
  Forall (λ s, visible s = true) (posixpath.split_str pth).
Proof.
  unfold visible_path. intros [Hlen Hvis]%andb_true_iff.
  apply bool_decide_eq_true in Hlen. split_and!; [|done|].
  - by rewrite join_str_split_str.
  - apply Forall_forall. intros x Hx%list_elem_of_In.
    rewrite forallb_forall in Hvis. by apply Hvis.
Qed.

Lemma visible_not_hidden (s : string) : visible s = true → glob.ishidden s = false.
Proof. unfold visible. by intros [_ ?%negb_true_iff]%andb_true_iff. Qed.

Lemma node_at_app t (K r : list string) :
  r ≠ [] → node_at t (K ++ r) = t !! (K ++ r).
Proof.
  intros Hr. destruct (K ++ r) eqn:HKr; [|done].
  by apply app_eq_nil in HKr as [_ ?].
Qed.

Lemma elem_of_middle_cons {A} (x y : A) (l k : list A) :
  x ∈ l ++ y :: k → x ∈ (y :: l) ++ k.
Proof.
  simpl. rewrite elem_of_cons, !elem_of_app, elem_of_cons. tauto.
Qed.

Lemma root_locator_count_rootless {Loc} (self : DataSeries.t Loc) :
  DataSeries.root self = None → DataSeries.root_locator_count self = 0%Z.
Proof. by destruct self as [? ? ? ? ? [r|] ?]. Qed.


(** ** A map that sends two tuples to one directory *)


(** ** The flag [relative] *)

(** With a root prefix shorter than the root arity, [existing] gives the
    same answer for either value of [relative]: the calls it makes for the
    existing root prefixes do not pass the flag on. *)
Lemma existing_recursion_ignores_relative {Loc} fuel (self : DataSeries.t Loc)
    root_locs fs :
  (len root_locs < DataSeries.root_locator_count self)%Z →
  DataSeries.existing fuel self root_locs true fs
  = DataSeries.existing fuel self root_locs false fs.
Proof.
  intros Hshort. destruct fuel; simpl;
    (case_bool_decide; [done|]);
    (destruct (assert _); [simpl|done]);
    (destruct (DataSeries.loc_dfile self); [|done]);
    by rewrite bool_decide_eq_true_2 by done.
Qed.

(** With a full root prefix the flag is honoured: the tuples of the
    [relative=False] answer are those of the [relative=True] answer with the
    root prefix put in front. *)
Lemma existing_full_prefix_relative {Loc} fuel (self : DataSeries.t Loc)
    root_locs df fs res :
  (DataSeries.nlocs self > 0)%Z →
  DataSeries.loc_dfile self = Some df →
  DataSeries.root_locator_count self = len root_locs →
  DataSeries.existing fuel self root_locs true fs = Ok res →
  DataSeries.existing fuel self root_locs false fs = Ok (app root_locs <$> res).
Proof.
  intros Hn Hdf Hcount.
  rewrite !(existing_full_prefix _ _ _ _ df) by done.
  destruct (DataSeries._existing_paths self root_locs fs) as [pths|e]; [|done].
  cbn [mbind Res_bind].
  destruct (mapM _ _) as [locs_lst|e]; [|done].
  cbn [mbind Res_bind]. by intros [= ->].
Qed.

(** C5, on the two-level chain of the scenario after [create] for
    [("1","a")], [("1","b")] and [("2","a")].  With the full root prefix
    [("1",)] the flag works: bare tuples for [relative=True], prefixed ones
    for [relative=False].  With the empty root prefix, [relative=False]
    yields the three full tuples, and so does [relative=True], where the
    bare tuples [("a",)], [("b",)], [("a",)] are due. *)
Theorem existing_relative_on_chain :
  let fs := (run (create_all Scenario.child [["1"; "a"]; ["1"; "b"]; ["2"; "a"]])
                 Scenario.fs0).1 in
  DataSeries.existing 1 Scenario.child ["1"] true fs = Ok [["a"]; ["b"]] ∧
  DataSeries.existing 1 Scenario.child ["1"] false fs
    = Ok [["1"; "a"]; ["1"; "b"]] ∧
  DataSeries.existing 1 Scenario.child [] false fs
    = Ok [["1"; "a"]; ["1"; "b"]; ["2"; "a"]] ∧
  DataSeries.existing 1 Scenario.child [] true fs
    = Ok [["1"; "a"]; ["1"; "b"]; ["2"; "a"]].
Proof. split_and!; by vm_compute. Qed.

(** ** When [write] succeeds *)

(** [write] returns for a directory that exists, named in the form of
    [good_dir], when the name of the file is a plain name and no directory
    of that name is in the way. *)
Lemma write_succeeds {V} (df : DataFile.t V) (v : V) (dir_pth : string)
    (K : list string) (fs : FS) :
  good_dir dir_pth = true →
  os.locate fs dir_pth = Ok K → node_at (tree fs) K = Some Dir →
  is_name (DataFile.name df) = true →
  node_at (tree fs) (K ++ [DataFile.name df]) ≠ Some Dir →
  ∃ fs', run (DataFile.write df v dir_pth) fs = (fs', Ok tt) ∧
         DataFile.read df dir_pth fs' = Ok (DataFile.reader_ df (DataFile.writer_ df v)).
Proof.
  intros Hgood Hloc HK Hname Hfree.
  assert (run (DataFile.write df v dir_pth) fs
          = (mkFS (<[K ++ [DataFile.name df] := File (DataFile.writer_ df v)]> (tree fs))
                  (cwd fs), Ok tt)) as Hrun.
  { unfold DataFile.write. rewrite run_bind. cbn [run inspect].
    unfold os.exists_, os.stat. rewrite Hloc, HK. cbn [assert].
    unfold io_.write_file, DataFile.path.
    rewrite (locate_join_name fs dir_pth _ K) by done.
    by destruct (node_at (tree fs) (K ++ [DataFile.name df])) as [[|s]|]. }
  eexists. split; [done|].
  pose proof Hrun as [_ Hw]%DataFile_write_inv.
  apply write_file_read_file in Hw as [Hfile Hread].
  unfold DataFile.read, DataFile.exists_.
  rewrite Hfile. cbn [assert mbind Res_bind]. by rewrite Hread.
Qed.

(** ** Root chains *)

Section chain_basics.
Context {Loc : Type}.
Implicit Types (a r : DataSeries.t Loc) (R : list Loc).

(** Induction along the root chain, by the attribute [root]. *)
Lemma chain_ind' (P : DataSeries.t Loc → Prop) :
  (∀ a, DataSeries.root a = None → P a) →
  (∀ a r, DataSeries.root a = Some r → P r → P a) →
  ∀ a, P a.
Proof.
  intros Hnone Hsome a.
  induction a as [p m n d l rm|p m n d l r rm IH] using DataSeries_chain_ind.
  - by apply Hnone.
  - by apply (Hsome _ r).
Qed.

Lemma chain_segs_unfold a R :
  chain_segs a R =
  match DataSeries.root a with
  | None => []
  | Some r => chain_segs r (root_locs a R)
  end ++ own_segs a R.
Proof. by destruct a. Qed.

Lemma chain_path_unfold a R :
  chain_path a R =
  posixpath.join2
    match DataSeries.root a with
    | None => DataSeries.prefix a
    | Some r => chain_path r (root_locs a R)
    end
    (DataSeries.map_ a (own_locs a R)).
Proof. by destruct a. Qed.

Lemma chain_files_unfold a R :
  chain_files a R =
  match DataSeries.root a with
  | None => []
  | Some r => chain_files r (root_locs a R)
  end ++
  match DataSeries.loc_dfile a with
  | Some df => [(chain_segs a R ++ [DataFile.name df],
                 DataFile.writer_ df (own_locs a R))]
  | None => []
  end.
Proof. by destruct a. Qed.

Lemma chain_prefix_unfold a :
  chain_prefix a =
  match DataSeries.root a with
  | None => DataSeries.prefix a
  | Some r => chain_prefix r
  end.
Proof. by destruct a. Qed.

Lemma chain_height_unfold a :
  chain_height a =
  match DataSeries.root a with None => O | Some r => S (chain_height r) end.
Proof. by destruct a. Qed.

Lemma chain_ok_unfold a :
  chain_ok a ↔
  (0 ≤ DataSeries.nlocs a)%Z ∧ (DataSeries.depth a > 0)%Z ∧
  match DataSeries.loc_dfile a with
  | Some df => is_name (DataFile.name df) = true
  | None => DataSeries.nlocs a = 0%Z
  end ∧
  (DataSeries.nlocs a = 0%Z →
   DataSeries.root_locator_count a = 0%Z ∧
   names_path (DataSeries.map_ a []) (DataSeries.depth a) = true ∧
   glob.has_magic (DataSeries.map_ a []) = false) ∧
  match DataSeries.root a with None => True | Some r => chain_ok r end.
Proof. by destruct a. Qed.

Lemma laid_out_unfold a R :
  laid_out a R ↔
  len R = (DataSeries.nlocs a + DataSeries.root_locator_count a)%Z ∧
  (if bool_decide (DataSeries.nlocs a = 0%Z) then names_path else visible_path)
    (DataSeries.map_ a (own_locs a R)) (DataSeries.depth a) = true ∧
  match DataSeries.loc_dfile a with
  | Some df =>
      DataSeries.nlocs a = 0%Z ∨
      DataFile.reader_ df (DataFile.writer_ df (own_locs a R)) = own_locs a R
  | None => True
  end ∧
  match DataSeries.root a with
  | None => True
  | Some r =>
      glob.has_magic (DataSeries.map_ r (own_locs r (root_locs a R))) = false ∧
      laid_out r (root_locs a R)
  end.
Proof. by destruct a. Qed.

Lemma apart_unfold a R R' :
  apart a R R' ↔
  (chain_segs a R = chain_segs a R' → R = R') ∧
  match DataSeries.root a with
  | None => True
  | Some r => apart r (root_locs a R) (root_locs a R')
  end.
Proof. by destruct a. Qed.

Lemma root_locator_count_unfold a :
  DataSeries.root_locator_count a =
  match DataSeries.root a with
  | None => 0%Z
  | Some r => (DataSeries.nlocs r + DataSeries.root_locator_count r)%Z
  end.
Proof. by destruct a as [? ? ? ? ? [r|] ?]. Qed.

Lemma root_locator_count_nonneg a :
  chain_ok a → (0 ≤ DataSeries.root_locator_count a)%Z.
Proof.
  induction a as [a Hroot|a r Hroot IH] using chain_ind';
    rewrite chain_ok_unfold, root_locator_count_unfold, Hroot; [lia|].
  intros (_ & _ & _ & _ & Hr). specialize (IH Hr).
  apply chain_ok_unfold in Hr as (? & _). lia.
Qed.

Lemma root_locator_count_pos a r :
  chain_ok a → DataSeries.root a = Some r → (DataSeries.nlocs r > 0)%Z →
  (0 < DataSeries.root_locator_count a)%Z.
Proof.
  intros Hok Hroot Hn. rewrite root_locator_count_unfold, Hroot.
  apply chain_ok_unfold in Hok as (_ & _ & _ & _ & Hr). rewrite Hroot in Hr.
  pose proof (root_locator_count_nonneg _ Hr). lia.
Qed.

(** A series that takes no locators has none above it. *)
Lemma root_locator_count_trunk a :
  chain_ok a → DataSeries.nlocs a = 0%Z → DataSeries.root_locator_count a = 0%Z.
Proof. intros (_ & _ & _ & Htr & _)%chain_ok_unfold Hn. by apply Htr. Qed.

(** The two parts of a tuple of the right length. *)
Lemma laid_out_split a R :
  chain_ok a → laid_out a R →
  len (own_locs a R) = DataSeries.nlocs a ∧
  len (root_locs a R) = DataSeries.root_locator_count a ∧
  root_locs a R ++ own_locs a R = R ∧
  DataSeries._root_locators a R = Ok (root_locs a R) ∧
  DataSeries._self_locators a R = Ok (own_locs a R).
Proof.
  intros Hok (Hlen & _)%laid_out_unfold.
  pose proof (root_locator_count_nonneg _ Hok) as Hrc.
  apply chain_ok_unfold in Hok as (Hn & _).
  unfold own_locs, root_locs, DataSeries._root_locators, DataSeries._self_locators.
  rewrite bool_decide_eq_true_2 by lia. unfold len in *. simpl.
  rewrite length_drop, length_take, take_drop. split_and!; try done; lia.
Qed.

Lemma own_locs_rootless a R :
  DataSeries.root a = None → chain_ok a → laid_out a R → own_locs a R = R.
Proof.
  intros Hroot Hok (Hlen & _)%laid_out_unfold.
  rewrite root_locator_count_unfold, Hroot in Hlen.
  unfold own_locs. by replace (len R - DataSeries.nlocs a)%Z with 0%Z by lia.
Qed.

Lemma chain_depth_unfold a :
  chain_depth a =
  (match DataSeries.root a with None => O | Some r => chain_depth r end
   + Z.to_nat (DataSeries.depth a))%nat.
Proof. by destruct a. Qed.

Lemma names_path_inv (pth : string) (d : Z) :
  names_path pth d = true →
  ∃ names, pth = posixpath.join_str names ∧ names ≠ [] ∧ len names = d ∧
           Forall (λ s, is_name s = true) names.
Proof.
  unfold names_path. intros [Hlen Hall]%andb_true_iff.
  apply bool_decide_eq_true in Hlen. exists (posixpath.split_str pth).
  split_and!; [by rewrite join_str_split_str | apply split_str_nonempty | done |].
  apply Forall_forall. intros x Hx%list_elem_of_In.
  rewrite forallb_forall in Hall. by apply Hall.
Qed.

Lemma visible_names_path (pth : string) (d : Z) :
  visible_path pth d = true → names_path pth d = true.
Proof.
  unfold visible_path, names_path. intros [Hlen Hvis]%andb_true_iff.
  rewrite Hlen. simpl. apply forallb_forall. intros x Hx.
  rewrite forallb_forall in Hvis. by apply visible_is_name, Hvis.
Qed.

(** The names that the map of a level yields for a tuple. *)
Lemma laid_out_names a R :
  laid_out a R →
  names_path (DataSeries.map_ a (own_locs a R)) (DataSeries.depth a) = true.
Proof.
  intros (_ & Hvis & _)%laid_out_unfold.
  case_bool_decide; [done | by apply visible_names_path].
Qed.

Lemma own_segs_ok a R :
  chain_ok a → laid_out a R →
  DataSeries.map_ a (own_locs a R) = posixpath.join_str (own_segs a R) ∧
  length (own_segs a R) = Z.to_nat (DataSeries.depth a) ∧
  (0 < length (own_segs a R))%nat ∧
  ((DataSeries.nlocs a > 0)%Z → Forall (λ s, visible s = true) (own_segs a R)) ∧
  Forall (λ s, is_name s = true) (own_segs a R) ∧
  own_segs a R ≠ [].
Proof.
  intros (_ & Hd & _)%chain_ok_unfold Hlaid.
  pose proof (laid_out_names _ _ Hlaid) as Hnp.
  apply laid_out_unfold in Hlaid as (_ & Hvis & _).
  unfold names_path in Hnp. apply andb_true_iff in Hnp as [Hlen Hnames].
  apply bool_decide_eq_true in Hlen.
  fold (own_segs a R) in *. unfold len in Hlen.
  assert (length (own_segs a R) = Z.to_nat (DataSeries.depth a)) as Hl by lia.
  split_and!; [ | done | lia | | |].
  - unfold own_segs. by rewrite join_str_split_str.
  - intros Hn. rewrite bool_decide_eq_false_2 in Hvis by lia.
    by apply visible_path_inv in Hvis as (_ & _ & Hvis).
  - apply Forall_forall. intros x Hx%list_elem_of_In.
    rewrite forallb_forall in Hnames. by apply Hnames.
  - intros Hnil. rewrite Hnil in Hl. simpl in Hl. lia.
Qed.

Lemma laid_out_root a r R :
  DataSeries.root a = Some r → chain_ok a → laid_out a R →
  chain_ok r ∧ laid_out r (root_locs a R) ∧
  glob.has_magic (DataSeries.map_ r (own_locs r (root_locs a R))) = false.
Proof.
  intros Hroot (_ & _ & _ & _ & Hok)%chain_ok_unfold
    (_ & _ & _ & Hlaid)%laid_out_unfold.
  rewrite Hroot in *. by destruct Hlaid.
Qed.

(** The empty tuple along a chain of series that take no locators. *)
Lemma laid_out_trunk a :
  chain_ok a → DataSeries.nlocs a = 0%Z → laid_out a [].
Proof.
  induction a as [a Hroot|a r Hroot IH] using chain_ind';
    intros Hok Hn; pose proof Hok as (_ & _ & _ & Htr & Hokr)%chain_ok_unfold;
    destruct (Htr Hn) as (Hrc & Hnp & Hm);
    apply laid_out_unfold; rewrite Hroot in *;
    rewrite bool_decide_eq_true_2 by done;
    unfold own_locs, root_locs; rewrite ?take_nil, ?drop_nil.
  - split_and!; [by rewrite Hn, Hrc | done | | done].
    destruct (DataSeries.loc_dfile a); [by left | done].
  - pose proof Hrc as Hrc'. rewrite root_locator_count_unfold, Hroot in Hrc'.
    pose proof Hokr as (Hnr & _)%chain_ok_unfold.
    pose proof (root_locator_count_nonneg _ Hokr) as Hrcr.
    assert (DataSeries.nlocs r = 0%Z) as Hnr0 by lia.
    pose proof Hokr as (_ & _ & _ & Htrr & _)%chain_ok_unfold.
    destruct (Htrr Hnr0) as (_ & _ & Hmr).
    split_and!; [by rewrite Hn, Hrc | done | | done | by apply IH].
    destruct (DataSeries.loc_dfile a); [by left | done].
Qed.

Lemma chain_segs_ok a R :
  chain_ok a → laid_out a R →
  length (chain_segs a R) = chain_depth a ∧
  Forall (λ s, is_name s = true) (chain_segs a R) ∧
  chain_segs a R ≠ [].
Proof.
  revert R. induction a as [a Hroot|a r Hroot IH] using chain_ind';
    intros R Hok Hlaid;
    destruct (own_segs_ok _ _ Hok Hlaid) as (_ & Hlen & _ & _ & Hnames & Hne);
    rewrite chain_segs_unfold, chain_depth_unfold, Hroot.
  - by split_and!.
  - destruct (laid_out_root _ _ _ Hroot Hok Hlaid) as (Hokr & Hlaidr & _).
    destruct (IH _ Hokr Hlaidr) as (Hlenr & Hnamesr & _).
    rewrite length_app. split_and!; [lia | by apply Forall_app |].
    intros [_ ?]%app_eq_nil. done.
Qed.

End chain_basics.

(** ** Paths along the chain *)

Section chain_paths.
Import posixpath.
Context {Loc : Type}.
Implicit Types (a r : DataSeries.t Loc) (R : list Loc).

Lemma path_own_Ok a pre locs fs p :
  path_own a pre locs fs = Ok p →
  len locs = DataSeries.nlocs a ∧ p = join2 pre (DataSeries.map_ a locs).
Proof.
  unfold path_own. intros (? & Hlen & Hp)%bind_Ok.
  repeat (apply bind_Ok in Hp as (? & _ & Hp)). injection Hp as <-.
  unfold assert in Hlen. by case_bool_decide.
Qed.

Lemma locators_Ok a R rl sl :
  DataSeries._root_locators a R = Ok rl → DataSeries._self_locators a R = Ok sl →
  rl = root_locs a R ∧ sl = own_locs a R.
Proof.
  unfold DataSeries._root_locators, DataSeries._self_locators.
  intros (? & _ & [= <-])%bind_Ok (? & _ & [= <-])%bind_Ok. done.
Qed.

(** A path that [path] yields is the one of [chain_path], and the path of
    the root tuple has been resolved on the way. *)
Lemma path_chain_path a R fs p :
  DataSeries.path a R fs = Ok p →
  p = chain_path a R ∧
  ∀ r, DataSeries.root a = Some r →
       DataSeries.path r (root_locs a R) fs = Ok (chain_path r (root_locs a R)).
Proof.
  revert R p. induction a as [a Hroot|a r Hroot IH] using chain_ind';
    intros R p; rewrite path_unfold, chain_path_unfold, Hroot.
  - intros [Hlen ->]%path_own_Ok. split; [|done].
    unfold own_locs. by rewrite Hlen, Z.sub_diag.
  - intros (rl & Hrl & Hp)%bind_Ok. apply bind_Ok in Hp as (sl & Hsl & Hp).
    destruct (locators_Ok _ _ _ _ Hrl Hsl) as [-> ->].
    apply bind_Ok in Hp as (pre & Hpre & Hp).
    destruct (IH _ _ Hpre) as [-> _].
    apply path_own_Ok in Hp as [_ ->]. split; [done|].
    by intros ? [= <-].
Qed.

Lemma has_magic_join2 p x :
  startswith_sep x = false →
  glob.has_magic (join2 p x) = glob.has_magic p || glob.has_magic x.
Proof.
  intros Hx. unfold join2. rewrite Hx.
  destruct (is_empty p || endswith_sep p); rewrite !has_magic_app; [done|].
  change (glob.has_magic "/") with false. by rewrite orb_false_l.
Qed.

Lemma isabs_join2_rel p x :
  startswith_sep x = false → is_empty p = false → isabs (join2 p x) = isabs p.
Proof.
  intros Hx Hp. unfold join2, isabs. rewrite Hx.
  by destruct (is_empty p || endswith_sep p); rewrite !startswith_sep_append.
Qed.

(** The form of the paths of well laid out tuples. *)
Lemma chain_path_form a R :
  chain_ok a → laid_out a R → good_dir (chain_prefix a) = true →
  good_dir (chain_path a R) = true ∧
  isabs (chain_path a R) = isabs (chain_prefix a) ∧
  (glob.has_magic (chain_prefix a) = false →
   glob.has_magic (DataSeries.map_ a (own_locs a R)) = false →
   glob.has_magic (chain_path a R) = false).
Proof.
  revert R. induction a as [a Hroot|a r Hroot IH] using chain_ind';
    intros R Hok Hlaid;
    destruct (own_segs_ok _ _ Hok Hlaid) as (Hmap & _ & _ & _ & Hnames & Hne);
    rewrite chain_path_unfold, chain_prefix_unfold, Hroot, Hmap; intros Hgood.
  - split_and!.
    + by apply good_dir_join2_path.
    + apply isabs_join2_rel; [by apply join_str_startswith|].
      by apply good_dir_nonempty.
    + intros Hp Hx. rewrite has_magic_join2 by by apply join_str_startswith.
      by rewrite Hp, Hx.
  - destruct (laid_out_root _ _ _ Hroot Hok Hlaid) as (Hokr & Hlaidr & Hmr).
    destruct (IH _ Hokr Hlaidr Hgood) as (Hg & Ha & Hm).
    split_and!.
    + by apply good_dir_join2_path.
    + rewrite <- Ha. apply isabs_join2_rel; [by apply join_str_startswith|].
      by apply good_dir_nonempty.
    + intros Hp Hx. rewrite has_magic_join2 by by apply join_str_startswith.
      by rewrite Hm, Hx.
Qed.

Lemma apart_refl a R : apart a R R.
Proof.
  revert R. induction a as [a Hroot|a r Hroot IH] using chain_ind'; intros R;
    apply apart_unfold; rewrite Hroot; split; done.
Qed.

Lemma apart_root a r R R' :
  DataSeries.root a = Some r → apart a R R' →
  apart r (root_locs a R) (root_locs a R').
Proof. intros Hroot [_ H]%apart_unfold. by rewrite Hroot in H. Qed.

Lemma apart_inj a R R' : apart a R R' → chain_segs a R = chain_segs a R' → R = R'.
Proof. by intros [H _]%apart_unfold. Qed.

End chain_paths.

(** ** What [create] does along the chain *)

Lemma take_app_cases {A} (l k : list A) (j : nat) :
  (0 < j ≤ length (l ++ k))%nat →
  ((0 < j ≤ length l)%nat ∧ take j (l ++ k) = take j l) ∨
  (∃ i, (0 < i ≤ length k)%nat ∧ j = (length l + i)%nat ∧
        take j (l ++ k) = l ++ take i k).
Proof.
  rewrite length_app. intros Hj. destruct (decide (j ≤ length l)%nat) as [Hle|Hgt].
  - left. split; [lia|]. by apply take_app_le.
  - right. exists (j - length l)%nat. split_and!; [lia..|].
    rewrite take_app, take_ge by lia. done.
Qed.

Lemma create_own_path {Loc} (a : DataSeries.t Loc) R fs fs' :
  run (create_own a R) fs = (fs', Ok tt) → ∃ pth, DataSeries.path a R fs = Ok pth.
Proof.
  unfold create_own. rewrite run_bind. cbn [run inspect].
  unfold DataSeries.exists_.
  destruct (DataSeries.path a R fs) as [pth|e]; [by eexists | done].
Qed.

(** What [create] does for the series itself, with or without a locator
    file. *)
Lemma create_own_effect_any {Loc} (fs : FS) (p : string) (K : list string)
    (self : DataSeries.t Loc) locs sl segs fs' :
  good_dir p = true → os.locate fs p = Ok K → node_at (tree fs) K = Some Dir →
  DataSeries.path self locs fs
  = Ok (posixpath.join2 p (posixpath.join_str segs)) →
  DataSeries._self_locators self locs = Ok sl →
  (∀ df, DataSeries.loc_dfile self = Some df → is_name (DataFile.name df) = true) →
  segs ≠ [] → Forall (λ s, is_name s = true) segs →
  run (create_own self locs) fs = (fs', Ok tt) →
  cwd fs' = cwd fs ∧
  ((node_at (tree fs) (K ++ segs) = Some Dir ∧ fs' = fs) ∨
   ((∀ i, (0 < i ≤ length segs)%nat →
          node_at (tree fs') (K ++ take i segs) = Some Dir) ∧
    (∀ df, DataSeries.loc_dfile self = Some df →
           tree fs' !! (K ++ segs ++ [DataFile.name df])
           = Some (File (DataFile.writer_ df sl))) ∧
    (∀ k, (∀ i, (0 < i ≤ length segs)%nat → k ≠ K ++ take i segs) →
          (∀ df, DataSeries.loc_dfile self = Some df →
                 k ≠ K ++ segs ++ [DataFile.name df]) →
          node_at (tree fs') k = node_at (tree fs) k) ∧
    (∀ i c, (0 < i ≤ length segs)%nat →
            node_at (tree fs) (K ++ take i segs) ≠ Some (File c)))).
Proof.
  intros Hgood Hloc HK Hpath Hsl Hname Hsegs Hnames Hrun.
  destruct (DataSeries.loc_dfile self) as [df|] eqn:Hdf.
  { destruct (create_own_effect fs p K Hgood Hloc HK self locs sl df segs fs'
                Hpath Hsl Hdf (Hname _ eq_refl) Hsegs Hnames Hrun)
      as (Hcwd & [Hsame | (Hdirs & Hfile & Hrest & Hnofile)]);
      (split; [done|]); [by left|]. right.
    split_and!; [done | by intros ? [= <-] | | done].
    intros k Hk1 Hk2. apply Hrest; [done|]. by apply Hk2. }
  pose proof (create_own_kept _ _ _ _ _ Hrun) as [_ Hcwd]. split; [done|].
  revert Hrun. unfold create_own. rewrite !run_bind. cbn [run inspect].
  unfold DataSeries.exists_. rewrite Hpath. cbn [mbind Res_bind].
  destruct (os.isdir fs _) eqn:Hdir; cbn [negb].
  { intros [= <-]. left. split; [|done].
    revert Hdir. unfold os.isdir, os.stat.
    rewrite (locate_join2 fs p segs K) by done.
    destruct (os.walk (tree fs) K segs) as [k|e] eqn:Hw; [|done].
    apply walk_names_inv in Hw as [-> _]; [|done].
    by destruct (node_at (tree fs) (K ++ segs)) as [[|s]|]. }
  rewrite run_bind. cbn [run inspect]. rewrite Hpath. cbv beta iota.
  rewrite run_bind. cbn [run].
  rewrite (makedirs_join2 fs p segs K) by done.
  destruct (os.makedirs_walk (tree fs) K segs false) as [t1 r1] eqn:Hmk.
  destruct r1 as [[]|e]; [|done].
  pose proof (makedirs_walk_no_file _ _ _ _ _ Hnames Hmk) as Hnofile.
  apply makedirs_walk_names in Hmk as [Hdirs1 Hrest1]; [|done].
  rewrite Hdf. intros [= <-]. right. cbn [tree].
  split_and!; [done | done | | done].
  intros k Hk1 _. by apply Hrest1.
Qed.

Section chain_effect.
Import posixpath.
Context {Loc : Type} (K : list string).
Implicit Types (a : DataSeries.t Loc) (R : list Loc).
Implicit Types (t : gmap (list string) node).

Lemma chain_files_own a R :
  chain_files a R =
  match DataSeries.root a with
  | None => []
  | Some r => chain_files r (root_locs a R)
  end ++ own_file a R.
Proof. by destruct a. Qed.

Lemma own_file_length a R x c :
  (x, c) ∈ own_file a R → length x = (length (chain_segs a R) + 1)%nat.
Proof.
  unfold own_file. destruct (DataSeries.loc_dfile a) as [df|];
    [|by intros ?%elem_of_nil].
  intros [= -> ->]%list_elem_of_singleton. by rewrite length_app.
Qed.

Lemma own_file_names a R x c :
  chain_ok a → Forall (λ s, is_name s = true) (chain_segs a R) →
  (x, c) ∈ own_file a R → Forall (λ s, is_name s = true) x.
Proof.
  intros (_ & _ & Hname & _)%chain_ok_unfold Hnames. unfold own_file.
  destruct (DataSeries.loc_dfile a) as [df|]; [|by intros ?%elem_of_nil].
  intros [= -> ->]%list_elem_of_singleton.
  apply Forall_app. split; [done | by constructor].
Qed.

Lemma complete_unfold a R t :
  complete K a R t ↔
  (node_at t (K ++ chain_segs a R) = Some Dir → dirs_to K a R t ∧ files_at K a R t) ∧
  match DataSeries.root a with
  | None => True
  | Some r => complete K r (root_locs a R) t
  end.
Proof. by destruct a. Qed.

Lemma dirs_to_root a (r : DataSeries.t Loc) R t :
  DataSeries.root a = Some r → dirs_to K a R t → dirs_to K r (root_locs a R) t.
Proof.
  intros Hroot Hdirs i Hi. specialize (Hdirs i).
  rewrite chain_segs_unfold, Hroot in Hdirs.
  rewrite take_app_le, length_app in Hdirs by lia. apply Hdirs. lia.
Qed.

Lemma files_at_root a (r : DataSeries.t Loc) R t :
  DataSeries.root a = Some r → files_at K a R t → files_at K r (root_locs a R) t.
Proof.
  intros Hroot Hfiles x c Hx. apply Hfiles.
  rewrite chain_files_unfold, Hroot. apply elem_of_app. by left.
Qed.

Lemma dirs_to_kept a R t t' : dirs_kept t t' → dirs_to K a R t → dirs_to K a R t'.
Proof. intros Hkept Hdirs i Hi. by apply Hkept, Hdirs. Qed.

Lemma locate_chain_path a R fs :
  chain_ok a → laid_out a R → good_dir (chain_prefix a) = true →
  os.locate fs (chain_prefix a) = Ok K → node_at (tree fs) K = Some Dir →
  dirs_to K a R (tree fs) →
  os.locate fs (chain_path a R) = Ok (K ++ chain_segs a R).
Proof.
  revert R. induction a as [a Hroot|a r Hroot IH] using chain_ind';
    intros R Hok Hlaid Hgood Hloc HK Hdirs;
    destruct (own_segs_ok _ _ Hok Hlaid) as (Hmap & _ & _ & _ & Hnames & Hne);
    unfold dirs_to in Hdirs;
    rewrite chain_path_unfold, chain_segs_unfold, Hroot, Hmap in *;
    rewrite chain_prefix_unfold, Hroot in Hgood, Hloc.
  - rewrite (locate_join2 fs _ _ K) by done. simpl.
    apply walk_names; [done|]. intros [|i] Hi; [by rewrite take_0, app_nil_r|].
    apply Hdirs. simpl. lia.
  - destruct (laid_out_root _ _ _ Hroot Hok Hlaid) as (Hokr & Hlaidr & _).
    destruct (chain_segs_ok _ _ Hokr Hlaidr) as (_ & _ & Hner).
    assert (dirs_to K r (root_locs a R) (tree fs)) as Hdr.
    { intros i Hi. specialize (Hdirs i).
      rewrite take_app_le, length_app in Hdirs by lia. apply Hdirs. lia. }
    assert (node_at (tree fs) (K ++ chain_segs r (root_locs a R)) = Some Dir) as HKr.
    { specialize (Hdr (length (chain_segs r (root_locs a R)))).
      rewrite take_ge in Hdr by lia. apply Hdr.
      destruct (chain_segs r (root_locs a R)); [done | simpl; lia]. }
    destruct (chain_path_form _ _ Hokr Hlaidr Hgood) as (Hg & _).
    rewrite (locate_join2 fs _ _ (K ++ chain_segs r (root_locs a R))); try done.
    + rewrite app_assoc. apply walk_names; [done|].
      intros [|i] Hi; [by rewrite take_0, app_nil_r|].
      rewrite <- app_assoc. rewrite <- take_app_add. apply Hdirs.
      rewrite length_app. lia.
    + by apply IH.
Qed.

(** The step of [create] for the series itself, after the root chain. *)
Lemma own_step a R (lr : list string) (fr : list (list string * string)) p
    fs1 fs' :
  chain_ok a → laid_out a R →
  chain_segs a R = lr ++ own_segs a R →
  chain_files a R = fr ++ own_file a R →
  good_dir p = true → os.locate fs1 p = Ok (K ++ lr) →
  node_at (tree fs1) (K ++ lr) = Some Dir →
  DataSeries.path a R fs1 = Ok (join2 p (DataSeries.map_ a (own_locs a R))) →
  (∀ i, (0 < i ≤ length lr)%nat → node_at (tree fs1) (K ++ take i lr) = Some Dir) →
  (∀ r c, (r, c) ∈ fr →
          tree fs1 !! (K ++ r) = Some (File c) ∧ (0 < length r ≤ length lr + 1)%nat) →
  (node_at (tree fs1) (K ++ chain_segs a R) = Some Dir →
   dirs_to K a R (tree fs1) ∧ files_at K a R (tree fs1)) →
  run (create_own a R) fs1 = (fs', Ok tt) →
  dirs_to K a R (tree fs') ∧ files_at K a R (tree fs') ∧
  (∀ k, (∀ i, (0 < i ≤ length (own_segs a R))%nat →
              k ≠ K ++ lr ++ take i (own_segs a R)) →
        (∀ x c, (x, c) ∈ own_file a R → k ≠ K ++ x) →
        node_at (tree fs') k = node_at (tree fs1) k) ∧
  (∀ i c, (0 < i ≤ length (own_segs a R))%nat →
          node_at (tree fs1) (K ++ lr ++ take i (own_segs a R)) ≠ Some (File c)).
Proof.
  intros Hok Hlaid Hsegs Hfiles Hgood Hloc HKr Hpath Hrdirs Hrfiles Hpre Hrun.
  destruct (own_segs_ok _ _ Hok Hlaid) as (Hmap & _ & Hpos & _ & Hnames & Hne).
  destruct (laid_out_split _ _ Hok Hlaid) as (_ & _ & _ & _ & Hsl).
  apply chain_ok_unfold in Hok as (_ & _ & Hname & _).
  pose proof (create_own_kept _ _ _ _ _ Hrun) as [Hkept Hcwd].
  rewrite Hmap in Hpath.
  destruct (create_own_effect_any fs1 p (K ++ lr) a R (own_locs a R)
              (own_segs a R) fs' Hgood Hloc HKr Hpath Hsl)
    as (_ & [[Hdir ->] | (Hdirs & Hfile & Hrest & Hnofile)]); try done.
  { intros df Hdf. by rewrite Hdf in Hname. }
  - rewrite <- app_assoc, <- Hsegs in Hdir. destruct (Hpre Hdir) as [Hd Hf].
    split_and!; [done | done | done |].
    intros i c Hi. specialize (Hd (length lr + i)%nat).
    rewrite Hsegs, take_app_add, length_app in Hd. rewrite Hd by lia. done.
  - split_and!.
    + intros j Hj. rewrite Hsegs in Hj |- *.
      destruct (take_app_cases _ _ _ Hj) as [[Hj' ->] | (i & Hi & -> & ->)].
      * by apply Hkept, Hrdirs.
      * rewrite app_assoc. by apply Hdirs.
    + intros r c. rewrite Hfiles, elem_of_app. intros [Hr | Hr].
      * destruct (Hrfiles _ _ Hr) as [Hfile1 Hlen].
        assert (r ≠ []) as Hrne by (destruct r; [simpl in Hlen; lia | done]).
        rewrite <- node_at_app in Hfile1 |- * by done.
        rewrite Hrest; [done| |].
        -- intros i Hi Heq. rewrite Heq in Hfile1. by eapply Hnofile.
        -- intros df _ Heq. rewrite <- app_assoc in Heq. apply app_inv_head in Heq.
           apply (f_equal length) in Heq. rewrite !length_app in Heq.
           simpl in Heq. lia.
      * revert Hr. unfold own_file.
        destruct (DataSeries.loc_dfile a) as [df|] eqn:Hdf;
          [|by intros ?%elem_of_nil].
        intros [= -> ->]%list_elem_of_singleton.
        specialize (Hfile df eq_refl).
        rewrite Hsegs, <- !app_assoc. rewrite <- !app_assoc in Hfile. done.
    + intros k Hk1 Hk2. apply Hrest.
      * intros i Hi. rewrite <- app_assoc. by apply Hk1.
      * intros df Hdf. rewrite <- app_assoc.
        rewrite (app_assoc lr), <- Hsegs.
        apply (Hk2 _ (DataFile.writer_ df (own_locs a R))).
        unfold own_file. rewrite Hdf. by left.
    + intros i c Hi. rewrite app_assoc. by apply Hnofile.
Qed.

End chain_effect.

Section chain_create.
Import posixpath.
Context {Loc : Type} (K : list string).
Implicit Types (a : DataSeries.t Loc) (R : list Loc).

Lemma chain_depth_pos a : chain_ok a → (0 < chain_depth a)%nat.
Proof.
  intros (_ & Hd & _)%chain_ok_unfold. rewrite chain_depth_unfold. lia.
Qed.

Lemma dirs_to_last a R t :
  chain_ok a → laid_out a R → dirs_to K a R t →
  node_at t (K ++ chain_segs a R) = Some Dir.
Proof.
  intros Hok Hlaid Hdirs. destruct (chain_segs_ok _ _ Hok Hlaid) as (Hlen & _).
  specialize (Hdirs (length (chain_segs a R))). rewrite take_ge in Hdirs by lia.
  apply Hdirs. pose proof (chain_depth_pos _ Hok). lia.
Qed.

(** [create] along the whole chain: the directories and the locator files
    of the tuple are there afterwards, and nothing else has changed. *)
Lemma create_chain_effect a : ∀ R fs fs',
  chain_ok a → laid_out a R → good_dir (chain_prefix a) = true →
  os.locate fs (chain_prefix a) = Ok K → node_at (tree fs) K = Some Dir →
  complete K a R (tree fs) →
  run (DataSeries.create a R) fs = (fs', Ok tt) →
  dirs_to K a R (tree fs') ∧ files_at K a R (tree fs') ∧
  (∀ k, (∀ i, (0 < i ≤ length (chain_segs a R))%nat →
              k ≠ K ++ take i (chain_segs a R)) →
        (∀ x c, (x, c) ∈ chain_files a R → k ≠ K ++ x) →
        node_at (tree fs') k = node_at (tree fs) k) ∧
  (∀ i c, (0 < i ≤ length (chain_segs a R))%nat →
          node_at (tree fs) (K ++ take i (chain_segs a R)) ≠ Some (File c)) ∧
  DataSeries.path a R fs = Ok (chain_path a R) ∧
  (∀ x c, (x, c) ∈ chain_files a R → (0 < length x ≤ chain_depth a + 1)%nat).
Proof.
  induction a as [a Hroot|a r Hroot IH] using chain_ind';
    intros R fs fs' Hok Hlaid Hgood Hloc HK Hpre Hrun;
    pose proof (chain_segs_ok _ _ Hok Hlaid) as (Hlen & _ & Hsne);
    pose proof (own_segs_ok _ _ Hok Hlaid) as (_ & Holen & Hopos & _);
    apply complete_unfold in Hpre as [Hown Hpre];
    rewrite create_unfold, Hroot in Hrun;
    pose proof (chain_segs_unfold a R) as Hsegs;
    pose proof (chain_files_own a R) as Hfiles;
    pose proof (chain_depth_unfold a) as Hdepth;
    rewrite Hroot in Hsegs, Hfiles, Hdepth, Hpre;
    rewrite chain_prefix_unfold, Hroot in Hgood, Hloc.
  - destruct (create_own_path _ _ _ _ Hrun) as [pth Hpath].
    destruct (path_chain_path _ _ _ _ Hpath) as [-> _].
    pose proof Hpath as Hpath'. rewrite chain_path_unfold, Hroot in Hpath'.
    destruct (own_step K a R [] [] (DataSeries.prefix a) fs fs')
      as (Hd & Hf & Hrest & Hnofile); try done.
    { by rewrite app_nil_r. }
    { by rewrite app_nil_r. }
    { intros i Hi. simpl in Hi. lia. }
    { by intros x c ?%elem_of_nil. }
    split_and!; [done | done | | | done |].
    + intros k Hk1 Hk2. apply Hrest.
      * intros i Hi. simpl. rewrite Hsegs in Hk1. by apply Hk1.
      * intros x c Hx. apply (Hk2 x c). by rewrite Hfiles.
    + intros i c Hi. rewrite Hsegs in Hi |- *. by apply (Hnofile i c).
    + intros x c. rewrite Hfiles. simpl. intros Hx%own_file_length. lia.
  - destruct (laid_out_split _ _ Hok Hlaid) as (_ & _ & _ & Hrl & _).
    destruct (laid_out_root _ _ _ Hroot Hok Hlaid) as (Hokr & Hlaidr & _).
    pose proof (chain_segs_ok _ _ Hokr Hlaidr) as (Hlenr & _ & Hsner).
    rewrite Hrl in Hrun.
    destruct (run (DataSeries.create r (root_locs a R)) fs)
      as [fs1 [[]|e]] eqn:Hrun1; [|done].
    destruct (IH _ _ _ Hokr Hlaidr Hgood Hloc HK Hpre Hrun1)
      as (Hdr & Hfr & Hrestr & Hnofiler & Hpathr & Hlensr).
    pose proof (create_kept _ _ _ _ _ Hrun1) as [Hkept1 Hcwd1].
    assert (os.locate fs1 (chain_prefix r) = Ok K) as Hloc1.
    { revert Hloc. unfold os.locate, os.start_dir. rewrite Hcwd1.
      destruct (is_empty _); [done|]. by apply walk_dirs_kept. }
    pose proof (locate_chain_path K r _ fs1 Hokr Hlaidr Hgood Hloc1
                  (Hkept1 _ HK) Hdr) as Hlocr.
    pose proof (dirs_to_last _ _ _ Hokr Hlaidr Hdr) as HKr.
    destruct (chain_path_form _ _ Hokr Hlaidr Hgood) as (Hgoodr & _).
    destruct (create_own_path _ _ _ _ Hrun) as [pth Hpath].
    destruct (path_chain_path _ _ _ _ Hpath) as [-> _].
    pose proof Hpath as Hpath'. rewrite chain_path_unfold, Hroot in Hpath'.
    (* keys of the series' own are not those of the root's step *)
    assert (∀ k, (length K + chain_depth r < length k)%nat →
                 (∀ x c, (x, c) ∈ chain_files r (root_locs a R) → k ≠ K ++ x) →
                 node_at (tree fs1) k = node_at (tree fs) k) as Hdeep.
    { intros k Hk Hnf. apply Hrestr; [|done].
      intros i Hi ->. rewrite length_app, length_take in Hk. lia. }
    assert (∀ x c k, (x, c) ∈ chain_files r (root_locs a R) → k = K ++ x →
                     node_at (tree fs1) k = Some (File c)) as Hfr'.
    { intros x c k Hx ->. rewrite node_at_app; [by apply Hfr|].
      destruct (Hlensr _ _ Hx) as [? _]. destruct x; [simpl in *; lia | done]. }
    destruct (own_step K a R (chain_segs r (root_locs a R))
                (chain_files r (root_locs a R))
                (chain_path r (root_locs a R)) fs1 fs')
      as (Hd & Hf & Hrest & Hnofile); try done.
    { intros x c Hx. split; [by apply Hfr|]. specialize (Hlensr _ _ Hx). lia. }
    { intros Hdir1.
      assert (node_at (tree fs) (K ++ chain_segs a R) = Some Dir) as Hdir0.
      { rewrite <- Hdir1. symmetry. apply Hdeep.
        - rewrite length_app. lia.
        - intros x c Hx Heq. by rewrite (Hfr' _ _ _ Hx Heq) in Hdir1. }
      destruct (Hown Hdir0) as [Hd0 Hf0]. split.
      - by eapply dirs_to_kept.
      - intros x c. rewrite Hfiles, elem_of_app.
        intros [Hx | Hx]; [by apply Hfr|].
        assert ((x, c) ∈ chain_files a R) as Hin
          by (rewrite Hfiles, elem_of_app; by right).
        specialize (Hf0 _ _ Hin).
        pose proof (own_file_length _ _ _ _ Hx) as Hlx.
        assert (x ≠ []) as Hxne by (destruct x; [simpl in Hlx; lia | done]).
        rewrite <- node_at_app in Hf0 |- * by done.
        rewrite <- Hf0. apply Hdeep.
        + rewrite !length_app. lia.
        + intros x' c' Hx' Heq%app_inv_head. specialize (Hlensr _ _ Hx').
          rewrite <- Heq in Hlensr. lia. }
    split_and!; [done | done | | | |].
    + intros k Hk1 Hk2. rewrite Hrest, Hrestr; [done|..].
      * intros i Hi. specialize (Hk1 i). rewrite Hsegs, length_app in Hk1.
        rewrite take_app_le in Hk1 by lia. apply Hk1. lia.
      * intros x c Hx. apply (Hk2 x c). rewrite Hfiles, elem_of_app. by left.
      * intros i Hi. specialize (Hk1 (length (chain_segs r (root_locs a R)) + i)%nat).
        rewrite Hsegs, length_app, take_app_add in Hk1. apply Hk1. lia.
      * intros x c Hx. apply (Hk2 x c). rewrite Hfiles, elem_of_app. by right.
    + intros j c Hj. rewrite Hsegs in Hj |- *.
      destruct (take_app_cases _ _ _ Hj) as [[Hj' ->] | (i & Hi & -> & ->)];
        [by apply Hnofiler|].
      intros Hfile0.
      destruct (decide (Exists (λ xc,
          K ++ chain_segs r (root_locs a R) ++ take i (own_segs a R) = K ++ xc.1)
          (chain_files r (root_locs a R))))
        as [([x c'] & Hx & Heq)%Exists_exists|Hno].
      * eapply Hnofile; [done|]. by eapply Hfr'.
      * eapply Hnofile; [done|]. rewrite Hdeep; [done|..].
        -- rewrite !length_app, length_take. lia.
        -- intros x c' Hx Heq. apply Hno, Exists_exists. by exists (x, c').
    + rewrite <- Hpath. symmetry. by apply path_cwd.
    + intros x c. rewrite Hfiles, elem_of_app.
      intros [Hx | Hx%own_file_length].
      * specialize (Hlensr _ _ Hx). lia.
      * lia.
Qed.

End chain_create.

(** ** The tree after a run of [create] on a chain *)

Lemma locate_dirs_kept (fs fs' : FS) q k :
  dirs_kept (tree fs) (tree fs') → cwd fs' = cwd fs →
  os.locate fs q = Ok k → os.locate fs' q = Ok k.
Proof.
  intros Hkept Hcwd. unfold os.locate, os.start_dir. rewrite Hcwd.
  destruct (posixpath.is_empty q); [done|]. by apply walk_dirs_kept.
Qed.

Section chain_made.
Import posixpath.
Context {Loc : Type} (K : list string).
Implicit Types (a : DataSeries.t Loc) (R L : list Loc) (Rs Ts : list (list Loc)).

Lemma chain_files_length a : ∀ R x c,
  chain_ok a → laid_out a R → (x, c) ∈ chain_files a R →
  (0 < length x ≤ chain_depth a + 1)%nat ∧ Forall (λ s, is_name s = true) x.
Proof.
  induction a as [a Hroot|a r Hroot IH] using chain_ind'; intros R x c Hok Hlaid;
    pose proof (chain_segs_ok _ _ Hok Hlaid) as (Hlen & Hnames & _);
    rewrite chain_files_own, Hroot, elem_of_app.
  - intros [?%elem_of_nil | Hx]; [done|].
    pose proof (own_file_length _ _ _ _ Hx). split; [lia|].
    exact (own_file_names _ _ _ _ Hok Hnames Hx).
  - destruct (laid_out_root _ _ _ Hroot Hok Hlaid) as (Hokr & Hlaidr & _).
    intros [Hx | Hx].
    + destruct (IH _ _ _ Hokr Hlaidr Hx) as [? ?].
      rewrite chain_depth_unfold, Hroot. split; [lia | done].
    + pose proof (own_file_length _ _ _ _ Hx). split; [lia|].
      exact (own_file_names _ _ _ _ Hok Hnames Hx).
Qed.

(** Two tuples that name the same locator file give it the same content. *)
Lemma chain_files_agree a : ∀ R L x c c',
  chain_ok a → laid_out a R → laid_out a L → apart a R L →
  (x, c) ∈ chain_files a R → (x, c') ∈ chain_files a L → c = c'.
Proof.
  induction a as [a Hroot|a r Hroot IH] using chain_ind';
    intros R L x c c' Hok HR HL Hsame;
    pose proof (chain_segs_ok _ _ Hok HR) as (HlenR & _);
    pose proof (chain_segs_ok _ _ Hok HL) as (HlenL & _);
    pose proof (apart_inj _ _ _ Hsame) as Hinj;
    pose proof (chain_depth_unfold a) as Hdepth; rewrite Hroot in Hdepth;
    rewrite !chain_files_own, Hroot, !elem_of_app;
    (assert (∀ y d d', (y, d) ∈ own_file a R → (y, d') ∈ own_file a L → d = d')
      as Hown;
     [ unfold own_file; destruct (DataSeries.loc_dfile a) as [df|];
       [|by intros ? ? ? ?%elem_of_nil];
       intros y d d' [= -> ->]%list_elem_of_singleton
         [= Heq ->]%list_elem_of_singleton;
       apply app_inj_tail in Heq as [Heq _]; by rewrite (Hinj Heq) |]).
  - intros [?%elem_of_nil | Hx]; [done|].
    intros [?%elem_of_nil | Hx']; [done|]. by eapply Hown.
  - destruct (laid_out_root _ _ _ Hroot Hok HR) as (Hokr & HRr & _).
    destruct (laid_out_root _ _ _ Hroot Hok HL) as (_ & HLr & _).
    pose proof (apart_root _ _ _ _ Hroot Hsame) as Hsamer.
    destruct (chain_segs_ok _ _ Hokr HRr) as (HlenRr & _).
    pose proof Hok as (_ & Hd & _)%chain_ok_unfold.
    intros [Hx | Hx] [Hx' | Hx'].
    + exact (IH _ _ _ _ _ Hokr HRr HLr Hsamer Hx Hx').
    + destruct (chain_files_length _ _ _ _ Hokr HRr Hx) as [Hl _].
      apply own_file_length in Hx'. lia.
    + destruct (chain_files_length _ _ _ _ Hokr HLr Hx') as [Hl _].
      apply own_file_length in Hx. lia.
    + by eapply Hown.
Qed.

Lemma view_root a r Rs fs :
  DataSeries.root a = Some r → chain_ok a → view K a Rs fs →
  view K r (root_locs a <$> Rs) fs.
Proof.
  intros Hroot Hok (H1 & H2 & H3). split_and!.
  - intros ? (R & -> & HR)%list_elem_of_fmap.
    destruct (H1 _ HR) as (Hlaid & Hd & Hf & Hp).
    destruct (laid_out_root _ _ _ Hroot Hok Hlaid) as (_ & Hlaidr & _).
    split_and!; [done | by eapply dirs_to_root | by eapply files_at_root |].
    by apply (path_chain_path _ _ _ _ Hp).
  - intros ? ? (R & -> & HR)%list_elem_of_fmap (R' & -> & HR')%list_elem_of_fmap.
    apply (apart_root a); [done|]. by apply H2.
  - intros x Hx Hlen Hdir. rewrite chain_depth_unfold, Hroot in H3.
    destruct (H3 x Hx) as (R & HR & Heq); [lia | done |].
    exists (root_locs a R). split; [by apply list_elem_of_fmap_2|].
    destruct (H1 _ HR) as (Hlaid & _).
    destruct (laid_out_root _ _ _ Hroot Hok Hlaid) as (Hokr & Hlaidr & _).
    destruct (chain_segs_ok _ _ Hokr Hlaidr) as (Hlenr & _).
    rewrite chain_segs_unfold, Hroot, take_app_le in Heq by lia. done.
Qed.

Lemma view_complete a : ∀ L Rs fs,
  chain_ok a → laid_out a L → view K a Rs fs →
  (∀ R, R ∈ Rs → apart a L R) →
  complete K a L (tree fs).
Proof.
  induction a as [a Hroot|a r Hroot IH] using chain_ind';
    intros L Rs fs Hok Hlaid Hview Hsame;
    apply complete_unfold; rewrite Hroot;
    (split; [intros Hdir|]).
  1,3: destruct Hview as (H1 & _ & H3);
    destruct (chain_segs_ok _ _ Hok Hlaid) as (Hlen & _ & Hne);
    destruct (H3 _ Hne) as (R & HR & Heq); [lia | done |];
    destruct (H1 _ HR) as (HlaidR & Hd & Hf & _);
    destruct (chain_segs_ok _ _ Hok HlaidR) as (HlenR & _);
    rewrite take_ge in Heq by lia;
    by rewrite (apart_inj _ _ _ (Hsame _ HR) Heq).
  - done.
  - destruct (laid_out_root _ _ _ Hroot Hok Hlaid) as (Hokr & Hlaidr & _).
    apply (IH _ (root_locs a <$> Rs)); [done | done | by apply view_root |].
    intros ? (R & -> & HR)%list_elem_of_fmap. apply (apart_root a); [done|]. by apply Hsame.
Qed.

Section made.
Context (a : DataSeries.t Loc).
Context (Hok : chain_ok a) (Hgood : good_dir (chain_prefix a) = true).

Lemma made_step Ts fs L fs' :
  made K a Ts fs → laid_out a L →
  (∀ R, R ∈ Ts → apart a L R ∧ apart a R L) →
  run (DataSeries.create a L) fs = (fs', Ok tt) →
  made K a (L :: Ts) fs'.
Proof.
  intros (Hloc & HK & Hnames & Hview) Hlaid Hsame Hrun.
  assert (complete K a L (tree fs)) as Hpre.
  { eapply view_complete; [done..|]. intros R HR. by apply Hsame. }
  destruct (create_chain_effect K a L fs fs' Hok Hlaid Hgood Hloc HK Hpre Hrun)
    as (Hd & Hf & Hrest & Hnofile & Hpath & _).
  pose proof (create_kept _ _ _ _ _ Hrun) as [Hkept Hcwd].
  destruct Hview as (H1 & H2 & H3).
  destruct (chain_segs_ok _ _ Hok Hlaid) as (Hlen & HnamesL & Hne).
  (* a key is a directory of [L], a locator file of [L], or untouched *)
  assert (∀ x, x ≠ [] →
            ((0 < length x ≤ length (chain_segs a L))%nat ∧
             x = take (length x) (chain_segs a L)) ∨
            (∃ c, (x, c) ∈ chain_files a L) ∨
            node_at (tree fs') (K ++ x) = node_at (tree fs) (K ++ x)) as Hkey.
  { intros x Hx.
    destruct (decide (x = take (length x) (chain_segs a L))) as [Heq|Hnd].
    { left. split; [|done]. split; [destruct x; [done | simpl; lia]|].
      apply (f_equal length) in Heq. rewrite length_take in Heq. lia. }
    destruct (decide (Exists (λ xc, x = xc.1) (chain_files a L)))
      as [([x' c] & Hin & ->)%Exists_exists | Hnf].
    { right. left. by exists c. }
    right. right. apply Hrest.
    - intros i Hi Heq%app_inv_head. apply Hnd. rewrite Heq at 2.
      rewrite length_take. by replace (i `min` _)%nat with i by lia.
    - intros x' c Hin Heq%app_inv_head. apply Hnf, Exists_exists.
      by exists (x', c). }
  split_and!.
  - by eapply locate_dirs_kept.
  - by apply Hkept.
  - intros x Hsome. destruct x as [|s x]; [constructor|].
    destruct (Hkey (s :: x)) as [[_ ->] | [[c Hin] | Heq]]; [done|..].
    + by apply Forall_take.
    + by apply (chain_files_length _ _ _ _ Hok Hlaid Hin).
    + apply Hnames. rewrite !node_at_app in Heq by done. by rewrite <- Heq.
  - split_and!.
    + intros R [->|HR]%elem_of_cons.
      { split_and!; [done..|]. rewrite <- Hpath. by apply path_cwd. }
      destruct (H1 _ HR) as (HlaidR & HdR & HfR & HpR).
      split_and!; [done | by eapply dirs_to_kept | |].
      * intros x c Hin. specialize (HfR _ _ Hin).
        destruct (chain_files_length _ _ _ _ Hok HlaidR Hin) as [[Hl _] _].
        assert (x ≠ []) as Hx by (destruct x; [simpl in Hl; lia | done]).
        destruct (Hkey x Hx) as [[Hi Heq] | [[c' Hin'] | Heq]].
        -- rewrite <- node_at_app, Heq in HfR by done. by apply Hnofile in HfR.
        -- rewrite (chain_files_agree _ _ _ _ _ _ Hok HlaidR Hlaid
                      (proj2 (Hsame _ HR)) Hin Hin').
           by apply Hf.
        -- rewrite <- node_at_app in HfR |- * by done. by rewrite Heq.
      * rewrite <- HpR. by apply path_cwd.
    + intros R R' [->|HR]%elem_of_cons [->|HR']%elem_of_cons.
      * apply apart_refl.
      * by apply Hsame.
      * by apply Hsame.
      * by apply H2.
    + intros x Hx Hl Hdir.
      destruct (Hkey x Hx) as [[Hi Heq] | [[c Hin] | Heq]].
      * exists L. split; [by left | done].
      * rewrite node_at_app, (Hf _ _ Hin) in Hdir by done. done.
      * rewrite Heq in Hdir. destruct (H3 x Hx Hl Hdir) as (R & HR & HxR).
        exists R. split; [by right | done].
Qed.

Lemma made_all Ls : ∀ Ts fs fs',
  made K a Ts fs →
  (∀ L, L ∈ Ls → laid_out a L) →
  (∀ L L', L ∈ Ls ++ Ts → L' ∈ Ls ++ Ts → apart a L L') →
  run (create_all a Ls) fs = (fs', Ok tt) →
  made K a (rev Ls ++ Ts) fs'.
Proof.
  induction Ls as [|L Ls IH]; intros Ts fs fs' Hinv Hlaid Hsame.
  - by intros [= <-].
  - cbn [create_all]. rewrite run_bind.
    destruct (run (DataSeries.create a L) fs) as [fs1 [[]|e]] eqn:Hrun; [|done].
    intros Hrest. simpl. rewrite <- app_assoc. simpl.
    apply (IH (L :: Ts) fs1); [|..|done].
    + apply (made_step Ts fs); [done| | |done].
      * apply Hlaid. by left.
      * intros R HR. split; apply Hsame; try (by left);
          right; apply elem_of_app; by right.
    + intros L' HL'. apply Hlaid. by right.
    + intros L1 L2 H1 H2. by apply Hsame; apply elem_of_middle_cons.
Qed.

Lemma made_init fs0 :
  os.locate fs0 (chain_prefix a) = Ok K → node_at (tree fs0) K = Some Dir →
  nothing_below (tree fs0) K → made K a [] fs0.
Proof.
  intros Hloc HK Hempty.
  assert (∀ x nd, x ≠ [] → tree fs0 !! (K ++ x) = Some nd → False) as Hno.
  { intros x nd Hx Hnd. specialize (Hempty _ _ Hnd). simpl in Hempty.
    rewrite (proj2 (strip_prefix_Some K (K ++ x) x)) in Hempty by done.
    by destruct x. }
  split_and!; [done | done | |].
  - intros x [nd Hnd]. destruct x as [|s x]; [constructor|].
    by destruct (Hno (s :: x) nd).
  - split_and!.
    + by intros R ?%elem_of_nil.
    + by intros R R' ?%elem_of_nil.
    + intros x Hx _ Hdir. rewrite node_at_app in Hdir by done.
      by destruct (Hno x Dir).
Qed.

End made.

End chain_made.

(** ** [existing] on a chain *)

Lemma names_ok_app t (K x : list string) : names_ok t K → names_ok t (K ++ x).
Proof.
  intros Hnames r Hr. rewrite <- app_assoc in Hr.
  by apply Hnames, Forall_app in Hr as [_ ?].
Qed.

Lemma mapM_Res_Forall2 {A B} (f : A → Res B) (P : A → B → Prop) (l : list A) :
  (∀ x, x ∈ l → ∃ y, f x = Ok y ∧ P x y) →
  ∃ ys, mapM f l = Ok ys ∧ Forall2 P l ys.
Proof.
  induction l as [|a l IH]; intros Hf.
  - exists []. by split; [|constructor].
  - destruct (Hf a) as (y & Hy & HP); [by left|].
    destruct IH as (ys & Hys & HPs); [intros x Hx; apply Hf; by right|].
    exists (y :: ys). simpl. rewrite Hy. simpl. rewrite Hys.
    by split; [|constructor].
Qed.

(** Lists found for distinct keys, each without repetition and holding
    what belongs to its key, concatenate to a list without repetition. *)
Lemma concat_by_key {A B} (Q : A → B → Prop) (l : list A) (ys : list (list B)) :
  Forall2 (λ x y, NoDup y ∧ ∀ b, b ∈ y ↔ Q x b) l ys →
  NoDup l → (∀ x x' b, Q x b → Q x' b → x = x') →
  NoDup (concat ys) ∧ ∀ b, b ∈ concat ys ↔ ∃ x, x ∈ l ∧ Q x b.
Proof.
  intros HF Hl Hkey. induction HF as [|x y l ys [Hy HQ] HF IH]; simpl.
  - split; [constructor|]. intros b. split; [by intros ?%elem_of_nil|].
    by intros (x & ?%elem_of_nil & _).
  - apply NoDup_cons in Hl as [Hx Hl]. destruct (IH Hl) as [Hnd Hin]. split.
    + apply NoDup_app. split_and!; [done| |done].
      intros b Hb%HQ (x' & Hx' & Hb')%Hin.
      by rewrite (Hkey _ _ _ Hb Hb') in Hx.
    + intros b. rewrite elem_of_app, HQ, Hin. split.
      * intros [Hb | (x' & Hx' & Hb)]; [exists x; split; [by left | done]|].
        exists x'. split; [by right | done].
      * intros (x' & [->|Hx']%elem_of_cons & Hb); [by left|].
        right. by exists x'.
Qed.

Lemma existing_short_prefix {Loc} fuel (self r : DataSeries.t Loc) root_locs
    relative df fs :
  (DataSeries.nlocs self > 0)%Z →
  DataSeries.loc_dfile self = Some df →
  DataSeries.root self = Some r →
  (len root_locs < DataSeries.root_locator_count self)%Z →
  DataSeries.existing (S fuel) self root_locs relative fs =
  (roots ← DataSeries.existing fuel r root_locs false fs;
   found ← mapM (λ root_locs_, DataSeries.existing fuel self root_locs_ false fs)
                roots;
   Ok (concat found)).
Proof.
  intros Hn Hdf Hroot Hshort. simpl. rewrite Hdf, Hroot.
  rewrite (bool_decide_eq_false_2 (DataSeries.nlocs self = 0%Z)) by lia.
  rewrite (bool_decide_eq_true_2 (DataSeries.nlocs self > 0)%Z) by done.
  by rewrite bool_decide_eq_true_2 by done.
Qed.

(** A locator file in a directory beneath a resolved path is found and
    read. *)
Lemma read_at {V} (df : DataFile.t V) fs p (K ns : list string) c :
  good_dir p = true → os.locate fs p = Ok K →
  Forall (λ s, is_name s = true) ns →
  (∀ i, (i ≤ length ns)%nat → node_at (tree fs) (K ++ take i ns) = Some Dir) →
  is_name (DataFile.name df) = true →
  tree fs !! (K ++ ns ++ [DataFile.name df]) = Some (File c) →
  DataFile.exists_ df (posixpath.join p ns) fs = true ∧
  read_value df fs (posixpath.join p ns) = DataFile.reader_ df c.
Proof.
  intros Hgood Hloc Hnames Hdirs Hname Hlook.
  destruct (join_names fs p ns K) as (Hl & Hg & _); try done.
  { intros i Hi. apply Hdirs. lia. }
  assert (os.locate fs (DataFile.path df (posixpath.join p ns))
          = Ok (K ++ ns ++ [DataFile.name df])) as Hfile.
  { unfold DataFile.path. rewrite app_assoc. apply locate_join_name; try done.
    specialize (Hdirs (length ns)). rewrite take_ge in Hdirs by lia.
    by apply Hdirs. }
  assert (node_at (tree fs) (K ++ ns ++ [DataFile.name df]) = Some (File c))
    as Hnode.
  { rewrite app_assoc, node_at_app by done. by rewrite <- app_assoc. }
  assert (DataFile.exists_ df (posixpath.join p ns) fs = true) as Hex.
  { unfold DataFile.exists_, os.isfile, os.stat. by rewrite Hfile, Hnode. }
  split; [done|].
  unfold read_value, DataFile.read. rewrite Hex. cbn [assert mbind Res_bind].
  unfold io_.read_file. by rewrite Hfile, Hnode.
Qed.

Lemma fmap_app_nil {A} (l : list (list A)) : app [] <$> l = l.
Proof. induction l; [done|]. simpl. by f_equal. Qed.


(** ** [_os_path_split_all] *)

Section split_all.
Import posixpath.

#[local] Arguments String.append !_ _ / : simpl nomatch.

Lemma append_empty_r (a : string) : a +:+ "" = a.
Proof. induction a as [|x a IH]; simpl; [done | by rewrite IH]. Qed.

Lemma cut_last_sep_concat (p : string) :
  (cut_last_sep p).1 +:+ (cut_last_sep p).2 = p.
Proof.
  induction p as [|c p IH]; [done|]. simpl.
  destruct (cut_last_sep p) as [h t]. simpl in IH.
  destruct h as [|c' h]; simpl in *.
  - destruct (is_sep c); simpl; by rewrite IH.
  - by rewrite IH.
Qed.

Lemma rstrip_sep_length (s : string) :
  (String.length (rstrip_sep s) ≤ String.length s)%nat ∧
  (String.length (rstrip_sep s) = String.length s → rstrip_sep s = s).
Proof.
  induction s as [|c s [IH1 IH2]]; [done|]. simpl.
  destruct (rstrip_sep s) as [|c' r] eqn:Hr.
  - destruct (is_sep c); simpl in *.
    + split; [lia | intros ?; lia].
    + split; [lia|]. intros Hlen. rewrite <- IH2; [done | lia].
  - simpl in *. split; [lia|]. intros Hlen. rewrite IH2; [done | lia].
Qed.

(** The head that [os.path.split] returns is no longer than the path, and
    as long only when it is the path. *)
Lemma split_head_length (p : string) :
  (String.length (split p).1 ≤ String.length p)%nat ∧
  (String.length (split p).1 = String.length p → (split p).1 = p).
Proof.
  unfold split. pose proof (cut_last_sep_concat p) as Hcat.
  destruct (cut_last_sep p) as [h t]. simpl in *.
  apply (f_equal String.length) in Hcat as Hlen. rewrite length_append in Hlen.
  destruct (rstrip_sep_length h) as [Hr1 Hr2].
  destruct (negb (is_empty h) && negb (all_sep h)); simpl.
  - split; [lia|]. intros Heq.
    assert (t = "") as -> by (destruct t; [done | simpl in Hlen; lia]).
    rewrite append_empty_r in Hcat. rewrite Hr2; [done | lia].
  - split; [lia|]. intros Heq.
    assert (t = "") as -> by (destruct t; [done | simpl in Hlen; lia]).
    by rewrite append_empty_r in Hcat.
Qed.

Lemma split_all_loop_total (fuel : nat) (pth : string) (allparts : list string) :
  (String.length pth < fuel)%nat →
  ∃ parts, split_all_loop fuel pth allparts = Ok (parts ++ allparts) ∧ parts ≠ [].
Proof.
  revert pth allparts. induction fuel as [|fuel IH]; intros pth allparts Hlen; [lia|].
  simpl. case_bool_decide as H1; [by exists [(split pth).1]|].
  case_bool_decide as H2; [by exists [(split pth).2]|].
  destruct (split_head_length pth) as [Hle Heq].
  destruct (IH (split pth).1 ((split pth).2 :: allparts)) as (parts & -> & _).
  { destruct (decide (String.length (split pth).1 = String.length pth)) as [He|];
      [by apply Heq in He | lia]. }
  exists (parts ++ [(split pth).2]). rewrite <- app_assoc. split; [done|].
  by destruct parts.
Qed.

Lemma join_str_parts (names : list string) :
  names ≠ [] → Forall (λ s, part s = true) names →
  is_empty (join_str names) = false ∧
  startswith_sep (join_str names) = false ∧
  endswith_sep (join_str names) = false.
Proof.
  induction names as [|x names IH]; [done|]. intros _ [Hx Hnames]%Forall_cons.
  apply andb_true_iff in Hx as [Hne%negb_true_iff Hns].
  destruct names as [|y names].
  - change (join_str [x]) with x.
    by rewrite Hne, no_sep_startswith, no_sep_endswith.
  - rewrite join_str_cons by done.
    destruct IH as (IH1 & _ & IH3); [done | done |].
    rewrite is_empty_append, Hne, startswith_sep_append, no_sep_startswith by done.
    split_and!; [done | done |].
    rewrite endswith_sep_append by done.
    by rewrite (endswith_sep_append "/").
Qed.

Lemma join_str_snoc (names : list string) (x : string) :
  names ≠ [] → join_str (names ++ [x]) = join_str names +:+ "/" +:+ x.
Proof.
  induction names as [|y names IH]; [done|]. intros _.
  destruct names as [|z names]; [done|].
  rewrite <- app_comm_cons, (join_str_cons y) by done.
  rewrite IH by done. rewrite (join_str_cons y (z :: names)) by done.
  by rewrite !append_assoc.
Qed.

Lemma split_app_sep (q x : string) :
  is_empty q = false → startswith_sep q = false → endswith_sep q = false →
  no_sep x = true → split (q +:+ "/" +:+ x) = (q, x).
Proof.
  intros Hne Hstart Hend Hx. unfold split.
  rewrite cut_last_sep_app by done.
  rewrite is_empty_append, Hne, all_sep_app. cbn [andb negb].
  assert (all_sep q = false) as ->.
  { destruct q as [|c q]; [done|]. simpl in *. by rewrite Hstart. }
  cbn [andb negb]. by rewrite rstrip_sep_app_sep, rstrip_sep_id.
Qed.

Lemma split_all_loop_parts (names : list string) :
  names ≠ [] → Forall (λ s, part s = true) names →
  ∀ fuel allparts, (String.length (join_str names) < fuel)%nat →
  split_all_loop fuel (join_str names) allparts = Ok (names ++ allparts).
Proof.
  induction names as [|x names IH] using rev_ind; [done|].
  intros _ [Hnames [Hx _]%Forall_cons]%Forall_app fuel allparts Hfuel.
  apply andb_true_iff in Hx as [Hne%negb_true_iff Hns].
  destruct fuel as [|fuel]; [lia|]. simpl.
  destruct (decide (names = [])) as [->|Hnil].
  - change (join_str ([] ++ [x])) with x.
    unfold split. rewrite cut_last_sep_no_sep by done. simpl.
    rewrite bool_decide_eq_false_2 by (by intros <-).
    by rewrite bool_decide_eq_true_2.
  - rewrite join_str_snoc in Hfuel |- * by done.
    destruct (join_str_parts names Hnil Hnames) as (H1 & H2 & H3).
    rewrite split_app_sep by done. simpl.
    rewrite !length_append in Hfuel. simpl in Hfuel.
    rewrite bool_decide_eq_false_2.
    2:{ intros Heq%(f_equal String.length). rewrite !length_append in Heq.
        simpl in Heq. lia. }
    rewrite bool_decide_eq_false_2.
    2:{ intros Heq%(f_equal String.length). rewrite !length_append in Heq.
        simpl in Heq. lia. }
    rewrite IH by (done || lia). by rewrite <- app_assoc.
Qed.

End split_all.

(** The loop of [_os_path_split_all] ends for every path, and the list it
    returns holds at least one part; so no path has depth zero or less. *)
Theorem split_all_terminates (pth : string) :
  ∃ parts, _os_path_split_all pth = Ok parts ∧ parts ≠ [] ∧
           ∀ depth, (depth ≤ 0)%Z → _path_has_depth pth depth = Ok false.
Proof.
  destruct (split_all_loop_total (S (String.length pth)) pth []) as (parts & Hp & Hne);
    [lia|].
  rewrite app_nil_r in Hp. exists parts. split_and!; [done | done|].
  intros depth Hd. unfold _path_has_depth, _os_path_split_all. rewrite Hp. simpl.
  rewrite bool_decide_eq_false_2; [done|].
  destruct parts; [done | simpl; lia].
Qed.

(** On a relative path of one or more components joined by single slashes,
    none of them empty, [_os_path_split_all] returns the components, and
    [_path_has_depth] compares their number with the depth. *)
Theorem split_all_components (names : list string) (depth : Z) :
  names ≠ [] → Forall (λ s, part s = true) names →
  _os_path_split_all (posixpath.join_str names) = Ok names ∧
  _path_has_depth (posixpath.join_str names) depth
  = Ok (bool_decide (len names = depth)).
Proof.
  intros Hne Hparts.
  pose proof (split_all_loop_parts names Hne Hparts
                (S (String.length (posixpath.join_str names))) []) as Hp.
  rewrite app_nil_r in Hp. unfold _path_has_depth, _os_path_split_all.
  rewrite Hp by lia. done.
Qed.

Lemma split_all_components_witness :
  _os_path_split_all "a/../c.txt" = Ok ["a"; ".."; "c.txt"] ∧
  _path_has_depth "a/../c.txt" 3 = Ok true.
Proof.
  apply (split_all_components ["a"; ".."; "c.txt"] 3).
  - done.
  - repeat constructor.
Defined.

(** ** What [path] asks of a tuple and of the map *)

Section relative.
Import posixpath.

#[local] Arguments String.append !_ _ / : simpl nomatch.

Lemma split_str_all_no_sep (s : string) :
  Forall (λ x, no_sep x = true) (split_str s).
Proof.
  induction s as [|c s IH]; simpl; [by repeat constructor|].
  destruct (is_sep c) eqn:Hc; [by constructor|].
  destruct (split_str s) as [|h t]; [by repeat constructor; simpl; rewrite Hc|].
  apply Forall_cons in IH as [Hh Ht]. constructor; [|done].
  simpl. by rewrite Hc, Hh.
Qed.

Lemma nonempty_comps_parts (s : string) :
  Forall (λ x, part x = true) (nonempty_comps s).
Proof.
  unfold nonempty_comps. apply Forall_forall.
  intros x [Hx Hin]%list_elem_of_filter. unfold part.
  rewrite (proj1 (Forall_forall _ _) (split_str_all_no_sep s) x Hin).
  by destruct x.
Qed.

Lemma join_parts_relative (a : string) (p : list string) :
  is_empty a = false → startswith_sep a = false →
  Forall (λ x, part x = true) p →
  is_empty (join a p) = false ∧ startswith_sep (join a p) = false.
Proof.
  revert a. induction p as [|b p IH]; intros a Ha1 Ha2; [done|].
  intros [Hb Hp]%Forall_cons. apply andb_true_iff in Hb as [_ Hb].
  apply IH; [| |done]; unfold join2; rewrite (no_sep_startswith _ Hb);
    destruct (is_empty a || endswith_sep a);
    by rewrite ?is_empty_append, ?startswith_sep_append, ?Ha1.
Qed.

(** What [os.path.relpath] returns does not start with a slash. *)
Lemma relpath_relative (cwd_ : list string) (pth r : string) :
  relpath cwd_ pth = Ok r → startswith_sep r = false.
Proof.
  unfold relpath. destruct (is_empty pth); [done|]. cbv zeta.
  set (start_list := nonempty_comps (abspath cwd_ ".")).
  set (path_list := nonempty_comps (abspath cwd_ pth)).
  set (i := common_prefix_len start_list path_list).
  assert (Forall (λ x, part x = true)
            (replicate (length start_list - i) ".." ++ drop i path_list)) as Hall.
  { apply Forall_app. split.
    - by apply Forall_replicate.
    - apply Forall_drop, nonempty_comps_parts. }
  destruct (replicate _ _ ++ _) as [|a p]; [by intros [= <-]|].
  apply Forall_cons in Hall as [Ha Hp]. intros [= <-].
  apply andb_true_iff in Ha as [Ha1%negb_true_iff Ha2].
  by apply join_parts_relative; [|apply no_sep_startswith|].
Qed.

Lemma path_is_relative_empty (fs : FS) :
  _path_is_relative fs "" = Raise (ValueError "no path specified").
Proof. done. Qed.

Lemma path_is_relative_abs (fs : FS) (pth : string) :
  isabs pth = true → _path_is_relative fs pth = Ok false.
Proof.
  intros Habs. unfold _path_is_relative.
  destruct (relpath (cwd fs) pth) as [r|e] eqn:Hr.
  - simpl. rewrite bool_decide_eq_false_2; [done|]. intros ->.
    apply relpath_relative in Hr. unfold isabs in Habs. congruence.
  - unfold relpath in Hr. destruct pth; [done|]. simpl in Hr.
    by destruct (replicate _ _ ++ _).
Qed.

End relative.

Lemma path_own_inv {Loc} (a : DataSeries.t Loc) pre locs fs p :
  path_own a pre locs fs = Ok p →
  len locs = DataSeries.nlocs a ∧
  _path_is_relative fs (DataSeries.map_ a locs) = Ok true ∧
  _path_has_depth (DataSeries.map_ a locs) (DataSeries.depth a) = Ok true ∧
  p = posixpath.join pre [DataSeries.map_ a locs].
Proof.
  unfold path_own. intros (? & Hlen & Hp)%bind_Ok.
  apply bind_Ok in Hp as (rel & Hrel & Hp).
  apply bind_Ok in Hp as (? & Hrel' & Hp).
  apply bind_Ok in Hp as (dep & Hdep & Hp).
  apply bind_Ok in Hp as (? & Hdep' & Hp).
  injection Hp as <-. unfold assert in *.
  case_bool_decide; [|done]. destruct rel; [|done]. by destruct dep.
Qed.

Lemma path_inv {Loc} (self : DataSeries.t Loc) locs fs p :
  DataSeries.path self locs fs = Ok p →
  ∃ pre, path_own self pre (own_locs self locs) fs = Ok p ∧
         (0 ≤ DataSeries.nlocs self ≤ len locs)%Z ∧
         match DataSeries.root self with
         | None => pre = DataSeries.prefix self ∧ len locs = DataSeries.nlocs self
         | Some r => DataSeries.path r (root_locs self locs) fs = Ok pre
         end.
Proof.
  rewrite path_unfold. destruct (DataSeries.root self) as [r|].
  - intros (rl & Hrl & Hp)%bind_Ok. apply bind_Ok in Hp as (sl & Hsl & Hp).
    destruct (locators_Ok _ _ _ _ Hrl Hsl) as [-> ->].
    apply bind_Ok in Hp as (pre & Hpre & Hp). exists pre.
    pose proof (path_own_Ok _ _ _ _ _ Hp) as [Hlen _].
    apply bind_Ok in Hrl as (? & Hge & _). unfold assert in Hge.
    case_bool_decide; [|done]. split_and!; [done| |lia|done].
    rewrite <- Hlen. unfold len. lia.
  - intros Hp. pose proof (path_own_Ok _ _ _ _ _ Hp) as [Hlen _].
    exists (DataSeries.prefix self).
    split_and!; [|unfold len in *; lia|lia|done|done].
    unfold own_locs. by rewrite Hlen, Z.sub_diag.
Qed.

Lemma path_arity {Loc} (self : DataSeries.t Loc) (locs : list Loc)
    (fs : FS) (p : string) :
  DataSeries.path self locs fs = Ok p →
  len locs = (DataSeries.nlocs self + DataSeries.root_locator_count self)%Z ∧
  (0 ≤ DataSeries.nlocs self)%Z ∧ (0 ≤ DataSeries.root_locator_count self)%Z.
Proof.
  revert locs p. induction self as [a Hroot|a r Hroot IH] using chain_ind';
    intros locs p (pre & Hown & Hn & Hpre)%path_inv;
    apply path_own_Ok in Hown as [Hlen _];
    rewrite root_locator_count_unfold; rewrite Hroot in Hpre |- *.
  - destruct Hpre as [_ Hl]. lia.
  - apply IH in Hpre as (Hr & Hnr & Hcr). rewrite <- Hr.
    unfold own_locs, root_locs, len in *.
    rewrite length_drop in Hlen. rewrite length_take in Hr |- *. lia.
Qed.

(** [path] returns only for a tuple that has exactly as many locators as
    the series and the series of its root chain take together; the number
    the series takes is then not negative. *)
Theorem path_requires_arity {Loc} (self : DataSeries.t Loc) (locs : list Loc)
    (fs : FS) (p : string) :
  DataSeries.path self locs fs = Ok p →
  len locs = (DataSeries.nlocs self + DataSeries.root_locator_count self)%Z ∧
  (0 ≤ DataSeries.nlocs self)%Z ∧ (0 ≤ DataSeries.root_locator_count self)%Z.
Proof. apply path_arity. Qed.

Lemma path_requires_arity_witness :
  len ["1"; "a"]
  = (DataSeries.nlocs Scenario.child + DataSeries.root_locator_count Scenario.child)%Z ∧
  (0 ≤ DataSeries.nlocs Scenario.child)%Z ∧
  (0 ≤ DataSeries.root_locator_count Scenario.child)%Z.
Proof.
  apply (path_requires_arity Scenario.child ["1"; "a"] Scenario.fs0 "/tmp/x/1/a").
  reflexivity.
Defined.

(** [path] returns only when the map sends the series' own locators to a
    path that is not empty, does not start with a slash, and has [depth]
    parts, with [depth] at least one. *)
Theorem path_requires_relative_map {Loc} (self : DataSeries.t Loc)
    (locs : list Loc) (fs : FS) (p : string) :
  DataSeries.path self locs fs = Ok p →
  let pth := DataSeries.map_ self (own_locs self locs) in
  pth ≠ "" ∧ posixpath.isabs pth = false ∧ (1 ≤ DataSeries.depth self)%Z ∧
  ∃ parts, _os_path_split_all pth = Ok parts ∧ len parts = DataSeries.depth self.
Proof.
  intros (pre & Hown & _)%path_inv pth.
  apply path_own_inv in Hown as (_ & Hrel & Hdep & _). fold pth in Hrel, Hdep.
  assert (∃ parts, _os_path_split_all pth = Ok parts ∧ parts ≠ [] ∧
                   len parts = DataSeries.depth self) as (parts & Hp & Hne & Hlen).
  { destruct (split_all_loop_total (S (String.length pth)) pth [])
      as (parts & Hp & Hne); [lia|].
    rewrite app_nil_r in Hp. exists parts. split_and!; [done..|].
    revert Hdep. unfold _path_has_depth, _os_path_split_all. rewrite Hp. simpl.
    intros [= Hd]. by apply bool_decide_eq_true in Hd. }
  split_and!.
  - intros Hempty. by rewrite Hempty, path_is_relative_empty in Hrel.
  - destruct (posixpath.isabs pth) eqn:Habs; [|done].
    by rewrite path_is_relative_abs in Hrel.
  - rewrite <- Hlen. destruct parts; [done | unfold len; simpl; lia].
  - by exists parts.
Qed.

Lemma path_requires_relative_map_witness :
  let pth := DataSeries.map_ Scenario.series (own_locs Scenario.series [1; 2]%Z) in
  pth ≠ "" ∧ posixpath.isabs pth = false ∧ (1 ≤ DataSeries.depth Scenario.series)%Z ∧
  ∃ parts, _os_path_split_all pth = Ok parts ∧ len parts = DataSeries.depth Scenario.series.
Proof.
  apply (path_requires_relative_map Scenario.series [1; 2]%Z Scenario.fs0 "/tmp/x/1/2").
  reflexivity.
Defined.

(** On a series without a root and a tuple of [nlocs] locators, an empty
    map result makes [path] raise the [ValueError] of [os.path.relpath],
    and a map result that starts with a slash fails the assertion. *)
Theorem path_map_errors {Loc} (self : DataSeries.t Loc) (locs : list Loc) (fs : FS) :
  DataSeries.root self = None → len locs = DataSeries.nlocs self →
  (DataSeries.map_ self locs = "" →
   DataSeries.path self locs fs = Raise (ValueError "no path specified")) ∧
  (posixpath.isabs (DataSeries.map_ self locs) = true →
   DataSeries.path self locs fs = Raise AssertionError).
Proof.
  intros Hroot Hlen. rewrite path_unfold, Hroot. unfold path_own.
  rewrite bool_decide_eq_true_2 by done. cbn [assert mbind Res_bind]. split.
  - intros ->. by rewrite path_is_relative_empty.
  - intros Habs. by rewrite path_is_relative_abs.
Qed.

Lemma path_map_errors_witness :
  let empty := DataSeries.mk "/tmp/x" (λ _ : list string, "") 1 1 None None false in
  let absolute := DataSeries.mk "/tmp/x" (λ _ : list string, "/etc") 1 1 None None false in
  DataSeries.path empty ["1"] Scenario.fs0 = Raise (ValueError "no path specified") ∧
  DataSeries.path absolute ["1"] Scenario.fs0 = Raise AssertionError.
Proof.
  split.
  - apply (path_map_errors
             (DataSeries.mk "/tmp/x" (λ _ : list string, "") 1 1 None None false)
             ["1"] Scenario.fs0); reflexivity.
  - apply (path_map_errors
             (DataSeries.mk "/tmp/x" (λ _ : list string, "/etc") 1 1 None None false)
             ["1"] Scenario.fs0); reflexivity.
Defined.

(** ** When [path] returns *)

Section normal.
Import posixpath.

#[local] Arguments String.append !_ _ / : simpl nomatch.

Lemma norm_step_names (b : bool) (names acc : list string) :
  Forall (λ s, is_name s = true) names →
  fold_left (norm_step b) names acc = rev names ++ acc.
Proof.
  revert acc. induction names as [|x names IH]; intros acc; [done|].
  intros [Hx Hnames]%Forall_cons. simpl. rewrite <- app_assoc. simpl.
  rewrite <- IH by done. f_equal.
  destruct (is_name_plain _ Hx) as (H1 & H2 & H3). unfold norm_step.
  rewrite bool_decide_eq_false_2 by (by intros [?|?]).
  by rewrite (bool_decide_eq_true_2 (x ≠ "..")).
Qed.

Lemma is_name_part (s : string) : is_name s = true → part s = true.
Proof.
  intros Hs. unfold part.
  by rewrite (is_name_nonempty _ Hs), (is_name_no_sep _ Hs).
Qed.

Lemma join_str_app (l1 l2 : list string) :
  l1 ≠ [] → l2 ≠ [] →
  join_str (l1 ++ l2) = join_str l1 +:+ "/" +:+ join_str l2.
Proof.
  intros H1 H2. induction l1 as [|x l1 IH]; [done|].
  destruct l1 as [|y l1].
  - simpl. by rewrite join_str_cons.
  - rewrite <- app_comm_cons, (join_str_cons x) by done.
    rewrite IH by done. rewrite (join_str_cons x (y :: l1)) by done.
    by rewrite !append_assoc.
Qed.

Lemma initial_slashes_one (s : string) :
  startswith_sep s = false → initial_slashes (String "/" s) = 1%nat.
Proof. destruct s as [|c [|c' s]]; simpl; [done|..]; by intros ->. Qed.

Lemma split_str_slash (s : string) :
  split_str (String "/" s) = "" :: split_str s.
Proof. done. Qed.

Lemma norm_step_skip (b : bool) (acc : list string) (c : string) :
  c = "" ∨ c = "." → norm_step b acc c = acc.
Proof. intros Hc. unfold norm_step. by rewrite bool_decide_eq_true_2. Qed.

(** [os.path.normpath] on a slash followed by names, with or without a
    last component [.], which it drops: the names stay. *)
Lemma normpath_names (names : list string) (dot : bool) :
  Forall (λ s, is_name s = true) names →
  let skipped := if dot then ["."] else [] in
  normpath (String "/" (join_str (names ++ skipped))) = String "/" (join_str names).
Proof.
  intros Hnames skipped.
  assert (Forall (λ s, s = "" ∨ s = ".") skipped) as Hskip.
  { unfold skipped. destruct dot; [|constructor].
    apply Forall_cons. split; [by right | constructor]. }
  assert (Forall (λ s, no_sep s = true) skipped) as Hskip'.
  { unfold skipped. destruct dot; by repeat constructor. }
  assert (startswith_sep (join_str (names ++ skipped)) = false) as Hstart.
  { destruct names as [|x names].
    - unfold skipped. by destruct dot.
    - apply Forall_cons in Hnames as [Hx _].
      rewrite <- app_comm_cons.
      destruct (names ++ skipped) eqn:Heq.
      + by apply no_sep_startswith, is_name_no_sep.
      + rewrite join_str_cons by done.
        rewrite startswith_sep_append by by apply is_name_nonempty.
        by apply no_sep_startswith, is_name_no_sep. }
  clearbody skipped.
  unfold normpath. cbn [is_empty]. cbv zeta.
  rewrite initial_slashes_one by done.
  rewrite split_str_slash. cbn [fold_left].
  rewrite (norm_step_skip _ _ "") by by left.
  assert (split_str (join_str (names ++ skipped))
          = if decide (names ++ skipped = []) then [""] else names ++ skipped) as ->.
  { destruct (decide _) as [->|Hne]; [done|].
    apply split_str_join_str; [done|]. apply Forall_app. split; [|done].
    eapply Forall_impl; [done|]. apply is_name_no_sep. }
  assert (∀ acc, fold_left (norm_step (bool_decide (1%nat ≠ 0%nat)))
                   (if decide (names ++ skipped = []) then [""] else names ++ skipped)
                   acc = rev names ++ acc) as ->.
  { intros acc. destruct (decide _) as [Heq|Hne].
    - apply app_eq_nil in Heq as [-> _]. simpl.
      exact (norm_step_skip _ _ "" (or_introl eq_refl)).
    - rewrite fold_left_app, (norm_step_names _ names) by done.
      clear Hne Hskip' Hstart. generalize (rev names ++ acc).
      induction Hskip as [|s skipped Hs _ IH]; intros l; [done|].
      simpl. rewrite norm_step_skip by done. apply IH. }
  by rewrite app_nil_r, rev_involutive.
Qed.

(** [os.path.abspath] of a path of names, in a working directory of
    names. *)
Lemma abspath_names (cwd_ names : list string) :
  Forall (λ s, is_name s = true) cwd_ →
  names ≠ [] → Forall (λ s, is_name s = true) names →
  abspath cwd_ (join_str names) = String "/" (join_str (cwd_ ++ names)).
Proof.
  intros Hcwd Hne Hnames. unfold abspath, isabs.
  rewrite join_str_startswith by done.
  assert (join (getcwd cwd_) [join_str names]
          = String "/" (join_str (cwd_ ++ names))) as ->.
  { unfold join, getcwd. cbn [fold_left]. unfold join2.
    rewrite join_str_startswith by done.
    destruct (decide (cwd_ = [])) as [->|Hc]; [done|].
    rewrite join_str_app by done.
    rewrite is_empty_append. cbn [is_empty andb orb].
    rewrite (endswith_sep_append "/") by by apply join_str_nonempty.
    rewrite join_str_endswith by done. by rewrite append_assoc. }
  rewrite <- (app_nil_r (cwd_ ++ names)) at 1.
  apply (normpath_names _ false). by apply Forall_app.
Qed.

Lemma abspath_curdir (cwd_ : list string) :
  Forall (λ s, is_name s = true) cwd_ →
  abspath cwd_ "." = String "/" (join_str cwd_).
Proof.
  intros Hcwd. unfold abspath, isabs. cbn [startswith_sep].
  change (is_sep ".") with false. cbv iota.
  assert (join (getcwd cwd_) ["."] = String "/" (join_str (cwd_ ++ ["."]))) as ->.
  { unfold join, getcwd. cbn [fold_left]. unfold join2. cbn [startswith_sep].
    change (is_sep ".") with false. cbv iota.
    destruct (decide (cwd_ = [])) as [->|Hc]; [done|].
    rewrite join_str_app by done.
    rewrite is_empty_append. cbn [is_empty andb orb].
    rewrite (endswith_sep_append "/") by by apply join_str_nonempty.
    rewrite join_str_endswith by done. by rewrite append_assoc. }
  by apply (normpath_names _ true).
Qed.

Lemma nonempty_comps_names (names : list string) :
  Forall (λ s, is_name s = true) names →
  nonempty_comps (String "/" (join_str names)) = names.
Proof.
  intros Hnames. unfold nonempty_comps.
  destruct (decide (names = [])) as [->|Hne]; [done|].
  rewrite split_str_slash.
  rewrite split_str_join_str by (done || (eapply Forall_impl; [done|]; apply is_name_no_sep)).
  rewrite filter_cons_False by naive_solver.
  clear Hne. induction Hnames as [|x names Hx _ IH]; [done|].
  rewrite filter_cons_True, IH; [done|].
  by destruct (is_name_plain _ Hx) as (? & _).
Qed.

Lemma common_prefix_len_app (l r : list string) :
  common_prefix_len l (l ++ r) = length l.
Proof.
  induction l as [|x l IH]; simpl; [by destruct r|].
  by rewrite bool_decide_eq_true_2, IH.
Qed.

Lemma join_names_join_str (a : string) (p : list string) :
  Forall (λ s, is_name s = true) (a :: p) → join a p = join_str (a :: p).
Proof.
  induction p as [|x p IH] using rev_ind; [done|].
  rewrite app_comm_cons. intros [Hp [Hx _]%Forall_cons]%Forall_app.
  rewrite join_snoc, IH by done. rewrite join_str_snoc by done.
  unfold join2.
  rewrite (no_sep_startswith x), join_str_nonempty, join_str_endswith;
    done || by apply is_name_no_sep.
Qed.

(** A path of names is relative in the sense of [_path_is_relative]. *)
Lemma path_is_relative_names (fs : FS) (names : list string) :
  Forall (λ s, is_name s = true) (cwd fs) →
  names ≠ [] → Forall (λ s, is_name s = true) names →
  _path_is_relative fs (join_str names) = Ok true.
Proof.
  intros Hcwd Hne Hnames. unfold _path_is_relative, relpath.
  rewrite join_str_nonempty by done. cbv zeta.
  rewrite abspath_curdir, abspath_names by done.
  rewrite !nonempty_comps_names by (done || by apply Forall_app).
  rewrite common_prefix_len_app, Nat.sub_diag, drop_app_length. simpl.
  destruct names as [|a p]; [done|].
  rewrite join_names_join_str by done. simpl.
  by rewrite bool_decide_eq_true_2.
Qed.

End normal.

Lemma path_own_names {Loc} (a : DataSeries.t Loc) pre locs fs :
  Forall (λ s, is_name s = true) (cwd fs) →
  len locs = DataSeries.nlocs a →
  names_path (DataSeries.map_ a locs) (DataSeries.depth a) = true →
  path_own a pre locs fs = Ok (posixpath.join pre [DataSeries.map_ a locs]).
Proof.
  intros Hcwd Hlen (names & Hmap & Hne & Hd & Hnames)%names_path_inv.
  unfold path_own. rewrite bool_decide_eq_true_2 by done.
  cbn [assert mbind Res_bind]. rewrite Hmap.
  rewrite path_is_relative_names by done. cbn [assert mbind Res_bind].
  unfold _path_has_depth, _os_path_split_all.
  rewrite (split_all_loop_parts names Hne), app_nil_r; [| |lia].
  2:{ eapply Forall_impl; [done|]. apply is_name_part. }
  cbn [mbind Res_bind]. fold (len names). by rewrite bool_decide_eq_true_2.
Qed.

Lemma well_mapped_unfold {Loc} (a : DataSeries.t Loc) R :
  well_mapped a R ↔
  (0 ≤ DataSeries.nlocs a)%Z ∧
  len R = (DataSeries.nlocs a + DataSeries.root_locator_count a)%Z ∧
  names_path (DataSeries.map_ a (own_locs a R)) (DataSeries.depth a) = true ∧
  match DataSeries.root a with
  | None => True
  | Some r => well_mapped r (root_locs a R)
  end.
Proof. by destruct a. Qed.

Lemma well_mapped_path {Loc} (a : DataSeries.t Loc) : ∀ R fs,
  Forall (λ s, is_name s = true) (cwd fs) → well_mapped a R →
  DataSeries.path a R fs = Ok (chain_path a R).
Proof.
  induction a as [a Hroot|a r Hroot IH] using chain_ind'; intros R fs Hcwd;
    rewrite well_mapped_unfold, path_unfold, chain_path_unfold, Hroot;
    rewrite root_locator_count_unfold, Hroot;
    intros (Hn & Hlen & Hmap & Hr).
  - assert (own_locs a R = R) as Hown.
    { unfold own_locs. by replace (len R - DataSeries.nlocs a)%Z with 0%Z by lia. }
    rewrite Hown in *. apply path_own_names; [done | lia | done].
  - pose proof (IH _ _ Hcwd Hr) as Hpr.
    apply well_mapped_unfold in Hr as (Hnr & Hlenr & _).
    unfold DataSeries._root_locators, DataSeries._self_locators.
    assert (0 ≤ DataSeries.nlocs r + DataSeries.root_locator_count r)%Z as Hcr.
    { rewrite <- Hlenr. unfold len. lia. }
    rewrite bool_decide_eq_true_2 by lia. cbn [assert mbind Res_bind].
    fold (root_locs a R). fold (own_locs a R). rewrite Hpr. cbn [mbind Res_bind].
    apply path_own_names; [done| |done].
    unfold own_locs, len in *. rewrite length_drop. lia.
Qed.

Lemma laid_out_well_mapped {Loc} (a : DataSeries.t Loc) : ∀ R,
  chain_ok a → laid_out a R → well_mapped a R.
Proof.
  induction a as [a Hroot|a r Hroot IH] using chain_ind'; intros R Hok Hlaid;
    apply well_mapped_unfold; rewrite Hroot;
    pose proof Hok as (Hn & _)%chain_ok_unfold;
    pose proof (laid_out_names _ _ Hlaid) as Hnp;
    pose proof Hlaid as (Hlen & _)%laid_out_unfold.
  - split_and!; [lia | done | done | done].
  - destruct (laid_out_root _ _ _ Hroot Hok Hlaid) as (Hokr & Hlaidr & _).
    split_and!; [lia | done | done | by apply IH].
Qed.

(** In a working directory whose path is made of names, [path] returns
    for every tuple that has a locator for each series of the chain and
    that each map sends to [depth] names: the prefix of the outermost series
    joined with the map results down the chain. *)
Theorem path_returns {Loc} (self : DataSeries.t Loc) (locs : list Loc) (fs : FS) :
  Forall (λ s, is_name s = true) (cwd fs) → well_mapped self locs →
  DataSeries.path self locs fs = Ok (chain_path self locs).
Proof. apply well_mapped_path. Qed.

Lemma path_returns_witness :
  DataSeries.path Scenario.child ["1"; "a"] Scenario.fs0
  = Ok (chain_path Scenario.child ["1"; "a"]).
Proof.
  apply (path_returns Scenario.child ["1"; "a"] Scenario.fs0).
  - repeat constructor.
  - vm_compute. done.
Defined.
Section chain_existing.
Import posixpath.

Lemma walk_cons_dir t K c rest k :
  os.walk t K (c :: rest) = Ok k → node_at t K = Some Dir.
Proof. simpl. by destruct (node_at t K) as [[|s]|]. Qed.

(** Where [join2 p pth] leads, the path [p] leads to a directory first. *)
Lemma locate_join2_inv fs p segs k :
  good_dir p = true → segs ≠ [] → Forall (λ s, is_name s = true) segs →
  os.locate fs (join2 p (join_str segs)) = Ok k →
  ∃ K', os.locate fs p = Ok K' ∧ node_at (tree fs) K' = Some Dir ∧
        os.walk (tree fs) K' segs = Ok k.
Proof.
  intros [Hne Hend]%andb_true_iff Hsegs Hnames.
  apply negb_true_iff in Hne.
  assert (Forall (λ s, no_sep s = true) segs) as Hns
    by (eapply Forall_impl; [done|]; apply is_name_no_sep).
  unfold join2. rewrite (join_str_startswith _ Hnames), Hne. cbn [orb].
  unfold os.locate, os.start_dir. rewrite Hne.
  destruct (endswith_sep p) eqn:Hp.
  - destruct (endswith_sep_inv _ Hp) as (p' & ->).
    rewrite is_empty_append, Hne. cbn [andb].
    rewrite (startswith_sep_append (p' +:+ "/")) by done.
    rewrite split_str_sep_end, append_assoc, split_str_app_sep, walk_app.
    destruct (os.walk _ _ (split_str p')) as [K1|e] eqn:Hw; [|done].
    cbn [mbind Res_bind]. rewrite split_str_join_str by done. intros Hwalk.
    assert (node_at (tree fs) K1 = Some Dir) as HK1
      by (destruct segs; [done | by eapply walk_cons_dir]).
    exists K1. split_and!; [by apply walk_trailing_empty | done | done].
  - rewrite is_empty_append, Hne. cbn [andb].
    rewrite (startswith_sep_append p) by done.
    rewrite split_str_app_sep, walk_app.
    destruct (os.walk _ _ (split_str p)) as [K1|e] eqn:Hw; [|done].
    cbn [mbind Res_bind]. rewrite split_str_join_str by done. intros Hwalk.
    assert (node_at (tree fs) K1 = Some Dir) as HK1
      by (destruct segs; [done | by eapply walk_cons_dir]).
    by exists K1.
Qed.

(** Beneath a path that is not a directory, the pattern of stars matches
    nothing. *)
Lemma iglob_stars_absent fs p :
  good_dir p = true → glob.has_magic p = false → os.isdir fs p = false →
  ∀ d fuel dironly, (d < fuel)%nat →
    glob.iglob fuel fs (join p (replicate (S d) "*")) dironly = Ok [].
Proof.
  intros Hgood Hmagic Hnodir d.
  induction d as [|d IH]; intros [|fuel] dironly Hfuel; try lia.
  - cbn [glob.iglob]. change (join p (replicate 1 "*")) with (join2 p "*").
    rewrite split_join2 by done.
    rewrite has_magic_join2_star, (good_dir_nonempty _ Hgood), Hmagic.
    rewrite andb_false_r. cbn [negb mbind Res_bind mapM].
    change (glob.has_magic "*") with true. cbv iota.
    unfold glob.glob1. rewrite bool_decide_eq_true_2 by done.
    cbn [mbind Res_bind mret Res_ret].
    unfold glob.scandir. rewrite (good_dir_nonempty _ Hgood).
    revert Hnodir. unfold os.isdir, os.stat.
    destruct (os.locate fs p) as [k|e]; [|done].
    by intros ->.
  - cbn [glob.iglob].
    rewrite (replicate_S_end (S d)), join_snoc.
    pose proof (good_dir_stars p Hgood (S d)) as Hq.
    rewrite split_join2 by done.
    rewrite has_magic_join2_star, (good_dir_nonempty _ Hq), has_magic_stars.
    assert (join p (replicate (S d) "*") ≠ join2 (join p (replicate (S d) "*")) "*")
      as Hne by (apply not_eq_sym, join2_ne; [done | by apply good_dir_nonempty]).
    rewrite bool_decide_eq_true_2 by done.
    cbn [negb andb]. by rewrite IH by lia.
Qed.

Lemma existing_paths_absent {Loc} (self : DataSeries.t Loc) root_locs fs p d :
  match DataSeries.root self with
  | None => Ok (DataSeries.prefix self)
  | Some r => DataSeries.path r root_locs fs
  end = Ok p →
  DataSeries.depth self = Z.of_nat (S d) →
  good_dir p = true → glob.has_magic p = false → os.isdir fs p = false →
  DataSeries._existing_paths self root_locs fs = Ok [].
Proof.
  intros Hp Hdepth Hgood Hmagic Hnodir.
  unfold DataSeries._existing_paths. rewrite Hp, Hdepth, Nat2Z.id.
  cbn [mbind Res_bind]. unfold glob.glob.
  rewrite (iglob_stars_absent fs p Hgood Hmagic Hnodir); [done|].
  pose proof (length_join_stars p (S d)). lia.
Qed.

Context {Loc : Type} (K : list string).
Implicit Types (a : DataSeries.t Loc) (R : list Loc) (Rs : list (list Loc)).

(** Where the path of a tuple leads, the directories of the tuple are
    there at every level. *)
Lemma locate_chain_path_inv a R fs k :
  chain_ok a → laid_out a R → good_dir (chain_prefix a) = true →
  os.locate fs (chain_prefix a) = Ok K →
  os.locate fs (chain_path a R) = Ok k →
  k = K ++ chain_segs a R ∧
  ∀ i, (i < length (chain_segs a R))%nat →
       node_at (tree fs) (K ++ take i (chain_segs a R)) = Some Dir.
Proof.
  revert R k. induction a as [a Hroot|a r Hroot IH] using chain_ind';
    intros R k Hok Hlaid Hgood Hloc;
    destruct (own_segs_ok _ _ Hok Hlaid) as (Hmap & _ & _ & _ & Hnames & Hne);
    rewrite chain_path_unfold, chain_segs_unfold, Hroot, Hmap;
    rewrite chain_prefix_unfold, Hroot in Hgood, Hloc.
  - intros (K' & Hloc' & _ & Hwalk)%locate_join2_inv; [|done..].
    rewrite Hloc in Hloc'. injection Hloc' as <-. simpl.
    by apply walk_names_inv.
  - destruct (laid_out_root _ _ _ Hroot Hok Hlaid) as (Hokr & Hlaidr & _).
    destruct (chain_path_form _ _ Hokr Hlaidr Hgood) as (Hg & _).
    intros (K' & Hloc' & HK' & Hwalk)%locate_join2_inv; [|done..].
    destruct (IH _ _ Hokr Hlaidr Hgood Hloc Hloc') as (-> & Hdr).
    apply walk_names_inv in Hwalk as (-> & Hdo); [|done].
    split; [by rewrite app_assoc|].
    intros i Hi. rewrite length_app in Hi.
    destruct (decide (i < length (chain_segs r (root_locs a R)))%nat) as [Hlt|Hge].
    + rewrite take_app_le by lia. by apply Hdr.
    + replace i with (length (chain_segs r (root_locs a R))
                      + (i - length (chain_segs r (root_locs a R))))%nat by lia.
      rewrite take_app_add, app_assoc. apply Hdo. lia.
Qed.

Lemma create_all_cwd a Ls : ∀ fs fs' r,
  run (create_all a Ls) fs = (fs', r) → cwd fs' = cwd fs.
Proof.
  induction Ls as [|L Ls IH]; intros fs fs' r; [by intros [= <- _]|].
  cbn [create_all]. rewrite run_bind.
  destruct (run (DataSeries.create a L) fs) as [fs1 [[]|e]] eqn:Hrun.
  - apply create_kept in Hrun as [_ Hc]. intros ->%IH. done.
  - apply create_kept in Hrun as [_ Hc]. by intros [= <- _].
Qed.

(** [existing] with a full root prefix [g]: the own locators of the tuples
    whose root locators are [g]. *)
Lemma existing_dir a g p lr Rs fs fuel relative df d :
  chain_ok a → (DataSeries.nlocs a > 0)%Z → DataSeries.loc_dfile a = Some df →
  DataSeries.depth a = Z.of_nat (S d) →
  DataSeries.root_locator_count a = len g →
  match DataSeries.root a with
  | Some r => DataSeries.path r g fs
  | None => Ok (DataSeries.prefix a)
  end = Ok p →
  good_dir p = true → isabs p = true → glob.has_magic p = false →
  os.locate fs p = Ok (K ++ lr) → node_at (tree fs) (K ++ lr) = Some Dir →
  names_ok (tree fs) K →
  (∀ R, R ∈ Rs →
        laid_out a R ∧ dirs_to K a R (tree fs) ∧ files_at K a R (tree fs)) →
  (∀ R, R ∈ Rs → root_locs a R = g → chain_segs a R = lr ++ own_segs a R) →
  (∀ ns, length ns = S d → node_at (tree fs) (K ++ lr ++ ns) = Some Dir →
         ∃ R, R ∈ Rs ∧ root_locs a R = g ∧ ns = own_segs a R) →
  ∃ res, DataSeries.existing fuel a g relative fs
         = Ok (if relative then res else app g <$> res) ∧
         NoDup res ∧
         ∀ o, o ∈ res ↔ ∃ R, R ∈ Rs ∧ root_locs a R = g ∧ own_locs a R = o.
Proof.
  intros Hok Hn Hdf Hdepth Hcount Hp Hgood Habs Hmagic Hloc HKlr Hnames H1 Hsegs
    Hcover.
  pose proof Hok as (_ & _ & Hname & _)%chain_ok_unfold. rewrite Hdf in Hname.
  destruct (existing_scan fs p (K ++ lr) Hgood Habs Hmagic Hloc HKlr
              (names_ok_app _ _ _ Hnames) fuel a g relative df d Hn Hdf Hcount
              Hdepth Hp) as (res & Hres & Hperm).
  exists res. split; [done|].
  assert (∀ ns, ns ∈ levels (tree fs) (K ++ lr) (S d) true →
            ∃ R, R ∈ Rs ∧ root_locs a R = g ∧ ns = own_segs a R) as Hin.
  { intros ns (Hlen & _ & Hdirs)%elem_of_levels. apply Hcover; [done|].
    destruct (Hdirs (S d)) as (nd & Hnd & Hd); [lia|].
    rewrite take_ge in Hnd by lia. rewrite Hd in Hnd by by right.
    rewrite app_assoc. apply node_at_lookup; [|done].
    destruct ns; [done|]. by destruct (K ++ lr). }
  assert (∀ R, R ∈ Rs → root_locs a R = g →
            own_segs a R ∈ levels (tree fs) (K ++ lr) (S d) true ∧
            DataFile.exists_ df (join p (own_segs a R)) fs = true ∧
            read_value df fs (join p (own_segs a R)) = own_locs a R) as Hrd.
  { intros R HR Hg. destruct (H1 _ HR) as (Hlaid & Hd & Hf).
    destruct (own_segs_ok _ _ Hok Hlaid) as (_ & Holen & _ & Hvis & Honames & Hone).
    specialize (Hsegs _ HR Hg).
    assert (∀ i, (0 < i ≤ length (own_segs a R))%nat →
              node_at (tree fs) ((K ++ lr) ++ take i (own_segs a R)) = Some Dir)
      as Hod.
    { intros i Hi. rewrite <- app_assoc, <- take_app_add. rewrite <- Hsegs.
      apply Hd. rewrite Hsegs, length_app. lia. }
    split.
    - apply elem_of_levels. split_and!.
      + rewrite Holen, Hdepth. lia.
      + eapply Forall_impl; [exact (Hvis Hn)|]. apply visible_not_hidden.
      + intros i Hi. exists Dir. split; [|done]. rewrite <- node_at_app.
        * apply Hod. rewrite Holen, Hdepth. lia.
        * destruct (own_segs a R); [done|]. destruct i; [lia | done].
    - apply laid_out_unfold in Hlaid as (_ & _ & Hcodec & _).
      rewrite Hdf in Hcodec. destruct Hcodec as [?|Hcodec]; [lia|].
      destruct (read_at df fs p (K ++ lr) (own_segs a R)
                  (DataFile.writer_ df (own_locs a R))) as [Hex Hrv]; try done.
      + intros [|i] Hi; [by rewrite take_0, app_nil_r|]. apply Hod. lia.
      + rewrite <- app_assoc, (app_assoc lr), <- Hsegs. apply Hf.
        rewrite chain_files_unfold, Hdf, elem_of_app, list_elem_of_singleton.
        by right.
      + split; [done|]. by rewrite Hrv. }
  split.
  - rewrite Hperm. apply NoDup_fmap_2_strong.
    + intros ns ns' [_ Hns]%list_elem_of_filter [_ Hns']%list_elem_of_filter.
      destruct (Hin _ Hns) as (R & HR & Hg & ->).
      destruct (Hin _ Hns') as (R' & HR' & Hg' & ->). simpl.
      destruct (Hrd _ HR Hg) as (_ & _ & ->).
      destruct (Hrd _ HR' Hg') as (_ & _ & ->).
      unfold own_segs. by intros ->.
    + apply NoDup_filter, NoDup_levels.
  - intros o. rewrite Hperm, list_elem_of_fmap. split.
    + intros (ns & -> & [_ Hns]%list_elem_of_filter).
      destruct (Hin _ Hns) as (R & HR & Hg & ->).
      exists R. split_and!; [done..|]. simpl. symmetry. by apply Hrd.
    + intros (R & HR & Hg & <-). destruct (Hrd _ HR Hg) as (Hl & Hex & Hv).
      exists (own_segs a R). split; [done|]. by apply list_elem_of_filter.
Qed.

(** [existing()] on a chain: the tuples in view, each once, whatever the
    flag. *)
Lemma existing_chain a : ∀ Rs fs fuel relative,
  (DataSeries.nlocs a > 0)%Z →
  chain_ok a → good_dir (chain_prefix a) = true →
  isabs (chain_prefix a) = true → glob.has_magic (chain_prefix a) = false →
  os.locate fs (chain_prefix a) = Ok K → node_at (tree fs) K = Some Dir →
  names_ok (tree fs) K → Forall (λ s, is_name s = true) (cwd fs) →
  view K a Rs fs → (chain_height a ≤ fuel)%nat →
  ∃ res, DataSeries.existing fuel a [] relative fs = Ok res ∧
         NoDup res ∧ ∀ R, R ∈ res ↔ R ∈ Rs.
Proof.
  induction a as [a Hroot|a r Hroot IH] using chain_ind';
    intros Rs fs fuel relative Hn Hok Hgood Habs Hmagic Hloc HK Hnames Hcwd Hview
      Hfuel;
    pose proof Hok as (_ & Hd & Hname & _ & Hokr)%chain_ok_unfold;
    (destruct (DataSeries.loc_dfile a) as [df|] eqn:Hdf; [|lia]);
    pose proof (chain_depth_unfold a) as Hdepth; rewrite Hroot in Hdepth, Hokr;
    rewrite chain_prefix_unfold, Hroot in Hgood, Habs, Hmagic, Hloc;
    rewrite chain_height_unfold, Hroot in Hfuel;
    pose proof Hview as (H1 & H2 & H3).
  - destruct (existing_dir a [] (DataSeries.prefix a) [] Rs fs fuel relative df
                (Z.to_nat (DataSeries.depth a) - 1))
      as (res & Hres & Hnd & Hin); try done.
    { lia. }
    { by apply root_locator_count_rootless. }
    { by rewrite Hroot. }
    { by rewrite app_nil_r. }
    { by rewrite app_nil_r. }
    { intros R HR. by destruct (H1 _ HR) as (? & ? & ? & _). }
    { intros R HR _. by rewrite chain_segs_unfold, Hroot. }
    { intros ns Hlen Hdir. simpl in Hdir.
      destruct (H3 ns) as (R & HR & Heq); [by destruct ns | lia | done |].
      destruct (H1 _ HR) as (Hlaid & _).
      destruct (chain_segs_ok _ _ Hok Hlaid) as (HlenR & _).
      destruct (laid_out_split _ _ Hok Hlaid) as (_ & Hrl & _).
      rewrite root_locator_count_rootless in Hrl by done.
      exists R. split_and!; [done| |].
      - destruct (root_locs a R); [done | unfold len in Hrl; simpl in Hrl; lia].
      - rewrite take_ge, chain_segs_unfold, Hroot in Heq by lia. done. }
    exists res. split_and!; [|done|].
    + rewrite Hres. destruct relative; [done|]. by rewrite fmap_app_nil.
    + intros R. rewrite Hin. split.
      * intros (R' & HR' & _ & <-). destruct (H1 _ HR') as (Hlaid & _).
        by rewrite own_locs_rootless.
      * intros HR. destruct (H1 _ HR) as (Hlaid & _).
        destruct (laid_out_split _ _ Hok Hlaid) as (_ & Hrl & _).
        rewrite root_locator_count_rootless in Hrl by done.
        exists R. split_and!; [done| |by apply own_locs_rootless].
        destruct (root_locs a R); [done | unfold len in Hrl; simpl in Hrl; lia].
  - pose proof Hokr as (Hnr & _)%chain_ok_unfold.
    destruct (decide (DataSeries.nlocs r = 0%Z)) as [Hr0|Hrpos].
    + (* the roots take no locators: one scan beneath their directory *)
      pose proof (root_locator_count_trunk _ Hokr Hr0) as Hrc.
      assert (DataSeries.root_locator_count a = 0%Z) as Hrca
        by (rewrite root_locator_count_unfold, Hroot; lia).
      pose proof (laid_out_trunk _ Hokr Hr0) as Hlaidr.
      destruct (chain_path_form _ _ Hokr Hlaidr Hgood) as (Hgoodp & Habsp & Hmagicp).
      destruct (chain_segs_ok _ _ Hokr Hlaidr) as (Hlenr & Hnamesr & Hner).
      assert (DataSeries.path r [] fs = Ok (chain_path r [])) as Hpr.
      { apply well_mapped_path; [done|]. by apply laid_out_well_mapped. }
      assert (glob.has_magic (chain_path r []) = false) as Hmp.
      { apply Hmagicp; [done|].
        pose proof Hokr as (_ & _ & _ & Htr & _)%chain_ok_unfold.
        destruct (Htr Hr0) as (_ & _ & Hm).
        unfold own_locs. by rewrite drop_nil. }
      assert (∀ R, R ∈ Rs → root_locs a R = [] ∧ own_locs a R = R) as Hrl.
      { intros R HR. destruct (H1 _ HR) as (Hlaid & _).
        destruct (laid_out_split _ _ Hok Hlaid) as (_ & Hl & Happ & _).
        rewrite Hrca in Hl.
        destruct (root_locs a R); [done | unfold len in Hl; simpl in Hl; lia]. }
      destruct Rs as [|R0 Rs'].
      * (* nothing has been made: the directory of the roots is not there *)
        assert (os.isdir fs (chain_path r []) = false) as Hnodir.
        { unfold os.isdir, os.stat.
          destruct (os.locate fs (chain_path r [])) as [k|e] eqn:Hk; [|done].
          destruct (locate_chain_path_inv r [] fs k) as (-> & _); try done.
          destruct (node_at (tree fs) (K ++ chain_segs r [])) as [[|s]|] eqn:Hnode;
            try done.
          destruct (H3 (chain_segs r [])) as (R & HR%elem_of_nil & _);
            [done | lia | done | done]. }
        exists []. split_and!; [|constructor|done].
        rewrite (existing_full_prefix _ _ _ _ df) by done.
        rewrite (existing_paths_absent a [] fs (chain_path r [])
                   (Z.to_nat (DataSeries.depth a) - 1));
          [by destruct relative | by rewrite Hroot | lia | done..].
      * destruct (H1 R0) as (Hlaid0 & Hd0 & _); [by left|].
        pose proof (dirs_to_root K _ _ _ _ Hroot Hd0) as Hdr0.
        rewrite (proj1 (Hrl R0 ltac:(by left))) in Hdr0.
        destruct (existing_dir a [] (chain_path r []) (chain_segs r [])
                    (R0 :: Rs') fs fuel relative df
                    (Z.to_nat (DataSeries.depth a) - 1))
          as (res & Hres & Hnd & Hin); try done.
        { lia. }
        { by rewrite Hroot. }
        { by rewrite Habsp. }
        { by apply locate_chain_path. }
        { by apply dirs_to_last. }
        { intros R HR. by destruct (H1 _ HR) as (? & ? & ? & _). }
        { intros R HR _.
          by rewrite chain_segs_unfold, Hroot, (proj1 (Hrl _ HR)). }
        { intros ns Hlen Hdir.
          destruct (H3 (chain_segs r [] ++ ns)) as (R & HR & Heq).
          { intros [_ ->]%app_eq_nil. discriminate Hlen. }
          { rewrite length_app. lia. }
          { done. }
          destruct (H1 _ HR) as (Hlaid & _).
          destruct (chain_segs_ok _ _ Hok Hlaid) as (HlenR & _).
          rewrite take_ge, (chain_segs_unfold a R), Hroot, (proj1 (Hrl _ HR)) in Heq
            by (rewrite length_app; lia).
          apply app_inv_head in Heq.
          exists R. split_and!; [done | by apply Hrl | done]. }
        exists res. split_and!; [|done|].
        -- rewrite Hres. destruct relative; [done|]. by rewrite fmap_app_nil.
        -- intros R. rewrite Hin. split.
           ++ intros (R' & HR' & _ & <-). by rewrite (proj2 (Hrl _ HR')).
           ++ intros HR. exists R. split_and!; [done | by apply Hrl..].
    + destruct fuel as [|fuel]; [lia|].
      assert (DataSeries.nlocs r > 0)%Z as Hnrpos by lia.
      pose proof (root_locator_count_pos _ _ Hok Hroot Hnrpos) as Hpos.
      rewrite (existing_short_prefix _ _ r _ _ df) by done.
      destruct (IH (root_locs a <$> Rs) fs fuel false)
        as (roots & -> & Hrnd & Hrin); try done.
      { by apply view_root. }
      { lia. }
      cbn [mbind Res_bind].
      destruct (mapM_Res_Forall2
                  (λ g, DataSeries.existing fuel a g false fs)
                  (λ g y, NoDup y ∧ ∀ R, R ∈ y ↔ (R ∈ Rs ∧ root_locs a R = g))
                  roots) as (found & -> & Hfound).
      { intros g (R0 & -> & HR0)%Hrin%list_elem_of_fmap.
        destruct (H1 _ HR0) as (Hlaid0 & Hd0 & Hf0 & Hp0).
        destruct (laid_out_root _ _ _ Hroot Hok Hlaid0) as (_ & Hlaidr0 & Hmagic0).
        destruct (laid_out_split _ _ Hok Hlaid0) as (_ & Hrl0 & _).
        destruct (chain_path_form _ _ Hokr Hlaidr0 Hgood)
          as (Hgoodp & Habsp & Hmagicp).
        destruct (chain_segs_ok _ _ Hokr Hlaidr0) as (Hlenr0 & _).
        pose proof (dirs_to_root K _ _ _ _ Hroot Hd0) as Hdr0.
        destruct (existing_dir a (root_locs a R0) (chain_path r (root_locs a R0))
                    (chain_segs r (root_locs a R0)) Rs fs fuel false df
                    (Z.to_nat (DataSeries.depth a) - 1))
          as (res & Hres & Hnd & Hin); try done.
        { lia. }
        { rewrite Hroot. by apply (path_chain_path _ _ _ _ Hp0). }
        { by rewrite Habsp. }
        { by apply Hmagicp. }
        { by apply locate_chain_path. }
        { by apply dirs_to_last. }
        { intros R HR. by destruct (H1 _ HR) as (? & ? & ? & _). }
        { intros R HR Hg. by rewrite chain_segs_unfold, Hroot, Hg. }
        { intros ns Hlen Hdir.
          destruct (H3 (chain_segs r (root_locs a R0) ++ ns)) as (R & HR & Heq).
          { intros [_ ->]%app_eq_nil. discriminate Hlen. }
          { rewrite length_app. lia. }
          { done. }
          destruct (H1 _ HR) as (Hlaid & _).
          destruct (laid_out_root _ _ _ Hroot Hok Hlaid) as (_ & Hlaidr & _).
          destruct (chain_segs_ok _ _ Hok Hlaid) as (HlenR & _).
          destruct (chain_segs_ok _ _ Hokr Hlaidr) as (Hlenr & _).
          rewrite take_ge, (chain_segs_unfold a R), Hroot in Heq
            by (rewrite length_app; lia).
          apply app_inj_1 in Heq as [Heq ->]; [|congruence].
          exists R. split_and!; [done| |done]. symmetry.
          apply (apart_inj r); [|done].
          apply (apart_root a); [done|]. by apply H2. }
        exists (app (root_locs a R0) <$> res). split_and!; [done| |].
        - apply NoDup_fmap_2; [|done]. intros ? ?. apply app_inv_head.
        - intros R. rewrite list_elem_of_fmap. split.
          + intros (o & -> & (R' & HR' & Hg & <-)%Hin).
            destruct (H1 _ HR') as (Hlaid' & _).
            destruct (laid_out_split _ _ Hok Hlaid') as (_ & _ & Happ & _).
            rewrite <- Hg, Happ. done.
          + intros [HR Hg]. exists (own_locs a R).
            split; [|apply Hin; by exists R].
            destruct (H1 _ HR) as (Hlaid' & _).
            destruct (laid_out_split _ _ Hok Hlaid') as (_ & _ & Happ & _).
            by rewrite <- Hg, Happ. }
      cbn [mbind Res_bind].
      destruct (concat_by_key (λ g R, R ∈ Rs ∧ root_locs a R = g) roots found)
        as [Hnd Hin]; [done | done | |].
      { intros g g' R [_ <-] [_ <-]. done. }
      eexists. split_and!; [done | done |].
      intros R. rewrite Hin. split.
      * by intros (g & _ & HR & _).
      * intros HR. exists (root_locs a R). split_and!; [|done..].
        apply Hrin. by apply list_elem_of_fmap_2.
Qed.

End chain_existing.

(** ** Enumeration after creation *)



(** * Further properties of the module *)

(** ** The two parts of a locator tuple *)

(** [_root_locators] and [_self_locators] cut a tuple in two: with
    [0 <= nlocs <= len(locs)] the second part has [nlocs] locators and the
    two parts put together are the tuple; a shorter tuple fails the
    assertion of both; with a negative [nlocs] the first part is the whole
    tuple and the second is empty. *)
Theorem locators_partition {Loc} (self : DataSeries.t Loc) (locs : list Loc) :
  ((len locs < DataSeries.nlocs self)%Z →
   DataSeries._root_locators self locs = Raise AssertionError ∧
   DataSeries._self_locators self locs = Raise AssertionError) ∧
  ((DataSeries.nlocs self ≤ len locs)%Z →
   ∃ rl sl, DataSeries._root_locators self locs = Ok rl ∧
            DataSeries._self_locators self locs = Ok sl ∧
            rl ++ sl = locs ∧
            ((0 ≤ DataSeries.nlocs self)%Z → len sl = DataSeries.nlocs self) ∧
            ((DataSeries.nlocs self < 0)%Z → rl = locs ∧ sl = [])).
Proof.
  unfold DataSeries._root_locators, DataSeries._self_locators. split.
  - intros Hshort. by rewrite bool_decide_eq_false_2 by lia.
  - intros Hlong. rewrite bool_decide_eq_true_2 by lia. cbn [assert mbind Res_bind].
    eexists _, _. split_and!; [done | done | apply take_drop | |].
    + intros Hn. unfold len in *. rewrite length_drop. lia.
    + intros Hn. unfold len in *. split.
      * apply take_ge. lia.
      * apply drop_ge. lia.
Qed.

Lemma locators_partition_witness :
  (DataSeries._root_locators Scenario.series [1]%Z = Raise AssertionError ∧
   DataSeries._self_locators Scenario.series [1]%Z = Raise AssertionError) ∧
  ∃ rl sl, DataSeries._root_locators Scenario.series [7; 1; 2]%Z = Ok rl ∧
           DataSeries._self_locators Scenario.series [7; 1; 2]%Z = Ok sl ∧
           rl ++ sl = [7; 1; 2]%Z ∧
           ((0 ≤ DataSeries.nlocs Scenario.series)%Z →
            len sl = DataSeries.nlocs Scenario.series) ∧
           ((DataSeries.nlocs Scenario.series < 0)%Z → rl = [7; 1; 2]%Z ∧ sl = []).
Proof.
  split.
  - destruct (locators_partition Scenario.series [1]%Z) as [H _].
    apply H. by vm_compute.
  - destruct (locators_partition Scenario.series [7; 1; 2]%Z) as [_ H].
    apply H. by vm_compute.
Defined.

(** ** What [create] leaves behind *)

(** When [create(locs)] has returned, [exists(locs)] is true, and so is
    [exists] of the root on the root's part of the tuple. *)
Theorem create_then_exists {Loc} (self : DataSeries.t Loc) (locs : list Loc)
    (fs fs' : FS) :
  run (DataSeries.create self locs) fs = (fs', Ok tt) →
  DataSeries.exists_ self locs fs' = Ok true ∧
  ∀ r, DataSeries.root self = Some r →
       DataSeries.exists_ r (root_locs self locs) fs' = Ok true.
Proof.
  intros Hrun%create_ok_chain_exists.
  destruct self as [p m n d l [r|] rm]; cbn [chain_exists] in Hrun;
    destruct Hrun as [Hex Hroot]; (split; [done|]); intros r' [= <-].
  destruct Hroot as (rl & Hrl & Hr).
  unfold DataSeries._root_locators in Hrl.
  apply bind_Ok in Hrl as (? & _ & [= <-]).
  destruct r; by destruct Hr.
Qed.

Lemma create_then_exists_witness :
  let fs' := (run (DataSeries.create Scenario.child ["1"; "a"]) Scenario.fs0).1 in
  DataSeries.exists_ Scenario.child ["1"; "a"] fs' = Ok true ∧
  ∀ r, DataSeries.root Scenario.child = Some r →
       DataSeries.exists_ r (root_locs Scenario.child ["1"; "a"]) fs' = Ok true.
Proof.
  apply (create_then_exists Scenario.child ["1"; "a"] Scenario.fs0). reflexivity.
Defined.

(** Whatever [create(locs)] does, and also when it raises on the way, every
    directory that was there before is there after, and the working
    directory is the same. *)
Theorem create_keeps_directories {Loc} (self : DataSeries.t Loc) (locs : list Loc)
    (fs fs' : FS) (r : Res unit) :
  run (DataSeries.create self locs) fs = (fs', r) →
  cwd fs' = cwd fs ∧ ∀ p, os.isdir fs p = true → os.isdir fs' p = true.
Proof.
  intros [Hkept Hcwd]%create_kept. split; [done|].
  intros p. by apply stat_dirs_kept.
Qed.

Lemma create_keeps_directories_witness :
  let fs' := (run (DataSeries.create Scenario.child ["1"]) Scenario.fs0).1 in
  cwd fs' = cwd Scenario.fs0 ∧
  ∀ p, os.isdir Scenario.fs0 p = true → os.isdir fs' p = true.
Proof.
  apply (create_keeps_directories Scenario.child ["1"] Scenario.fs0 _
           (run (DataSeries.create Scenario.child ["1"]) Scenario.fs0).2).
  by destruct (run (DataSeries.create Scenario.child ["1"]) Scenario.fs0).
Defined.

(** ** Removal with the flag set *)

Lemma locate_sub (fs fs' : FS) p k :
  dirs_kept (tree fs') (tree fs) → cwd fs' = cwd fs →
  os.locate fs' p = Ok k → os.locate fs p = Ok k.
Proof.
  intros Hkept Hcwd. unfold os.locate, os.start_dir. rewrite Hcwd.
  destruct (posixpath.is_empty p); [done|]. by apply walk_dirs_kept.
Qed.

Lemma node_at_lookup_ne t (k : list string) : k ≠ [] → node_at t k = t !! k.
Proof. by destruct k. Qed.

Lemma strip_prefix_refl (k : list string) : strip_prefix k k = Some [].
Proof. by apply strip_prefix_Some; rewrite app_nil_r. Qed.

Lemma rmtree_effect (pth : string) (fs : FS) (k : list string) (c : string) :
  os.locate fs pth = Ok k → node_at (tree fs) k = Some Dir → k ≠ [] →
  shutil.last_component pth = Some c → c ≠ "." → c ≠ ".." →
  ∃ fs', shutil.rmtree pth fs = (fs', Ok tt) ∧ cwd fs' = cwd fs ∧
         os.isdir fs' pth = false ∧
         ∀ k', tree fs' !! k' = match strip_prefix k k' with
                                | Some _ => None
                                | None => tree fs !! k'
                                end.
Proof.
  intros Hloc Hdir Hne Hlast Hdot Hdots. unfold shutil.rmtree.
  rewrite Hloc, Hdir, Hlast.
  rewrite (bool_decide_eq_false_2 (k = [])) by done.
  rewrite (bool_decide_eq_false_2 (Some c = Some ".")) by (by intros [= ->]).
  rewrite (bool_decide_eq_false_2 (Some c = Some "..")) by (by intros [= ->]).
  eexists. split; [done|]. cbn [tree cwd].
  set (t' := filter _ (tree fs)).
  assert (∀ k', t' !! k' = match strip_prefix k k' with
                           | Some _ => None
                           | None => tree fs !! k'
                           end) as Hlook.
  { intros k'. unfold t'. destruct (tree fs !! k') as [nd|] eqn:Hk'.
    - destruct (strip_prefix k k') eqn:Hs.
      + apply map_lookup_filter_None. right. intros nd' _. simpl. congruence.
      + by apply map_lookup_filter_Some.
    - rewrite (proj2 (map_lookup_filter_None _ _ _)) by by left.
      by destruct (strip_prefix k k'). }
  split_and!; [done| |done].
  assert (dirs_kept t' (tree fs)) as Hkept.
  { intros [|x k'] Hk'; [done|]. simpl in *. rewrite Hlook in Hk'.
    by destruct (strip_prefix k (x :: k')). }
  unfold os.isdir, os.stat.
  destruct (os.locate (mkFS t' (cwd fs)) pth) as [k0|e] eqn:Hloc'; [|done].
  apply (locate_sub fs) in Hloc'; [|done..].
  assert (k0 = k) as -> by congruence.
  rewrite node_at_lookup_ne by done. cbn [tree].
  by rewrite Hlook, strip_prefix_refl.
Qed.



Lemma walk_error t cur comps e :
  os.walk t cur comps = Raise e → e = FileNotFoundError ∨ e = NotADirectoryError.
Proof.
  revert cur. induction comps as [|c rest IH]; intros cur; [done|]. simpl.
  destruct (node_at t cur) as [[|s]|]; [|intros [= <-]; by right|intros [= <-]; by left].
  repeat case_bool_decide; apply IH.
Qed.

Lemma locate_error fs p e :
  os.locate fs p = Raise e → e = FileNotFoundError ∨ e = NotADirectoryError.
Proof.
  unfold os.locate. destruct (posixpath.is_empty p); [intros [= <-]; by left|].
  apply walk_error.
Qed.

(** [remove(dir)] on a [DataFile] whose flag has been set: when the file
    exists the call returns, exactly that entry of the tree is gone and
    [exists(dir)] is false afterwards; when it does not exist the call
    raises one of the errors of [os.remove] and the state is unchanged. *)
Theorem DataFile_remove_effect {V} (df : DataFile.t V) (dir_pth : string) (fs : FS) :
  DataFile.removable df = true →
  (DataFile.exists_ df dir_pth fs = true →
   ∃ k, os.locate fs (DataFile.path df dir_pth) = Ok k ∧
        run (DataFile.remove df dir_pth) fs
        = (mkFS (delete k (tree fs)) (cwd fs), Ok tt) ∧
        DataFile.exists_ df dir_pth (mkFS (delete k (tree fs)) (cwd fs)) = false) ∧
  (DataFile.exists_ df dir_pth fs = false →
   ∃ e, run (DataFile.remove df dir_pth) fs = (fs, Raise e) ∧
        (e = FileNotFoundError ∨ e = NotADirectoryError ∨ e = IsADirectoryError)).
Proof.
  intros Hflag. unfold DataFile.remove, DataFile.exists_, os.isfile, os.stat.
  rewrite Hflag. cbn [run]. unfold os.remove.
  destruct (os.locate fs (DataFile.path df dir_pth)) as [k|e] eqn:Hloc.
  - destruct (node_at (tree fs) k) as [[|s]|] eqn:Hk; (split; [|]); try done.
    + intros _. eexists. split; [done|]. tauto.
    + intros _. exists k. split_and!; [done..|].
      assert (k ≠ []) as Hne by (by intros ->).
      set (fs' := mkFS (delete k (tree fs)) (cwd fs)).
      assert (dirs_kept (tree fs') (tree fs)) as Hkept.
      { intros [|x k'] Hk'; [done|]. simpl in *.
        by apply lookup_delete_Some in Hk' as [_ ?]. }
      destruct (os.locate fs' (DataFile.path df dir_pth)) as [k0|e] eqn:Hloc'; [|done].
      apply (locate_sub fs) in Hloc'; [|done..].
      assert (k0 = k) as -> by congruence.
      rewrite node_at_lookup_ne by done. unfold fs'. cbn [tree].
      by rewrite lookup_delete_eq.
    + intros _. eexists. split; [done|]. tauto.
  - split; [done|]. intros _. exists e. split; [done|].
    destruct (locate_error _ _ _ Hloc); tauto.
Qed.

Lemma DataFile_remove_effect_witness :
  let df := DataFile.set_removable true Scenario.info in
  let fs := (run (DataFile.write df "hello" "/tmp/x") Scenario.fs0).1 in
  (∃ k, os.locate fs (DataFile.path df "/tmp/x") = Ok k ∧
        run (DataFile.remove df "/tmp/x") fs
        = (mkFS (delete k (tree fs)) (cwd fs), Ok tt) ∧
        DataFile.exists_ df "/tmp/x" (mkFS (delete k (tree fs)) (cwd fs)) = false) ∧
  ∃ e, run (DataFile.remove df "/tmp/x") Scenario.fs0 = (Scenario.fs0, Raise e) ∧
       (e = FileNotFoundError ∨ e = NotADirectoryError ∨ e = IsADirectoryError).
Proof.
  split.
  - destruct (DataFile_remove_effect (DataFile.set_removable true Scenario.info)
                "/tmp/x"
                (run (DataFile.write (DataFile.set_removable true Scenario.info)
                        "hello" "/tmp/x") Scenario.fs0).1) as [H _];
      [reflexivity|]. apply H. reflexivity.
  - destruct (DataFile_remove_effect (DataFile.set_removable true Scenario.info)
                "/tmp/x" Scenario.fs0) as [_ H]; [reflexivity|].
    apply H. reflexivity.
Defined.

(** ** Writing and reading files *)

Lemma write_succeeds_witness :
  ∃ fs', run (DataFile.write Scenario.info "hello" "/tmp/x") Scenario.fs0 = (fs', Ok tt) ∧
         DataFile.read Scenario.info "/tmp/x" fs'
         = Ok (DataFile.reader_ Scenario.info (DataFile.writer_ Scenario.info "hello")).
Proof.
  apply (write_succeeds Scenario.info "hello" "/tmp/x" ["tmp"; "x"] Scenario.fs0);
    [reflexivity | reflexivity | reflexivity | reflexivity | by vm_compute].
Defined.

Lemma exists_dirs_kept_insert fs k s p :
  node_at (tree fs) k ≠ Some Dir →
  os.exists_ fs p = true →
  os.exists_ (mkFS (<[k := File s]> (tree fs)) (cwd fs)) p = true.
Proof.
  intros Hk. unfold os.exists_, os.stat.
  destruct (os.locate fs p) as [kp|e] eqn:Hloc; [|done].
  assert (os.locate (mkFS (<[k := File s]> (tree fs)) (cwd fs)) p = Ok kp) as ->.
  { revert Hloc. unfold os.locate, os.start_dir. simpl.
    destruct (posixpath.is_empty p); [done|].
    by apply walk_dirs_kept, dirs_kept_insert. }
  cbn [tree]. destruct (decide (k = kp)) as [->|Hne].
  - destruct kp; [done|]. simpl. by rewrite lookup_insert_eq.
  - by rewrite node_at_insert_ne.
Qed.

(** The last [write] wins: after a [write] that returned, a second [write]
    to the same directory returns as well, leaves the state that it would
    have left without the first, and [read] gives what the second wrote. *)
Theorem write_overwrites {V} (df : DataFile.t V) (v1 v2 : V) (dir_pth : string)
    (fs fs1 : FS) :
  run (DataFile.write df v1 dir_pth) fs = (fs1, Ok tt) →
  ∃ fs2, run (DataFile.write df v2 dir_pth) fs1 = (fs2, Ok tt) ∧
         run (DataFile.write df v2 dir_pth) fs = (fs2, Ok tt) ∧
         DataFile.read df dir_pth fs2
         = Ok (DataFile.reader_ df (DataFile.writer_ df v2)).
Proof.
  intros [Hex Hw]%DataFile_write_inv.
  apply write_file_inv in Hw as (k & Hloc & Hk & ->).
  set (pth := DataFile.path df dir_pth) in *.
  assert (k ≠ []) as Hne by (by intros ->).
  assert (os.locate (mkFS (<[k := File (DataFile.writer_ df v1)]> (tree fs)) (cwd fs))
            pth = Ok k) as Hloc1.
  { revert Hloc. unfold os.locate, os.start_dir. simpl.
    destruct (posixpath.is_empty pth); [done|].
    by apply walk_dirs_kept, dirs_kept_insert. }
  assert (run (DataFile.write df v2 dir_pth) fs
          = (mkFS (<[k := File (DataFile.writer_ df v2)]> (tree fs)) (cwd fs), Ok tt))
    as Hrun2.
  { unfold DataFile.write. rewrite run_bind. cbn [run inspect]. rewrite Hex.
    cbn [assert]. fold pth. unfold io_.write_file. rewrite Hloc.
    by destruct (node_at (tree fs) k) as [[|s]|]. }
  exists (mkFS (<[k := File (DataFile.writer_ df v2)]> (tree fs)) (cwd fs)).
  split_and!; [|done|].
  - unfold DataFile.write. rewrite run_bind. cbn [run inspect].
    rewrite exists_dirs_kept_insert by done.
    cbn [assert]. fold pth. unfold io_.write_file. rewrite Hloc1. cbn [tree cwd].
    rewrite node_at_insert_eq by done. by rewrite insert_insert_eq.
  - apply DataFile_write_inv in Hrun2 as [_ Hw].
    apply write_file_read_file in Hw as [Hfile Hread].
    unfold DataFile.read, DataFile.exists_.
    rewrite Hfile. cbn [assert mbind Res_bind]. by rewrite Hread.
Qed.

Lemma write_overwrites_witness :
  let fs1 := (run (DataFile.write Scenario.info "one" "/tmp/x") Scenario.fs0).1 in
  ∃ fs2, run (DataFile.write Scenario.info "two" "/tmp/x") fs1 = (fs2, Ok tt) ∧
         run (DataFile.write Scenario.info "two" "/tmp/x") Scenario.fs0 = (fs2, Ok tt) ∧
         DataFile.read Scenario.info "/tmp/x" fs2
         = Ok (DataFile.reader_ Scenario.info (DataFile.writer_ Scenario.info "two")).
Proof.
  apply (write_overwrites Scenario.info "one" "two" "/tmp/x" Scenario.fs0).
  reflexivity.
Defined.

(** [read] returns exactly when the file is there: it then gives the
    reader's value of the file's text, and fails its assertion otherwise. *)
Theorem read_when_exists {V} (df : DataFile.t V) (dir_pth : string) (fs : FS) :
  (DataFile.exists_ df dir_pth fs = false →
   DataFile.read df dir_pth fs = Raise AssertionError) ∧
  (DataFile.exists_ df dir_pth fs = true →
   ∃ s, os.stat fs (DataFile.path df dir_pth) = Some (File s) ∧
        DataFile.read df dir_pth fs = Ok (DataFile.reader_ df s)).
Proof.
  unfold DataFile.read, DataFile.exists_, os.isfile, os.stat, io_.read_file. split.
  - by intros ->.
  - intros Hex. rewrite Hex. cbn [assert mbind Res_bind].
    destruct (os.locate fs (DataFile.path df dir_pth)) as [k|e]; [|done].
    destruct (node_at (tree fs) k) as [[|s]|]; try done. by exists s.
Qed.

Lemma read_when_exists_witness :
  DataFile.read Scenario.info "/tmp/x" Scenario.fs0 = Raise AssertionError ∧
  ∃ s, os.stat (run (DataFile.write Scenario.info "hello" "/tmp/x") Scenario.fs0).1
         (DataFile.path Scenario.info "/tmp/x") = Some (File s) ∧
       DataFile.read Scenario.info "/tmp/x"
         (run (DataFile.write Scenario.info "hello" "/tmp/x") Scenario.fs0).1
       = Ok (DataFile.reader_ Scenario.info s).
Proof.
  split.
  - destruct (read_when_exists Scenario.info "/tmp/x" Scenario.fs0) as [H _].
    apply H. reflexivity.
  - destruct (read_when_exists Scenario.info "/tmp/x"
                (run (DataFile.write Scenario.info "hello" "/tmp/x") Scenario.fs0).1)
      as [_ H].
    apply H. reflexivity.
Defined.

(** ** Files of a series *)

(** Through a [DataSeriesFile], what [write(val, locs)] has written
    [read(locs)] gives back, decoded by the reader, and [exists(locs)] is
    true. *)
Theorem DataSeriesFile_read_after_write {Loc V} (dsf : DataSeriesFile.t Loc V)
    (v : V) (locs : list Loc) (fs fs' : FS) :
  run (DataSeriesFile.write dsf v locs) fs = (fs', Ok tt) →
  DataSeriesFile.exists_ dsf locs fs' = Ok true ∧
  DataSeriesFile.read dsf locs fs'
  = Ok (DataFile.reader_ (DataSeriesFile.file dsf)
          (DataFile.writer_ (DataSeriesFile.file dsf) v)).
Proof.
  unfold DataSeriesFile.write, DataSeriesFile.read, DataSeriesFile.exists_.
  rewrite run_bind. cbn [run inspect].
  destruct (DataSeries.path (DataSeriesFile.dir dsf) locs fs) as [pth|e] eqn:Hpath;
    [|done].
  intros Hw. pose proof Hw as [_ Hwf]%DataFile_write_inv.
  pose proof (write_file_kept _ _ _ _ _ Hwf) as [_ Hcwd].
  rewrite (path_cwd _ _ _ _ Hcwd), Hpath. cbn [mbind Res_bind].
  apply write_file_read_file in Hwf as [Hfile Hread].
  unfold DataFile.read, DataFile.exists_. rewrite Hfile.
  cbn [assert mbind Res_bind]. by rewrite Hread.
Qed.

Lemma DataSeriesFile_read_after_write_witness :
  let dsf := DataSeriesFile.__init__ Scenario.parent Scenario.info in
  let fs1 := (run (DataSeries.create Scenario.parent ["1"]) Scenario.fs0).1 in
  let fs2 := (run (DataSeriesFile.write dsf "hello" ["1"]) fs1).1 in
  DataSeriesFile.exists_ dsf ["1"] fs2 = Ok true ∧
  DataSeriesFile.read dsf ["1"] fs2
  = Ok (DataFile.reader_ Scenario.info (DataFile.writer_ Scenario.info "hello")).
Proof.
  apply (DataSeriesFile_read_after_write
           (DataSeriesFile.__init__ Scenario.parent Scenario.info) "hello" ["1"]
           (run (DataSeries.create Scenario.parent ["1"]) Scenario.fs0).1).
  reflexivity.
Defined.

(** [write(val, locs)] through a [DataSeriesFile] before anything exists at
    the path of the tuple fails the assertion of [DataFile.write] and
    writes nothing. *)
Theorem DataSeriesFile_write_needs_directory {Loc V} (dsf : DataSeriesFile.t Loc V)
    (v : V) (locs : list Loc) (fs : FS) (pth : string) :
  DataSeries.path (DataSeriesFile.dir dsf) locs fs = Ok pth →
  os.exists_ fs pth = false →
  run (DataSeriesFile.write dsf v locs) fs = (fs, Raise AssertionError).
Proof.
  intros Hpath Hex. unfold DataSeriesFile.write, DataFile.write.
  rewrite !run_bind. cbn [run inspect]. rewrite Hpath.
  rewrite run_bind. cbn [run inspect]. by rewrite Hex.
Qed.

Lemma DataSeriesFile_write_needs_directory_witness :
  run (DataSeriesFile.write (DataSeriesFile.__init__ Scenario.parent Scenario.info)
         "hello" ["1"]) Scenario.fs0
  = (Scenario.fs0, Raise AssertionError).
Proof.
  apply (DataSeriesFile_write_needs_directory
           (DataSeriesFile.__init__ Scenario.parent Scenario.info) "hello" ["1"]
           Scenario.fs0 "/tmp/x/1"); reflexivity.
Defined.

(** ** [existing] on arguments it does not accept *)

(** With [nlocs > 0] and a locator file, a root prefix longer than the
    locators of the root chain fails the assertion of [existing]; and so
    does every call on a series with a negative [nlocs]. *)
Theorem existing_rejects_long_prefix {Loc} (fuel : nat) (self : DataSeries.t Loc)
    (root_locs : list Loc) (relative : bool) (fs : FS) :
  ((DataSeries.nlocs self > 0)%Z → is_Some (DataSeries.loc_dfile self) →
   (DataSeries.root_locator_count self < len root_locs)%Z →
   DataSeries.existing fuel self root_locs relative fs = Raise AssertionError) ∧
  ((DataSeries.nlocs self < 0)%Z →
   DataSeries.existing fuel self root_locs relative fs = Raise AssertionError).
Proof.
  split.
  - intros Hn [df Hdf] Hlong.
    destruct fuel; simpl; rewrite Hdf;
      rewrite (bool_decide_eq_false_2 (DataSeries.nlocs self = 0%Z)) by lia;
      rewrite (bool_decide_eq_true_2 (DataSeries.nlocs self > 0)%Z) by done;
      rewrite (bool_decide_eq_false_2
                 (len root_locs < DataSeries.root_locator_count self)%Z) by lia;
      by rewrite (bool_decide_eq_false_2
                    (DataSeries.root_locator_count self = len root_locs)) by lia.
  - intros Hn. destruct fuel; simpl;
      rewrite (bool_decide_eq_false_2 (DataSeries.nlocs self = 0%Z)) by lia;
      by rewrite (bool_decide_eq_false_2 (DataSeries.nlocs self > 0)%Z) by lia.
Qed.

Lemma existing_rejects_long_prefix_witness :
  DataSeries.existing 1 Scenario.child ["1"; "a"] false Scenario.fs0
    = Raise AssertionError ∧
  DataSeries.existing 1
    (DataSeries.mk "/tmp/x" Scenario.map_a (-1) 1 (Some Scenario.loc_dfile) None false)
    [] false Scenario.fs0 = Raise AssertionError.
Proof.
  split.
  - destruct (existing_rejects_long_prefix 1 Scenario.child ["1"; "a"] false
                Scenario.fs0) as [H _].
    apply H; [by vm_compute | by eexists | by vm_compute].
  - destruct (existing_rejects_long_prefix 1
                (DataSeries.mk "/tmp/x" Scenario.map_a (-1) 1
                   (Some Scenario.loc_dfile) None false) [] false Scenario.fs0)
      as [_ H].
    apply H. by vm_compute.
Defined.

Lemma existing_no_locators {Loc} (fuel : nat) (self : DataSeries.t Loc)
    (root_locs : list Loc) (relative : bool) (fs : FS) :
  DataSeries.nlocs self = 0%Z →
  DataSeries.existing fuel self root_locs relative fs
  = (ex ← DataSeries.exists_ self [] fs; Ok (if ex : bool then [[]] else [])).
Proof.
  intros Hn. destruct fuel; simpl;
    by rewrite (bool_decide_eq_true_2 (DataSeries.nlocs self = 0%Z)).
Qed.

(** A series that takes no locators itself, on a root that takes some:
    [existing] asks [exists()] with no locators, the root's [path] fails
    its length assertion, and [existing] raises, whatever its arguments
    and whatever the tree holds. *)
Theorem existing_without_locators_on_root {Loc} (fuel : nat)
    (self r : DataSeries.t Loc) (root_locs : list Loc) (relative : bool) (fs : FS) :
  DataSeries.nlocs self = 0%Z → DataSeries.root self = Some r →
  (0 < DataSeries.nlocs r)%Z →
  DataSeries.existing fuel self root_locs relative fs = Raise AssertionError.
Proof.
  intros Hn Hroot Hr.
  assert (DataSeries.exists_ self [] fs = Raise AssertionError) as Hex.
  { unfold DataSeries.exists_. rewrite path_unfold, Hroot.
    unfold DataSeries._root_locators, DataSeries._self_locators, len.
    rewrite Hn. cbn [length].
    rewrite bool_decide_eq_true_2 by lia. cbn [assert mbind Res_bind].
    rewrite take_nil, drop_nil, path_unfold.
    destruct (DataSeries.root r) as [r2|].
    - unfold DataSeries._root_locators, len. cbn [length].
      by rewrite (bool_decide_eq_false_2 (Z.of_nat 0 >= DataSeries.nlocs r)%Z) by lia.
    - unfold path_own, len. cbn [length].
      by rewrite (bool_decide_eq_false_2 (Z.of_nat 0 = DataSeries.nlocs r)) by lia. }
  by rewrite existing_no_locators, Hex.
Qed.

Lemma existing_without_locators_on_root_witness :
  DataSeries.existing 1
    (DataSeries.mk "/tmp/x" (λ _, "data") 0 1 None (Some Scenario.parent) false)
    ["1"] false Scenario.fs0 = Raise AssertionError.
Proof.
  apply (existing_without_locators_on_root 1
           (DataSeries.mk "/tmp/x" (λ _, "data") 0 1 None (Some Scenario.parent) false)
           Scenario.parent ["1"] false Scenario.fs0); reflexivity.
Defined.

(** ** [create] does not overwrite *)

Section monotone.
Import posixpath.

#[local] Arguments String.append !_ _ / : simpl nomatch.

Lemma parent_closed_spec t :
  parent_closed t ↔ ∀ k x nd, t !! (k ++ [x]) = Some nd → node_at t k = Some Dir.
Proof.
  unfold parent_closed. rewrite map_Forall_lookup. split.
  - intros H k x nd Hk. specialize (H _ _ Hk). by rewrite removelast_last in H.
  - intros H k nd Hk. destruct k as [|y k] using rev_ind; [done|].
    rewrite removelast_last. by eapply H.
Qed.

Lemma locate_join2_name fs p x K :
  is_empty p = false →
  os.locate fs p = Ok K → node_at (tree fs) K = Some Dir →
  is_name x = true →
  os.locate fs (join2 p x) = Ok (K ++ [x]).
Proof.
  intros Hne Hloc HK Hx.
  pose proof (is_name_no_sep _ Hx) as Hns.
  assert (os.walk (tree fs) K [x] = Ok (K ++ [x])) as Hstep.
  { apply walk_names; [by constructor|].
    intros i Hi. simpl in Hi. replace i with 0%nat by lia.
    by rewrite take_0, app_nil_r. }
  unfold join2. rewrite (no_sep_startswith _ Hns), Hne. cbn [orb].
  revert Hloc. unfold os.locate, os.start_dir. rewrite Hne.
  destruct (endswith_sep p) eqn:Hp.
  - destruct (endswith_sep_inv _ Hp) as (p' & ->).
    rewrite is_empty_append, Hne. cbn [andb].
    rewrite (startswith_sep_append (p' +:+ "/")) by done.
    rewrite split_str_sep_end. intros [Hw _]%walk_trailing_empty.
    rewrite append_assoc. rewrite split_str_app_sep, walk_app, Hw.
    cbn [mbind Res_bind]. by rewrite split_str_no_sep.
  - intros Hw. rewrite is_empty_append, Hne. cbn [andb].
    rewrite (startswith_sep_append p) by done.
    rewrite split_str_app_sep, walk_app, Hw.
    cbn [mbind Res_bind]. by rewrite split_str_no_sep.
Qed.

(** [os.makedirs] adds directories and changes nothing that is there. *)
Lemma makedirs_walk_mono t cur comps fresh t' r :
  os.makedirs_walk t cur comps fresh = (t', r) →
  t ⊆ t' ∧ (parent_closed t → parent_closed t') ∧
  ∀ k nd, t' !! k = Some nd → t !! k = Some nd ∨ nd = Dir.
Proof.
  revert t cur fresh. induction comps as [|c rest IH]; intros t cur fresh; simpl.
  { intros [= <- _]. split_and!; [done | done | by left]. }
  destruct (node_at t cur) as [[|s]|] eqn:Hcur;
    try (intros [= <- _]; split_and!; [done | done | by left]).
  do 2 (case_bool_decide; [apply IH|]).
  destruct (node_at t (cur ++ [c])) as [[|s]|] eqn:Hnext.
  - apply IH.
  - intros [= <- _]. split_and!; [done | done | by left].
  - intros (Hsub & Hpc & Hnew)%IH.
    assert (t !! (cur ++ [c]) = None) as Hnone.
    { by rewrite <- node_at_lookup_ne by (by destruct cur). }
    split_and!.
    + etrans; [|done]. by apply insert_subseteq.
    + intros Hclosed. apply Hpc, parent_closed_spec. intros k x nd.
      destruct (decide (k ++ [x] = cur ++ [c])) as [Heq|Hne].
      * apply app_inj_tail in Heq as [-> ->]. intros _.
        rewrite node_at_insert_ne; [done|].
        intros Heq%(f_equal length). rewrite length_app in Heq. simpl in Heq. lia.
      * rewrite lookup_insert_ne by done. intros Hk.
        apply dirs_kept_insert; [by rewrite Hnext|].
        by apply (proj1 (parent_closed_spec t) Hclosed k x nd).
    + intros k nd Hk. destruct (Hnew _ _ Hk) as [Hk'| ->]; [|by right].
      destruct (decide (k = cur ++ [c])) as [->|Hne].
      * rewrite lookup_insert_eq in Hk'. right. congruence.
      * rewrite lookup_insert_ne in Hk' by done. by left.
Qed.

(** When [os.makedirs] returns, the directory it ends at is new. *)
Lemma makedirs_walk_fresh t0 t cur comps fresh t' :
  t0 ⊆ t → (fresh = true → node_at t0 cur = None) →
  os.makedirs_walk t cur comps fresh = (t', Ok tt) →
  ∀ k, os.walk t' cur comps = Ok k → node_at t0 k = None.
Proof.
  revert t cur fresh. induction comps as [|c rest IH]; intros t cur fresh Hsub Hfresh;
    simpl.
  { destruct fresh; [|done]. intros _ k [= <-]. by apply Hfresh. }
  destruct (node_at t cur) as [[|s]|] eqn:Hcur; try done.
  intros Hw.
  assert (node_at t' cur = Some Dir) as ->.
  { revert Hw.
    do 2 (case_bool_decide;
          [intros Hw; by apply (makedirs_walk_kept _ _ _ _ _ _ Hw)|]).
    destruct (node_at t (cur ++ [c])) as [[|s]|] eqn:Hnext; try done.
    - intros Hw. by apply (makedirs_walk_kept _ _ _ _ _ _ Hw).
    - intros Hw. apply (makedirs_walk_kept _ _ _ _ _ _ Hw).
      rewrite node_at_insert_ne; [done|]. intros Heq. rewrite Heq in Hnext.
      congruence. }
  revert Hw. case_bool_decide; [by apply IH|].
  case_bool_decide; [by apply IH|].
  destruct (node_at t (cur ++ [c])) as [[|s]|] eqn:Hnext; try done.
  - by apply IH.
  - assert (t !! (cur ++ [c]) = None) as Hnone.
    { by rewrite <- node_at_lookup_ne by (by destruct cur). }
    apply IH.
    + etrans; [done|]. by apply insert_subseteq.
    + intros _. rewrite node_at_lookup_ne by (by destruct cur).
      by eapply lookup_weaken_None.
Qed.

Lemma makedirs_mono name fs fs' r :
  os.makedirs name fs = (fs', r) →
  tree fs ⊆ tree fs' ∧ (parent_closed (tree fs) → parent_closed (tree fs')) ∧
  (∀ k nd, tree fs' !! k = Some nd → tree fs !! k = Some nd ∨ nd = Dir) ∧
  (r = Ok tt → is_empty name = false ∧
               ∃ k, os.locate fs' name = Ok k ∧ node_at (tree fs') k = Some Dir ∧
                    node_at (tree fs) k = None).
Proof.
  unfold os.makedirs. destruct (is_empty name) eqn:Hne.
  { intros [= <- <-]. split_and!; [done | done | by left | done]. }
  destruct (os.makedirs_walk _ _ _ _) as [t r'] eqn:Hw.
  intros [= <- <-]. cbn [tree].
  destruct (makedirs_walk_mono _ _ _ _ _ _ Hw) as (Hsub & Hpc & Hnew).
  split_and!; [done..|]. intros ->. split; [done|].
  destruct (makedirs_walk_ok _ _ _ _ _ (λ H, False_ind _ (Bool.diff_false_true H)) Hw)
    as (k & Hwalk & Hk).
  exists k. unfold os.locate, os.start_dir in *. rewrite Hne. cbn [tree cwd].
  split_and!; [done | done |].
  eapply (makedirs_walk_fresh (tree fs) (tree fs) _ _ false t);
    [reflexivity | done | exact Hw | exact Hwalk].
Qed.

Lemma create_own_mono {Loc} (self : DataSeries.t Loc) locs fs fs' r :
  match DataSeries.loc_dfile self with
  | Some df => is_name (DataFile.name df) = true
  | None => True
  end →
  parent_closed (tree fs) →
  run (create_own self locs) fs = (fs', r) →
  tree fs ⊆ tree fs' ∧ parent_closed (tree fs').
Proof.
  intros Hname Hpc. unfold create_own. rewrite run_bind. cbn [run inspect].
  destruct (DataSeries.exists_ self locs fs) as [[]|e]; cbn [negb];
    try (by intros [= <- _]).
  rewrite run_bind. cbn [run inspect].
  destruct (DataSeries.path self locs fs) as [pth|e]; [|by intros [= <- _]].
  rewrite run_bind. cbn [run].
  destruct (os.makedirs pth fs) as [fs2 r2] eqn:Hmk.
  destruct (makedirs_mono _ _ _ _ Hmk) as (Hsub & Hpc2 & Hnew & Hok).
  destruct r2 as [[]|e]; [|by intros [= <- _]; auto].
  destruct (Hok eq_refl) as (Hne & kd & Hloc & Hkd & Hfresh).
  destruct (DataSeries.loc_dfile self) as [df|]; [|by intros [= <- _]; auto].
  rewrite run_bind. cbn [run inspect].
  destruct (DataSeries._self_locators self locs) as [sl|e]; [|by intros [= <- _]; auto].
  unfold DataFile.write. rewrite run_bind. cbn [run inspect].
  destruct (os.exists_ fs2 pth); cbn [assert]; [|by intros [= <- _]; auto].
  unfold io_.write_file, DataFile.path.
  change (join pth [DataFile.name df]) with (join2 pth (DataFile.name df)).
  rewrite (locate_join2_name fs2 pth _ kd) by done.
  set (kf := kd ++ [DataFile.name df]).
  assert (kd ≠ []) as Hkdne by (by intros ->).
  assert (tree fs2 !! kf = None ∨ tree fs2 !! kf = Some Dir) as Hkf.
  { destruct (tree fs2 !! kf) as [nd|] eqn:Hk; [|by left].
    destruct (Hnew _ _ Hk) as [Hold| ->]; [|by right].
    apply (proj1 (parent_closed_spec _) Hpc) in Hold. congruence. }
  rewrite node_at_lookup_ne by (by destruct kd).
  destruct Hkf as [Hkf|Hkf]; rewrite Hkf; intros [= <- _]; cbn [tree]; [|auto].
  split.
  - etrans; [done|]. by apply insert_subseteq.
  - apply parent_closed_spec. intros k x nd.
    destruct (decide (k ++ [x] = kf)) as [Heq|Hneq].
    + apply app_inj_tail in Heq as [-> ->]. intros _.
      rewrite node_at_insert_ne; [done|].
      intros Heq%(f_equal length). unfold kf in Heq.
      rewrite length_app in Heq. simpl in Heq. lia.
    + rewrite lookup_insert_ne by done. intros Hk.
      apply dirs_kept_insert.
      * rewrite node_at_lookup_ne by (by destruct kd). by rewrite Hkf.
      * by apply (proj1 (parent_closed_spec _) (Hpc2 Hpc) k x nd).
Qed.

Lemma plain_locator_files_unfold {Loc} (a : DataSeries.t Loc) :
  plain_locator_files a ↔
  match DataSeries.loc_dfile a with
  | Some df => is_name (DataFile.name df) = true
  | None => True
  end ∧
  match DataSeries.root a with
  | None => True
  | Some r => plain_locator_files r
  end.
Proof. by destruct a. Qed.

Lemma create_mono {Loc} (self : DataSeries.t Loc) : ∀ locs fs fs' r,
  plain_locator_files self → parent_closed (tree fs) →
  run (DataSeries.create self locs) fs = (fs', r) →
  tree fs ⊆ tree fs' ∧ parent_closed (tree fs').
Proof.
  induction self as [a Hroot|a r0 Hroot IH] using chain_ind';
    intros locs fs fs' r [Hname Hplain]%plain_locator_files_unfold Hpc;
    rewrite create_unfold, Hroot; rewrite Hroot in Hplain.
  - by apply create_own_mono.
  - destruct (DataSeries._root_locators a locs) as [rl|e]; [|by intros [= <- _]].
    destruct (run (DataSeries.create r0 rl) fs) as [fs1 r1] eqn:Hrun1.
    destruct (IH _ _ _ _ Hplain Hpc Hrun1) as [Hsub1 Hpc1].
    destruct r1 as [[]|e]; [|by intros [= <- _]].
    intros [Hsub2 Hpc2]%create_own_mono; [|done..].
    split; [by etrans | done].
Qed.

End monotone.

(** In a tree where every entry lies in a directory, and with locator files
    of plain names, [create(locs)] overwrites and removes nothing, also
    when it raises on the way: every entry that was there before is there
    after, with the same content. *)
Theorem create_never_overwrites {Loc} (self : DataSeries.t Loc) (locs : list Loc)
    (fs fs' : FS) (r : Res unit) :
  plain_locator_files self → parent_closed (tree fs) →
  run (DataSeries.create self locs) fs = (fs', r) →
  parent_closed (tree fs') ∧
  ∀ k nd, tree fs !! k = Some nd → tree fs' !! k = Some nd.
Proof.
  intros Hplain Hpc Hrun.
  destruct (create_mono self locs fs fs' r Hplain Hpc Hrun) as [Hsub Hpc'].
  split; [done|]. intros k nd Hk. by eapply lookup_weaken.
Qed.

Lemma create_never_overwrites_witness :
  let fs := (run (DataSeries.create Scenario.child ["1"; "a"]) Scenario.fs0).1 in
  let fs' := (run (DataSeries.create Scenario.child ["1"; "b"]) fs).1 in
  parent_closed (tree fs') ∧
  ∀ k nd, tree fs !! k = Some nd → tree fs' !! k = Some nd.
Proof.
  apply (create_never_overwrites Scenario.child ["1"; "b"]
           (run (DataSeries.create Scenario.child ["1"; "a"]) Scenario.fs0).1 _
           (run (DataSeries.create Scenario.child ["1"; "b"])
              (run (DataSeries.create Scenario.child ["1"; "a"]) Scenario.fs0).1).2).
  - by vm_compute.
  - apply (bool_decide_unpack _). by vm_compute.
  - by destruct (run (DataSeries.create Scenario.child ["1"; "b"]) _).
Defined.

(** ** When [create] returns *)

Section returns.
Import posixpath.

Lemma makedirs_walk_succeeds t K segs fresh :
  Forall (λ s, is_name s = true) segs →
  node_at t K = Some Dir →
  (∀ i c, (0 < i ≤ length segs)%nat → node_at t (K ++ take i segs) ≠ Some (File c)) →
  (segs = [] → fresh = true) →
  (segs ≠ [] → node_at t (K ++ segs) = None) →
  ∃ t', os.makedirs_walk t K segs fresh = (t', Ok tt).
Proof.
  revert t K fresh. induction segs as [|c rest IH];
    intros t K fresh Hnames HK Hnofile Hfresh Hnone.
  { simpl. rewrite Hfresh by done. by eexists. }
  apply Forall_cons in Hnames as [Hc Hrest].
  destruct (is_name_plain _ Hc) as (H1 & H2 & H3).
  simpl. rewrite HK.
  rewrite bool_decide_eq_false_2 by (by intros [?|?]).
  rewrite (bool_decide_eq_false_2 (c = "..")) by done.
  assert (∀ t2, (∀ k, k ≠ K ++ [c] → node_at t2 k = node_at t k) →
            node_at t2 (K ++ [c]) = Some Dir →
            (∀ i c0, (0 < i ≤ length rest)%nat →
                     node_at t2 ((K ++ [c]) ++ take i rest) ≠ Some (File c0)) ∧
            (rest ≠ [] → node_at t2 ((K ++ [c]) ++ rest) = None)) as Hnext.
  { intros t2 Hsame Hdir. split.
    - intros i c0 Hi. rewrite Hsame.
      + rewrite <- app_assoc. apply (Hnofile (S i) c0). simpl. lia.
      + intros Heq%(f_equal length). rewrite !length_app, length_take in Heq.
        simpl in Heq. lia.
    - intros Hr. rewrite Hsame.
      + rewrite <- app_assoc. by apply Hnone.
      + intros Heq%(f_equal length). rewrite !length_app in Heq.
        destruct rest; [done | simpl in Heq; lia]. }
  destruct (node_at t (K ++ [c])) as [[|s]|] eqn:Hn.
  - destruct (Hnext t) as [Hf Hno]; [done | done |].
    apply IH; try done.
    intros ->. specialize (Hnone ltac:(done)). congruence.
  - by destruct (Hnofile 1%nat s); [simpl; lia|].
  - destruct (Hnext (<[K ++ [c] := Dir]> t)) as [Hf Hno].
    { intros k Hk. by apply node_at_insert_ne. }
    { apply node_at_insert_eq. by destruct K. }
    apply IH; try done. apply node_at_insert_eq. by destruct K.
Qed.

Context {Loc : Type} (K : list string).
Implicit Types (a : DataSeries.t Loc) (R L : list Loc).

(** The step of [create] for the series itself returns. *)
Lemma own_returns a L (lr : list string) p fs1 :
  chain_ok a → laid_out a L →
  good_dir p = true → os.locate fs1 p = Ok (K ++ lr) →
  node_at (tree fs1) (K ++ lr) = Some Dir →
  DataSeries.path a L fs1 = Ok (join2 p (DataSeries.map_ a (own_locs a L))) →
  (∀ i c, (0 < i ≤ length (own_segs a L))%nat →
          node_at (tree fs1) (K ++ lr ++ take i (own_segs a L)) ≠ Some (File c)) →
  (∀ df, DataSeries.loc_dfile a = Some df →
         node_at (tree fs1) (K ++ lr ++ own_segs a L ++ [DataFile.name df])
         ≠ Some Dir) →
  (node_at (tree fs1) (K ++ lr ++ own_segs a L) = Some Dir →
   ∀ i, (i ≤ length (own_segs a L))%nat →
        node_at (tree fs1) (K ++ lr ++ take i (own_segs a L)) = Some Dir) →
  ∃ fs', run (create_own a L) fs1 = (fs', Ok tt).
Proof.
  intros Hok Hlaid Hgood Hloc HKr Hpath Hnofile Hnodir Hpre.
  destruct (own_segs_ok _ _ Hok Hlaid) as (Hmap & _ & Hpos & _ & Hnames & Hne).
  destruct (laid_out_split _ _ Hok Hlaid) as (_ & _ & _ & _ & Hsl).
  pose proof Hok as (_ & _ & Hname & _)%chain_ok_unfold.
  rewrite Hmap in Hpath. set (pth := join2 p (join_str (own_segs a L))) in *.
  unfold create_own. rewrite run_bind. cbn [run inspect].
  unfold DataSeries.exists_. rewrite Hpath. cbn [mbind Res_bind].
  destruct (os.isdir fs1 pth) eqn:Hisdir; cbn [negb]; [by eexists|].
  rewrite run_bind. cbn [run inspect]. rewrite Hpath.
  rewrite run_bind. cbn [run].
  assert (node_at (tree fs1) ((K ++ lr) ++ own_segs a L) = None) as Hnone.
  { destruct (node_at (tree fs1) ((K ++ lr) ++ own_segs a L)) as [[|s]|] eqn:Hn;
      [| |done].
    - exfalso. rewrite <- app_assoc in Hn. specialize (Hpre Hn).
      revert Hisdir. unfold os.isdir, os.stat, pth.
      rewrite (locate_join2 fs1 p (own_segs a L) (K ++ lr)) by done.
      rewrite walk_names; [by rewrite <- app_assoc, Hn | done |].
      intros i Hi. rewrite <- app_assoc. apply Hpre. lia.
    - exfalso. rewrite <- app_assoc in Hn.
      apply (Hnofile (length (own_segs a L)) s); [lia|].
      by rewrite take_ge by lia. }
  unfold pth at 1. rewrite (makedirs_join2 fs1 p (own_segs a L) (K ++ lr)) by done.
  destruct (makedirs_walk_succeeds (tree fs1) (K ++ lr) (own_segs a L) false)
    as [t2 Hmk]; try done.
  { intros i c Hi. rewrite <- app_assoc. by apply Hnofile. }
  rewrite Hmk.
  destruct (DataSeries.loc_dfile a) as [df|] eqn:Hdf; [|by eexists].
  specialize (Hnodir df eq_refl).
  rewrite run_bind. cbn [run inspect]. rewrite Hsl.
  destruct (makedirs_walk_names _ _ _ _ _ Hnames Hmk) as [Hdirs Hrest].
  set (fs2 := mkFS t2 (cwd fs1)).
  assert (os.locate fs2 pth = Ok ((K ++ lr) ++ own_segs a L)) as Hloc2.
  { unfold pth. rewrite (locate_join2 fs2 p (own_segs a L) (K ++ lr)); try done.
    - apply walk_names; [done|]. intros [|i] Hi.
      + rewrite take_0, app_nil_r. rewrite Hrest; [done|].
        intros j Hj Heq%(f_equal length).
        rewrite !length_app, length_take in Heq. lia.
      + apply Hdirs. lia.
    - revert Hloc. unfold os.locate, os.start_dir. cbn [tree cwd].
      destruct (is_empty p); [done|].
      apply walk_dirs_kept. by eapply makedirs_walk_kept.
    - cbn [tree]. rewrite Hrest; [done|].
      intros j Hj Heq%(f_equal length).
      rewrite !length_app, length_take in Heq. lia. }
  assert (node_at t2 ((K ++ lr) ++ own_segs a L) = Some Dir) as Hdir2.
  { specialize (Hdirs (length (own_segs a L))). rewrite take_ge in Hdirs by lia.
    apply Hdirs. lia. }
  unfold DataFile.write. rewrite run_bind. cbn [run inspect].
  assert (os.exists_ fs2 pth = true) as ->.
  { unfold os.exists_, os.stat. rewrite Hloc2. unfold fs2. cbn [tree].
    by rewrite Hdir2. }
  cbn [assert]. unfold io_.write_file, DataFile.path.
  change (join pth [DataFile.name df]) with (join2 pth (DataFile.name df)).
  rewrite (locate_join2_name fs2 pth _ ((K ++ lr) ++ own_segs a L)); try done.
  2:{ revert Hloc2. unfold os.locate. by destruct (is_empty pth). }
  unfold fs2 at 1 2. cbn [tree cwd].
  assert (node_at t2 (((K ++ lr) ++ own_segs a L) ++ [DataFile.name df]) ≠ Some Dir)
    as Hfree.
  { rewrite Hrest.
    - by rewrite <- !app_assoc.
    - intros j Hj Heq%(f_equal length).
      rewrite !length_app, length_take in Heq. simpl in Heq. lia. }
  revert Hfree.
  destruct (node_at t2 (((K ++ lr) ++ own_segs a L) ++ [DataFile.name df]))
    as [[|s]|]; intros Hfree;
    [by destruct Hfree | by eexists | by eexists].
Qed.

Lemma no_clash_unfold a R :
  no_clash a R ↔
  match DataSeries.root a with
  | None => True
  | Some r =>
      match DataSeries.loc_dfile r with
      | Some df => hd "" (own_segs a R) ≠ DataFile.name df
      | None => True
      end ∧ no_clash r (root_locs a R)
  end.
Proof. by destruct a. Qed.

(** The longest of the locator file keys is the one of the series itself. *)
Lemma chain_files_longest a R x c :
  chain_ok a → laid_out a R → (x, c) ∈ chain_files a R →
  length x = (chain_depth a + 1)%nat →
  ∃ df, DataSeries.loc_dfile a = Some df ∧ x = chain_segs a R ++ [DataFile.name df].
Proof.
  intros Hok Hlaid Hin Hlen.
  pose proof Hok as (_ & Hd & _)%chain_ok_unfold.
  rewrite chain_files_own in Hin. rewrite chain_depth_unfold in Hlen.
  apply elem_of_app in Hin as [Hin|Hin].
  - destruct (DataSeries.root a) as [r|] eqn:Hroot; [|by apply elem_of_nil in Hin].
    destruct (laid_out_root _ _ _ Hroot Hok Hlaid) as (Hokr & Hlaidr & _).
    destruct (chain_files_length _ _ _ _ Hokr Hlaidr Hin) as [Hl _]. lia.
  - revert Hin. unfold own_file.
    destruct (DataSeries.loc_dfile a) as [df|]; [|by intros ?%elem_of_nil].
    intros [= -> _]%list_elem_of_singleton. by exists df.
Qed.

Lemma clash_free a : ∀ L R x c,
  chain_ok a → laid_out a L → laid_out a R → no_clash a L →
  (x, c) ∈ chain_files a R → (length x ≤ chain_depth a)%nat →
  x = take (length x) (chain_segs a L) → False.
Proof.
  induction a as [a Hroot|a r Hroot IH] using chain_ind';
    intros L R x c Hok HL HR Hclash Hin Hlen Hx;
    pose proof Hok as (_ & Hd & _)%chain_ok_unfold;
    pose proof (chain_segs_ok _ _ Hok HR) as (HlenR & _);
    rewrite chain_files_own, Hroot in Hin;
    pose proof (chain_depth_unfold a) as Hdepth; rewrite Hroot in Hdepth;
    apply elem_of_app in Hin as [Hin|Hin%own_file_length]; try lia.
  - by apply elem_of_nil in Hin.
  - destruct (laid_out_root _ _ _ Hroot Hok HL) as (Hokr & HLr & _).
    destruct (laid_out_root _ _ _ Hroot Hok HR) as (_ & HRr & _).
    apply no_clash_unfold in Hclash. rewrite Hroot in Hclash.
    destruct Hclash as [Hhd Hclash].
    destruct (chain_segs_ok _ _ Hokr HLr) as (HlenLr & _).
    destruct (chain_files_length _ _ _ _ Hokr HRr Hin) as [Hl _].
    rewrite chain_segs_unfold, Hroot in Hx.
    destruct (decide (length x ≤ chain_depth r)%nat) as [Hle|Hgt].
    + rewrite take_app_le in Hx by lia. by eapply (IH (root_locs a L)).
    + destruct (chain_files_longest _ _ _ _ Hokr HRr Hin) as (dfr & Hdfr & Hxr);
        [lia|].
      rewrite Hdfr in Hhd.
      replace (length x) with (length (chain_segs r (root_locs a L)) + 1)%nat in Hx
        by lia.
      rewrite take_app_add in Hx. rewrite Hx in Hxr.
      apply app_inj_1 in Hxr as [_ Hxr].
      2:{ destruct (chain_segs_ok _ _ Hokr HRr) as (HlenRr & _). lia. }
      destruct (own_segs a L) as [|s l]; [done|]. simpl in *. rewrite take_0 in Hxr.
      congruence.
Qed.

(** [create] returns when no file is in the way of a directory and no
    directory in the way of a locator file. *)
Lemma create_returns a : ∀ L fs,
  chain_ok a → laid_out a L → good_dir (chain_prefix a) = true →
  os.locate fs (chain_prefix a) = Ok K → node_at (tree fs) K = Some Dir →
  Forall (λ s, is_name s = true) (cwd fs) →
  complete K a L (tree fs) → no_clash a L →
  (∀ i c, (0 < i ≤ length (chain_segs a L))%nat →
          node_at (tree fs) (K ++ take i (chain_segs a L)) ≠ Some (File c)) →
  (∀ x c, (x, c) ∈ chain_files a L → node_at (tree fs) (K ++ x) ≠ Some Dir) →
  ∃ fs', run (DataSeries.create a L) fs = (fs', Ok tt).
Proof.
  induction a as [a Hroot|a r Hroot IH] using chain_ind';
    intros L fs Hok Hlaid Hgood Hloc HK Hcwd Hpre Hclash Hnofile Hnodir;
    pose proof (chain_segs_ok _ _ Hok Hlaid) as (Hlen & _ & Hsne);
    pose proof (own_segs_ok _ _ Hok Hlaid) as (_ & Holen & Hopos & _);
    apply complete_unfold in Hpre as [Hown Hpre];
    rewrite create_unfold, Hroot;
    pose proof (chain_segs_unfold a L) as Hsegs;
    pose proof (chain_files_own a L) as Hfiles;
    pose proof (chain_depth_unfold a) as Hdepth;
    pose proof (chain_path_unfold a L) as Hcp;
    rewrite Hroot in Hsegs, Hfiles, Hdepth, Hpre, Hcp;
    rewrite chain_prefix_unfold, Hroot in Hgood, Hloc;
    (assert (∀ df, DataSeries.loc_dfile a = Some df →
               (chain_segs a L ++ [DataFile.name df],
                DataFile.writer_ df (own_locs a L)) ∈ chain_files a L) as Hownfile;
     [intros df Hdf; rewrite Hfiles, elem_of_app; right; unfold own_file;
      rewrite Hdf; by left|]).
  - apply (own_returns a L [] (DataSeries.prefix a) fs); try done.
    + by rewrite app_nil_r.
    + by rewrite app_nil_r.
    + rewrite <- Hcp. apply well_mapped_path; [done|].
      by apply laid_out_well_mapped.
    + intros i c Hi. simpl. simpl in Hsegs. rewrite <- Hsegs.
      apply Hnofile. by rewrite Hsegs.
    + intros df Hdf. simpl. simpl in Hsegs. rewrite <- Hsegs.
      by apply (Hnodir _ _ (Hownfile df Hdf)).
    + simpl. simpl in Hsegs. rewrite <- Hsegs. intros Hdir [|i] Hi.
      * by rewrite take_0, app_nil_r.
      * destruct (Hown Hdir) as [Hd _]. apply Hd. rewrite Hsegs. lia.
  - destruct (laid_out_split _ _ Hok Hlaid) as (_ & _ & _ & Hrl & _).
    destruct (laid_out_root _ _ _ Hroot Hok Hlaid) as (Hokr & Hlaidr & _).
    pose proof (chain_segs_ok _ _ Hokr Hlaidr) as (Hlenr & _ & Hsner).
    apply no_clash_unfold in Hclash. rewrite Hroot in Hclash.
    destruct Hclash as [Hhd Hclashr].
    rewrite Hrl.
    assert (complete K r (root_locs a L) (tree fs)) as Hprer by done.
    destruct (IH (root_locs a L) fs) as [fs1 Hrun1]; try done.
    { intros i c Hi. specialize (Hnofile i c).
      rewrite Hsegs, length_app in Hnofile.
      rewrite take_app_le in Hnofile by lia. apply Hnofile. lia. }
    { intros x c Hx. apply (Hnodir x c). rewrite Hfiles, elem_of_app. by left. }
    rewrite Hrun1.
    destruct (create_chain_effect K r _ fs fs1 Hokr Hlaidr Hgood Hloc HK Hprer Hrun1)
      as (Hdr & Hfr & Hrestr & _ & _ & Hlensr).
    pose proof (create_kept _ _ _ _ _ Hrun1) as [Hkept1 Hcwd1].
    assert (os.locate fs1 (chain_prefix r) = Ok K) as Hloc1
      by (by eapply locate_dirs_kept).
    pose proof (locate_chain_path K r _ fs1 Hokr Hlaidr Hgood Hloc1
                  (Hkept1 _ HK) Hdr) as Hlocr.
    pose proof (dirs_to_last K _ _ _ Hokr Hlaidr Hdr) as HKr.
    destruct (chain_path_form _ _ Hokr Hlaidr Hgood) as (Hgoodr & _).
    assert (∀ k, (length K + chain_depth r < length k)%nat →
                 (∀ x c, (x, c) ∈ chain_files r (root_locs a L) → k ≠ K ++ x) →
                 node_at (tree fs1) k = node_at (tree fs) k) as Hdeep.
    { intros k Hk Hnf. apply Hrestr; [|done].
      intros i Hi ->. rewrite length_app, length_take in Hk. lia. }
    assert (∀ x c k, (x, c) ∈ chain_files r (root_locs a L) → k = K ++ x →
                     node_at (tree fs1) k = Some (File c)) as Hfr'.
    { intros x c k Hx ->. rewrite node_at_app; [by apply Hfr|].
      destruct (Hlensr _ _ Hx) as [? _]. destruct x; [simpl in *; lia | done]. }
    (* a key of the series' own is a locator file of the root or untouched *)
    assert (∀ k, (length K + chain_depth r < length k)%nat →
                 (∃ x c, (x, c) ∈ chain_files r (root_locs a L) ∧ k = K ++ x ∧
                         node_at (tree fs1) k = Some (File c)) ∨
                 node_at (tree fs1) k = node_at (tree fs) k) as Hcase.
    { intros k Hk.
      destruct (decide (Exists (λ xc, k = K ++ xc.1)
                          (chain_files r (root_locs a L))))
        as [([x c] & Hx & Heq)%Exists_exists|Hno].
      - left. exists x, c. split_and!; [done | done | by eapply Hfr'].
      - right. apply Hdeep; [done|]. intros x c Hx Heq. apply Hno, Exists_exists.
        by exists (x, c). }
    apply (own_returns a L (chain_segs r (root_locs a L))
             (chain_path r (root_locs a L)) fs1); try done.
    + rewrite <- Hcp. apply well_mapped_path; [by rewrite Hcwd1|].
      by apply laid_out_well_mapped.
    + intros i c Hi Hfile.
      destruct (Hcase (K ++ chain_segs r (root_locs a L) ++ take i (own_segs a L)))
        as [(x & c' & Hx & Heq & _)|Heq].
      { rewrite !length_app, length_take. lia. }
      * apply app_inv_head in Heq.
        destruct (chain_files_longest r (root_locs a L) x c' Hokr Hlaidr Hx)
          as (dfr & Hdfr & Hxr).
        { destruct (Hlensr _ _ Hx) as [_ Hl].
          apply (f_equal length) in Heq.
          rewrite length_app, length_take in Heq. lia. }
        rewrite Hdfr in Hhd. rewrite Hxr in Heq. apply app_inv_head in Heq.
        revert Heq Hhd Hi. destruct (own_segs a L) as [|s l]; intros Heq Hhd Hi;
          [simpl in Hi; lia|].
        destruct i as [|i]; [lia|]. simpl in Heq. injection Heq as -> _. done.
      * rewrite Heq in Hfile.
        apply (Hnofile (length (chain_segs r (root_locs a L)) + i)%nat c).
        { rewrite Hsegs, length_app. lia. }
        by rewrite Hsegs, take_app_add.
    + intros df Hdf Hdir.
      destruct (Hcase (K ++ chain_segs r (root_locs a L) ++ own_segs a L
                         ++ [DataFile.name df]))
        as [(x & c' & Hx & Heq & Hfile)|Heq].
      { rewrite !length_app. simpl. lia. }
      * congruence.
      * rewrite Heq in Hdir. apply (Hnodir _ _ (Hownfile df Hdf)).
        by rewrite Hsegs, <- !app_assoc.
    + intros Hdir i Hi.
      assert (node_at (tree fs) (K ++ chain_segs a L) = Some Dir) as Hdir0.
      { rewrite Hsegs.
        destruct (Hcase (K ++ chain_segs r (root_locs a L) ++ own_segs a L))
          as [(x & c' & Hx & Heq & Hfile)|Heq]; [|congruence|by rewrite <- Heq].
        rewrite !length_app. lia. }
      destruct (Hown Hdir0) as [Hd0 _].
      destruct i as [|i]; [by rewrite take_0, app_nil_r|].
      apply Hkept1. rewrite <- take_app_add, <- Hsegs. apply Hd0.
      rewrite Hsegs, length_app. lia.
Qed.

Section run.
Context (a : DataSeries.t Loc).
Context (Hok : chain_ok a) (Hgood : good_dir (chain_prefix a) = true).

Lemma known_step Ts fs L fs' :
  made K a Ts fs → known K a Ts (tree fs) → laid_out a L →
  (∀ R, R ∈ Ts → apart a L R ∧ apart a R L) →
  run (DataSeries.create a L) fs = (fs', Ok tt) →
  known K a (L :: Ts) (tree fs').
Proof.
  intros (Hloc & HK & Hnames & Hview) Hknown Hlaid Hsame Hrun.
  assert (complete K a L (tree fs)) as Hpre.
  { eapply view_complete; [done..|]. intros R HR. by apply Hsame. }
  destruct (create_chain_effect K a L fs fs' Hok Hlaid Hgood Hloc HK Hpre Hrun)
    as (Hd & Hf & Hrest & _).
  destruct (chain_segs_ok _ _ Hok Hlaid) as (Hlen & _).
  intros x nd Hx Hnd.
  destruct (decide (x = take (length x) (chain_segs a L))) as [Heq|Hnd'].
  { assert (0 < length x ≤ length (chain_segs a L))%nat as Hi.
    { split; [destruct x; [done | simpl; lia]|].
      apply (f_equal length) in Heq. rewrite length_take in Heq. lia. }
    exists L. split; [by left|]. left. split_and!; [|lia|done].
    rewrite <- node_at_app, Heq, Hd in Hnd by done. congruence. }
  destruct (decide (Exists (λ xc, x = xc.1) (chain_files a L)))
    as [([x' c] & Hin & ->)%Exists_exists | Hnf].
  { exists L. split; [by left|]. right. exists c. simpl in *.
    rewrite (Hf _ _ Hin) in Hnd. split; [congruence | done]. }
  rewrite <- node_at_app in Hnd by done. rewrite Hrest in Hnd.
  - rewrite node_at_app in Hnd by done.
    destruct (Hknown x nd Hx Hnd) as (R & HR & Hcase).
    exists R. split; [by right | done].
  - intros i Hi Heq%app_inv_head. apply Hnd'. rewrite Heq at 2.
    rewrite length_take. by replace (i `min` _)%nat with i by lia.
  - intros x' c Hin Heq%app_inv_head. apply Hnf, Exists_exists.
    by exists (x', c).
Qed.

Lemma create_all_returns_from Ls : ∀ Ts fs,
  made K a Ts fs → known K a Ts (tree fs) →
  Forall (λ s, is_name s = true) (cwd fs) →
  (∀ L, L ∈ Ls → laid_out a L) →
  (∀ L, L ∈ Ls ++ Ts → no_clash a L) →
  (∀ L L', L ∈ Ls ++ Ts → L' ∈ Ls ++ Ts → apart a L L') →
  ∃ fs', run (create_all a Ls) fs = (fs', Ok tt).
Proof.
  induction Ls as [|L Ls IH]; intros Ts fs Hmade Hknown Hcwd Hlaid Hclash Hsame.
  { by eexists. }
  assert (∀ R, R ∈ Ts → apart a L R ∧ apart a R L) as HsameL.
  { intros R HR. split; apply Hsame; try (by left);
      right; apply elem_of_app; by right. }
  assert (laid_out a L) as HL by (apply Hlaid; by left).
  pose proof Hmade as (Hloc & HK & Hnames & Hview).
  destruct (create_returns a L fs) as [fs1 Hrun]; try done.
  { eapply view_complete; [done..|]. intros R HR. by apply HsameL. }
  { apply Hclash. by left. }
  { intros i c Hi Hfile.
    assert (take i (chain_segs a L) ≠ []) as Hne.
    { destruct (chain_segs a L); [simpl in Hi; lia|]. destruct i; [lia | done]. }
    rewrite node_at_app in Hfile by done.
    destruct (Hknown _ _ Hne Hfile) as (R & HR & [(? & _)|(c' & _ & Hin)]); [done|].
    destruct Hview as (H1 & _). destruct (H1 _ HR) as (HlaidR & _).
    destruct (chain_segs_ok _ _ Hok HL) as (Hlen & _).
    apply (clash_free a L R (take i (chain_segs a L)) c' Hok HL HlaidR);
      [apply Hclash; by left | done | rewrite length_take; lia |].
    rewrite length_take. f_equal. lia. }
  { intros x c Hin Hdir.
    destruct (chain_files_length _ _ _ _ Hok HL Hin) as [[Hl _] _].
    assert (x ≠ []) as Hne by (destruct x; [simpl in Hl; lia | done]).
    rewrite node_at_app in Hdir by done.
    destruct (Hknown _ _ Hne Hdir) as (R & HR & [(_ & Hlen & Hx)|(c' & ? & _)]);
      [|done].
    destruct Hview as (H1 & _). destruct (H1 _ HR) as (HlaidR & _).
    apply (clash_free a R L x c Hok HlaidR HL); [|done..].
    apply Hclash. right. apply elem_of_app. by right. }
  cbn [create_all]. rewrite run_bind, Hrun.
  apply (IH (L :: Ts) fs1).
  - by apply (made_step K a Hok Hgood Ts fs).
  - by apply (known_step Ts fs).
  - by rewrite (proj2 (create_kept _ _ _ _ _ Hrun)).
  - intros L' HL'. apply Hlaid. by right.
  - intros L' HL'. by apply Hclash, elem_of_middle_cons.
  - intros L1 L2 H1 H2. by apply Hsame; apply elem_of_middle_cons.
Qed.

End run.

End returns.



(** ** Creation followed by enumeration *)



(** ** Further compositions *)

(** On a series without a root, with [nlocs > 0] and a locator file,
    [existing()] does not depend on [relative]: there is no root prefix to
    put in front. *)
Theorem existing_rootless_relative {Loc} (fuel : nat) (self : DataSeries.t Loc)
    (fs : FS) :
  DataSeries.root self = None → (DataSeries.nlocs self > 0)%Z →
  is_Some (DataSeries.loc_dfile self) →
  DataSeries.existing fuel self [] true fs = DataSeries.existing fuel self [] false fs.
Proof.
  intros Hroot Hn [df Hdf].
  rewrite !(existing_full_prefix _ _ _ _ df) by
    (done || by rewrite root_locator_count_rootless).
  destruct (DataSeries._existing_paths self [] fs) as [pths|e]; [|done].
  cbn [mbind Res_bind]. destruct (mapM _ _) as [l|e]; [|done].
  cbn [mbind Res_bind]. f_equal. symmetry. apply fmap_app_nil.
Qed.

Lemma existing_rootless_relative_witness :
  let fs := (run (create_all Scenario.parent [["1"]; ["2"]]) Scenario.fs0).1 in
  DataSeries.existing 0 Scenario.parent [] true fs
  = DataSeries.existing 0 Scenario.parent [] false fs.
Proof.
  apply (existing_rootless_relative 0 Scenario.parent
           (run (create_all Scenario.parent [["1"]; ["2"]]) Scenario.fs0).1);
    [reflexivity | by vm_compute | by eexists].
Defined.

(** In a directory of the series that exists, [write(val, locs)] through
    a [DataSeriesFile] returns when the file has a plain name and no
    directory of that name is in the way, and [read(locs)] then gives back
    what was written, decoded by the reader. *)
Theorem DataSeriesFile_write_returns {Loc V} (dsf : DataSeriesFile.t Loc V)
    (v : V) (locs : list Loc) (fs : FS) (pth : string) (kd : list string) :
  DataSeries.path (DataSeriesFile.dir dsf) locs fs = Ok pth →
  os.locate fs pth = Ok kd → node_at (tree fs) kd = Some Dir →
  is_name (DataFile.name (DataSeriesFile.file dsf)) = true →
  node_at (tree fs) (kd ++ [DataFile.name (DataSeriesFile.file dsf)]) ≠ Some Dir →
  ∃ fs', run (DataSeriesFile.write dsf v locs) fs = (fs', Ok tt) ∧
         DataSeriesFile.read dsf locs fs'
         = Ok (DataFile.reader_ (DataSeriesFile.file dsf)
                 (DataFile.writer_ (DataSeriesFile.file dsf) v)).
Proof.
  intros Hpath Hloc Hkd Hname Hfree.
  set (df := DataSeriesFile.file dsf) in *.
  assert (posixpath.is_empty pth = false) as Hne.
  { revert Hloc. unfold os.locate. by destruct (posixpath.is_empty pth). }
  assert (run (DataFile.write df v pth) fs
          = (mkFS (<[kd ++ [DataFile.name df] := File (DataFile.writer_ df v)]> (tree fs))
                  (cwd fs), Ok tt)) as Hrun.
  { unfold DataFile.write. rewrite run_bind. cbn [run inspect].
    unfold os.exists_, os.stat. rewrite Hloc, Hkd. cbn [assert].
    unfold io_.write_file, DataFile.path.
    change (posixpath.join pth [DataFile.name df])
      with (posixpath.join2 pth (DataFile.name df)).
    rewrite (locate_join2_name fs pth _ kd) by done.
    by destruct (node_at (tree fs) (kd ++ [DataFile.name df])) as [[|s]|]. }
  eexists. unfold DataSeriesFile.write, DataSeriesFile.read.
  rewrite run_bind. cbn [run inspect]. rewrite Hpath. fold df.
  split; [exact Hrun|].
  rewrite (path_cwd _ _ fs) by done. rewrite Hpath. cbn [mbind Res_bind].
  pose proof Hrun as [_ Hw]%DataFile_write_inv.
  apply write_file_read_file in Hw as [Hfile Hread].
  unfold DataFile.read, DataFile.exists_.
  rewrite Hfile. cbn [assert mbind Res_bind]. by rewrite Hread.
Qed.

Lemma DataSeriesFile_write_returns_witness :
  let dsf := DataSeriesFile.__init__ Scenario.parent Scenario.info in
  let fs := (run (DataSeries.create Scenario.parent ["1"]) Scenario.fs0).1 in
  ∃ fs', run (DataSeriesFile.write dsf "hello" ["1"]) fs = (fs', Ok tt) ∧
         DataSeriesFile.read dsf ["1"] fs'
         = Ok (DataFile.reader_ Scenario.info (DataFile.writer_ Scenario.info "hello")).
Proof.
  apply (DataSeriesFile_write_returns
           (DataSeriesFile.__init__ Scenario.parent Scenario.info) "hello" ["1"]
           (run (DataSeries.create Scenario.parent ["1"]) Scenario.fs0).1
           "/tmp/x/1" ["tmp"; "x"; "1"]);
    [reflexivity | reflexivity | reflexivity | reflexivity | by vm_compute].
Defined.

(** ** A file in the way *)

Section blocked.
Import posixpath.

Lemma makedirs_walk_blocked t K segs fresh c :
  segs ≠ [] → Forall (λ s, is_name s = true) segs →
  (∀ i, (i < length segs)%nat → node_at t (K ++ take i segs) = Some Dir) →
  node_at t (K ++ segs) = Some (File c) →
  os.makedirs_walk t K segs fresh = (t, Raise FileExistsError).
Proof.
  revert K fresh. induction segs as [|x rest IH]; intros K fresh Hne Hnames Hdirs Hfile;
    [done|].
  apply Forall_cons in Hnames as [Hx Hrest].
  destruct (is_name_plain _ Hx) as (H1 & H2 & H3).
  simpl.
  pose proof (Hdirs 0%nat ltac:(simpl; lia)) as HK.
  rewrite take_0, app_nil_r in HK. rewrite HK.
  rewrite bool_decide_eq_false_2 by (by intros [?|?]).
  rewrite (bool_decide_eq_false_2 (x = "..")) by done.
  destruct rest as [|y rest].
  - simpl in Hfile. rewrite Hfile. by rewrite bool_decide_eq_true_2.
  - pose proof (Hdirs 1%nat ltac:(simpl; lia)) as Hx1. simpl in Hx1.
    rewrite Hx1. apply IH; [done | done | |].
    + intros i Hi. rewrite <- app_assoc. apply (Hdirs (S i)). simpl in *. lia.
    + by rewrite <- app_assoc.
Qed.

End blocked.

(** When a file lies where the directory of the tuple is to be, on a
    series without a root, [create(locs)] raises the [FileExistsError] of
    [os.makedirs] and changes nothing. *)
Theorem create_blocked_by_file {Loc} (self : DataSeries.t Loc) (locs : list Loc)
    (fs : FS) (K segs : list string) (c : string) :
  DataSeries.root self = None →
  good_dir (DataSeries.prefix self) = true →
  os.locate fs (DataSeries.prefix self) = Ok K → node_at (tree fs) K = Some Dir →
  DataSeries.path self locs fs
  = Ok (posixpath.join2 (DataSeries.prefix self) (posixpath.join_str segs)) →
  segs ≠ [] → Forall (λ s, is_name s = true) segs →
  (∀ i, (i < length segs)%nat → node_at (tree fs) (K ++ take i segs) = Some Dir) →
  node_at (tree fs) (K ++ segs) = Some (File c) →
  run (DataSeries.create self locs) fs = (fs, Raise FileExistsError).
Proof.
  intros Hroot Hgood Hloc HK Hpath Hne Hnames Hdirs Hfile.
  rewrite create_unfold, Hroot. unfold create_own.
  rewrite run_bind. cbn [run inspect]. unfold DataSeries.exists_.
  rewrite Hpath. cbn [mbind Res_bind].
  assert (os.isdir fs (posixpath.join2 (DataSeries.prefix self)
                         (posixpath.join_str segs)) = false) as ->.
  { unfold os.isdir, os.stat.
    rewrite (locate_join2 fs _ segs K) by done.
    rewrite walk_names by done. by rewrite Hfile. }
  cbn [negb]. rewrite run_bind. cbn [run inspect]. rewrite Hpath.
  rewrite run_bind. cbn [run].
  rewrite (makedirs_join2 fs _ segs K) by done.
  rewrite (makedirs_walk_blocked _ _ _ _ c) by done.
  by destruct fs.
Qed.

Lemma create_blocked_by_file_witness :
  let fs := (run (DataFile.write (DataFile.__init__ "1" (λ s : string, s) (λ s, s))
                    "data" "/tmp/x") Scenario.fs0).1 in
  run (DataSeries.create Scenario.parent ["1"]) fs = (fs, Raise FileExistsError).
Proof.
  apply (create_blocked_by_file Scenario.parent ["1"]
           (run (DataFile.write (DataFile.__init__ "1" (λ s : string, s) (λ s, s))
                   "data" "/tmp/x") Scenario.fs0).1
           ["tmp"; "x"] ["1"] "data");
    try reflexivity; try done.
  - repeat constructor.
  - intros [|i] Hi; [reflexivity | simpl in Hi; lia].
Defined.

(** ** Which tuples exist after creation *)



(** ** A series without locators beneath roots that take some *)

(** [existing()] does not return on a series whose root takes no locators
    while the roots above that one take some: the call goes on to the
    root's [existing], which asks [exists()] with no locators, and the path
    of the root has no value for the empty tuple. *)
Theorem existing_over_zero_locator_root {Loc} (fuel : nat)
    (self r : DataSeries.t Loc) (relative : bool) (fs : FS) :
  (DataSeries.nlocs self > 0)%Z → is_Some (DataSeries.loc_dfile self) →
  DataSeries.root self = Some r → DataSeries.nlocs r = 0%Z →
  (0 < DataSeries.root_locator_count r)%Z →
  ∃ e, DataSeries.existing fuel self [] relative fs = Raise e.
Proof.
  intros Hn [df Hdf] Hroot Hr Hrc.
  assert (len (@nil Loc) < DataSeries.root_locator_count self)%Z as Hshort.
  { rewrite root_locator_count_unfold, Hroot. unfold len. simpl. lia. }
  destruct fuel as [|fuel].
  { exists RecursionError. simpl. rewrite Hdf.
    rewrite (bool_decide_eq_false_2 (DataSeries.nlocs self = 0%Z)) by lia.
    rewrite (bool_decide_eq_true_2 (DataSeries.nlocs self > 0)%Z) by done.
    by rewrite bool_decide_eq_true_2 by done. }
  rewrite (existing_short_prefix _ _ r _ _ df) by done.
  rewrite existing_no_locators by done. unfold DataSeries.exists_.
  destruct (DataSeries.path r [] fs) as [p|e] eqn:Hp; [|by exists e].
  apply path_arity in Hp as (Hlen & _). unfold len in Hlen. simpl in Hlen. lia.
Qed.

Lemma existing_over_zero_locator_root_witness :
  let mid := DataSeries.mk "/tmp/x" (λ _, "data") 0 1 None (Some Scenario.parent) false in
  let top := DataSeries.mk "/tmp/x" Scenario.map_a 1 1 (Some Scenario.loc_dfile)
               (Some mid) false in
  ∃ e, DataSeries.existing 2 top [] false Scenario.fs0 = Raise e.
Proof.
  apply (existing_over_zero_locator_root 2
           (DataSeries.mk "/tmp/x" Scenario.map_a 1 1 (Some Scenario.loc_dfile)
              (Some (DataSeries.mk "/tmp/x" (λ _, "data") 0 1 None
                       (Some Scenario.parent) false)) false)
           (DataSeries.mk "/tmp/x" (λ _, "data") 0 1 None (Some Scenario.parent) false)
           false Scenario.fs0);
    [by vm_compute | by eexists | reflexivity | reflexivity | by vm_compute].
Defined.
